(** * Bubo RSS reader: the feed ingestion pipeline of [build]

    A shallow embedding of the build script (imports, [CONTENT_TYPES],
    [isRSSExtension], [build], [parseDate], [byDateSort]) and the properties
    of its specification that concern fetching, validation, normalisation
    and ordering.

    JavaScript strings are modelled as [string] (a sequence of 8-bit code
    units), [undefined]/[null] as [None], objects read from JSON as records
    of optional fields, and the services of the runtime (the network, the
    feed parser, [Date], [URL]) as the fields of a [Runtime] record the
    definitions are parameterised by.  Two services are modelled as the
    engine has them, because the script depends on how: the sort of arrays
    and the lookup of a member in an object read from JSON. *)

From Stdlib Require Import ZArith Lia Ascii.
From Stdlib Require String.
From stdpp Require Import base option list sorting gmap strings pretty.

Local Open Scope Z_scope.

(** ** JavaScript strings *)

Module JsString.

Definition dquote : ascii := ascii_of_nat 34.
Definition backslash : ascii := ascii_of_nat 92.
Definition slash : ascii := ascii_of_nat 47.

(** Truthiness of a string-or-undefined value: [undefined] and the empty
    string are falsy. *)
Definition truthy (v : option string) : bool :=
  match v with
  | Some EmptyString => false
  | Some _ => true
  | None => false
  end.

(** [a || b] on such values. *)
Definition orElse (a b : option string) : option string :=
  if truthy a then a else b.

(** [String(v)] as used by template literals and constructors. *)
Definition toString (v : option string) : string :=
  match v with Some s => s | None => "undefined" end.

Definition startsWith (s pre : string) : bool := String.prefix pre s.

Definition endsWith (s suf : string) : bool :=
  let n := String.length s in
  let m := String.length suf in
  (m <=? n)%nat && String.eqb (String.substring (n - m) m s) suf.

(** [s.includes(sub)]. *)
Fixpoint includes (s sub : string) : bool :=
  String.prefix sub s
  || match s with
     | EmptyString => false
     | String _ s' => includes s' sub
     end.

(** [s.split(sep)] for a non-empty separator.  [skip] counts the code
    units of a separator just matched that are still to be dropped, [cur]
    is the piece being read. *)
Fixpoint split_go (sep : string) (skip : nat) (cur : string) (s : string)
  : list string :=
  match s with
  | EmptyString => [cur]
  | String c s' =>
      match skip with
      | S k => split_go sep k cur s'
      | O =>
          if String.prefix sep s
          then cur :: split_go sep (String.length sep - 1) EmptyString s'
          else split_go sep O (cur +:+ String c EmptyString) s'
      end
  end.

Definition split (s sep : string) : list string := split_go sep O EmptyString s.

(** [s.slice(-1)], [s.slice(0, 1)] and [s.slice(1)]. *)
Definition sliceLast (s : string) : string :=
  String.substring (String.length s - 1) 1 s.
Definition sliceFirst (s : string) : string := String.substring 0 1 s.
Definition sliceFrom1 (s : string) : string :=
  match s with EmptyString => EmptyString | String _ s' => s' end.

(** [s.substring(0, n)]. *)
Definition substring0 (n : nat) (s : string) : string := String.substring 0 n s.

End JsString.

(** ** JavaScript numbers and values

    Time values and their differences are integers well inside the exact
    range of a double, so a number is an integer or [NaN]. *)

Inductive number : Type :=
| Num (z : Z)
| NaN.

Definition number_sub (a b : number) : number :=
  match a, b with
  | Num x, Num y => Num (x - y)
  | _, _ => NaN
  end.

(** The two kinds of value the emptiness test of [build] compares. *)
Inductive jsval : Type :=
| VBool (b : bool)
| VNum (n : number).

(** [!n] for a number. *)
Definition js_not_num (n : number) : bool :=
  match n with
  | Num z => z =? 0
  | NaN => true
  end.

(** [a === b]: values of different types are never strictly equal. *)
Definition strictEq (a b : jsval) : bool :=
  match a, b with
  | VBool x, VBool y => Bool.eqb x y
  | VNum (Num x), VNum (Num y) => x =? y
  | _, _ => false
  end.

(** ** [Array.prototype.sort]

    The sort is the runtime's.  ECMAScript leaves its algorithm to the
    engine, and with it the order that comes out under a comparator that is
    not a consistent one, as [byDateSort] is not.  The workflow of the
    repository runs the script on Node 20.9.0, whose engine, V8, sorts with
    TimSort ([third_party/v8/builtins/array-sort.tq]).  The module follows
    that file function by function: runs are found by [CountAndMakeRun] and
    extended by [BinaryInsertionSort], kept on a stack and merged by
    [MergeCollapse] and [MergeForceCollapse] through [MergeAt],
    [GallopLeft], [GallopRight], [MergeLow] and [MergeHigh].  The array is
    held as lists: the runs on the stack and the part still to be read.
    The result [v] of [comparefn x y] is read as the language prescribes,
    [NaN] counting as [+0]; the engine only ever asks whether [v < 0].

    The loops take a bound on their number of rounds, [fuel].  The bounds
    they are given here are never reached (section "The bounds of the
    loops" below), so that the functions are those of the engine. *)

Module JsArray.
Section Sort.
Context {A : Type}.
Variable comparefn : A -> A -> number.

(** [SortCompare]: the comparator's result, [NaN] read as zero. *)
Definition sortCompare (x y : A) : Z :=
  match comparefn x y with
  | Num v => v
  | NaN => 0
  end.

(** [order < 0] for [order = Compare(x, y)]. *)
Definition less (x y : A) : bool := sortCompare x y <? 0.

(** [x] is to follow [y]: the comparator answers a positive number. *)
Definition mustFollow (x y : A) : bool := 0 <? sortCompare x y.

(** [ordered a b]: [a] may stand immediately before [b]. *)
Definition ordered (a b : A) : Prop := mustFollow a b = false.

Local Open Scope nat_scope.

(** The test [test] on the element at index [i] of [array]; the searches
    stay inside the array. *)
Definition probe (array : list A) (test : A -> bool) (i : nat) : bool :=
  match array !! i with
  | Some y => test y
  | None => false
  end.

(** [ComputeMinRunLength] *)
Fixpoint computeMinRunLength_go (fuel n r : nat) : nat :=
  match fuel with
  | O => n + r
  | S fuel' =>
      if 64 <=? n
      then computeMinRunLength_go fuel' (n / 2) (Nat.lor r (Nat.land n 1))
      else n + r
  end.

Definition computeMinRunLength (n : nat) : nat := computeMinRunLength_go n n 0.

(** The loop of [CountAndMakeRun]: how many of [rest] go on the run that
    ends in [previous]. *)
Fixpoint runTail (isDescending : bool) (previous : A) (rest : list A) : nat :=
  match rest with
  | [] => 0
  | current :: rest' =>
      if Bool.eqb (less current previous) isDescending
      then S (runTail isDescending current rest')
      else 0
  end.

(** [CountAndMakeRun] on the part of the array still to be read: the
    length of the run it starts with, and that part with the run reversed
    when it is descending. *)
Definition countAndMakeRun (l : list A) : nat * list A :=
  match l with
  | elementHigh :: elementLow :: rest =>
      let isDescending := less elementLow elementHigh in
      let runLength := 2 + runTail isDescending elementLow rest in
      (runLength,
       if isDescending then reverse (take runLength l) ++ drop runLength l
       else l)
  | _ => (1, l)
  end.

(** The binary searches: [left] and [right] close in on each other,
    [goRight mid] sending [left] past [mid]. *)
Fixpoint bisect (goRight : nat -> bool) (fuel left right : nat) : nat * nat :=
  match fuel with
  | O => (left, right)
  | S fuel' =>
      if left <? right then
        let mid := left + (right - left) / 2 in
        if goRight mid then bisect goRight fuel' (S mid) right
        else bisect goRight fuel' left mid
      else (left, right)
  end.

(** One round of [BinaryInsertionSort]: [pivot] is inserted in the sorted
    part before it. *)
Definition insertPivot (sorted : list A) (pivot : A) : list A :=
  let left :=
    fst (bisect (probe sorted (fun y => negb (less pivot y)))
           (length sorted) 0 (length sorted)) in
  take left sorted ++ pivot :: drop left sorted.

Definition binaryInsertionSort (sorted rest : list A) : list A :=
  fold_left insertPivot rest sorted.

(** The exponential search of [GallopLeft] and [GallopRight].  The guard
    against an overflow of [offset] is left out: offsets are bounded by the
    length of the array. *)
Fixpoint gallopLoop (continue : nat -> bool) (fuel lastOfs offset maxOfs : nat)
  : nat * nat :=
  match fuel with
  | O => (lastOfs, offset)
  | S fuel' =>
      if (offset <? maxOfs) && continue offset
      then gallopLoop continue fuel' offset (2 * offset + 1) maxOfs
      else (lastOfs, offset)
  end.

(** [GallopLeft] and [GallopRight] differ in the comparison they read at
    an index only: [P i] says that the key belongs to the right of index
    [i].  The first component of the pair the search ends on is
    [lastOfs + 1], as [lastOfs] itself may be [-1]. *)
Definition gallop (P : nat -> bool) (length hint : nat) : nat :=
  let '(lastOfs1, offset) :=
    if P hint then
      let maxOfs := length - hint in
      let '(lastOfs, offset) :=
        gallopLoop (fun ofs => P (hint + ofs)) maxOfs 0 1 maxOfs in
      (S (lastOfs + hint), Nat.min offset maxOfs + hint)
    else
      let maxOfs := hint + 1 in
      let '(lastOfs, offset) :=
        gallopLoop (fun ofs => negb (P (hint - ofs))) maxOfs 0 1 maxOfs in
      (S hint - Nat.min offset maxOfs, hint - lastOfs) in
  snd (bisect P (offset - lastOfs1) lastOfs1 offset).

(** [order = Compare(array[i], key)], to the right when [order < 0]. *)
Definition gallopLeft (key : A) (array : list A) (hint : nat) : nat :=
  gallop (probe array (fun y => less y key)) (length array) hint.

(** [order = Compare(key, array[i])], to the left when [order < 0]. *)
Definition gallopRight (key : A) (array : list A) (hint : nat) : nat :=
  gallop (probe array (fun y => negb (less key y))) (length array) hint.

Definition kMinGallopWins : nat := 7.

(** A merge yields the new [minGallop] of the sort state and the merged
    elements; [emit] and [emitAll] write to [dest]. *)
Definition emit (x : A) (r : nat * list A) : nat * list A := (fst r, x :: snd r).
Definition emitAll (xs : list A) (r : nat * list A) : nat * list A :=
  (fst r, xs ++ snd r).

(** The loop of [MergeLow]: [tempA] holds what is left of run A, [runB]
    what is left of run B; one element at a time, or galloping. *)
Fixpoint mergeLowLoop (fuel : nat) (galloping : bool)
    (minGallop nofWinsA nofWinsB : nat) (tempA runB : list A)
  : nat * list A :=
  match fuel with
  | O => (minGallop, tempA ++ runB)
  | S fuel' =>
      match tempA, runB with
      | a :: tempA', b :: runB' =>
          if galloping then
            let minGallop := Nat.max 1 (minGallop - 1) in
            let nofWinsA := gallopRight b tempA 0 in
            let tempA1 := drop nofWinsA tempA in
            emitAll (take nofWinsA tempA)
              (if (0 <? nofWinsA) && (length tempA1 =? 1)
               then (minGallop, runB ++ tempA1)
               else if (0 <? nofWinsA) && (length tempA1 =? 0)
               then (minGallop, runB)
               else
                 emit b
                   (if length runB' =? 0 then (minGallop, tempA1)
                    else
                      match tempA1 with
                      | [] => (minGallop, runB')
                      | a1 :: tempA2 =>
                          let nofWinsB := gallopLeft a1 runB' 0 in
                          let runB2 := drop nofWinsB runB' in
                          emitAll (take nofWinsB runB')
                            (if (0 <? nofWinsB) && (length runB2 =? 0)
                             then (minGallop, tempA1)
                             else
                               emit a1
                                 (if length tempA2 =? 1
                                  then (minGallop, runB2 ++ tempA2)
                                  else if (kMinGallopWins <=? nofWinsA)
                                          || (kMinGallopWins <=? nofWinsB)
                                  then mergeLowLoop fuel' true minGallop 0 0
                                         tempA2 runB2
                                  else mergeLowLoop fuel' false (S minGallop)
                                         0 0 tempA2 runB2))
                      end))
          else if less b a then
            emit b
              (if length runB' =? 0 then (minGallop, tempA)
               else if minGallop <=? S nofWinsB
               then mergeLowLoop fuel' true (S minGallop) 0 0 tempA runB'
               else mergeLowLoop fuel' false minGallop 0 (S nofWinsB)
                      tempA runB')
          else
            emit a
              (if length tempA' =? 1 then (minGallop, runB ++ tempA')
               else if minGallop <=? S nofWinsA
               then mergeLowLoop fuel' true (S minGallop) 0 0 tempA' runB
               else mergeLowLoop fuel' false minGallop (S nofWinsA) 0
                      tempA' runB)
      | _, _ => (minGallop, tempA ++ runB)
      end
  end.

(** [MergeLow]: the first element of run B goes first. *)
Definition mergeLow (minGallop : nat) (runA runB : list A) : nat * list A :=
  match runB with
  | [] => (minGallop, runA)
  | b :: runB' =>
      emit b
        (if length runB' =? 0 then (minGallop, runA)
         else if length runA =? 1 then (minGallop, runB' ++ runA)
         else mergeLowLoop (length runA + length runB') false minGallop 0 0
                runA runB')
  end.

(** The loop of [MergeHigh], which fills the array from its right end:
    the runs are held last element first, and so is the result. *)
Fixpoint mergeHighLoop (fuel : nat) (galloping : bool)
    (minGallop nofWinsA nofWinsB : nat) (runA tempB : list A)
  : nat * list A :=
  match fuel with
  | O => (minGallop, runA ++ tempB)
  | S fuel' =>
      match runA, tempB with
      | a :: runA', b :: tempB' =>
          if galloping then
            let minGallop := Nat.max 1 (minGallop - 1) in
            let nofWinsA :=
              length runA
              - gallopRight b (reverse runA) (length runA - 1) in
            let runA1 := drop nofWinsA runA in
            emitAll (take nofWinsA runA)
              (if (0 <? nofWinsA) && (length runA1 =? 0)
               then (minGallop, tempB)
               else
                 emit b
                   (if length tempB' =? 1 then (minGallop, runA1 ++ tempB')
                    else
                      match runA1 with
                      | [] => (minGallop, tempB')
                      | a1 :: runA2 =>
                          let nofWinsB :=
                            length tempB'
                            - gallopLeft a1 (reverse tempB')
                                (length tempB' - 1) in
                          let tempB2 := drop nofWinsB tempB' in
                          emitAll (take nofWinsB tempB')
                            (if (0 <? nofWinsB) && (length tempB2 =? 1)
                             then (minGallop, runA1 ++ tempB2)
                             else if (0 <? nofWinsB) && (length tempB2 =? 0)
                             then (minGallop, runA1)
                             else
                               emit a1
                                 (if length runA2 =? 0
                                  then (minGallop, tempB2)
                                  else if (kMinGallopWins <=? nofWinsA)
                                          || (kMinGallopWins <=? nofWinsB)
                                  then mergeHighLoop fuel' true minGallop 0 0
                                         runA2 tempB2
                                  else mergeHighLoop fuel' false (S minGallop)
                                         0 0 runA2 tempB2))
                      end))
          else if less b a then
            emit a
              (if length runA' =? 0 then (minGallop, tempB)
               else if minGallop <=? S nofWinsA
               then mergeHighLoop fuel' true (S minGallop) 0 0 runA' tempB
               else mergeHighLoop fuel' false minGallop (S nofWinsA) 0
                      runA' tempB)
          else
            emit b
              (if length tempB' =? 1 then (minGallop, runA ++ tempB')
               else if minGallop <=? S nofWinsB
               then mergeHighLoop fuel' true (S minGallop) 0 0 runA tempB'
               else mergeHighLoop fuel' false minGallop 0 (S nofWinsB)
                      runA tempB')
      | _, _ => (minGallop, runA ++ tempB)
      end
  end.

(** [MergeHigh]: the last element of run A goes last. *)
Definition mergeHigh (minGallop : nat) (runA runB : list A) : nat * list A :=
  let merged :=
    match reverse runA with
    | [] => (minGallop, reverse runB)
    | a :: runA' =>
        emit a
          (if length runA' =? 0 then (minGallop, reverse runB)
           else if length runB =? 1 then (minGallop, runA' ++ reverse runB)
           else mergeHighLoop (length runA' + length runB) false minGallop 0 0
                  runA' (reverse runB))
    end in
  (fst merged, reverse (snd merged)).

(** [MergeAt]: the elements of run A that precede the first of run B and
    those of run B that follow the last of run A are in place; the rest is
    merged from the shorter side. *)
Definition mergeAt (minGallop : nat) (runA runB : list A) : nat * list A :=
  match runB with
  | [] => (minGallop, runA)
  | keyRight :: _ =>
      let k := gallopRight keyRight runA 0 in
      let restA := drop k runA in
      emitAll (take k runA)
        match last restA with
        | None => (minGallop, runB)
        | Some keyLeft =>
            let lengthB := gallopLeft keyLeft runB (length runB - 1) in
            let merged :=
              if lengthB =? 0 then (minGallop, restA)
              else if length restA <=? lengthB
              then mergeLow minGallop restA (take lengthB runB)
              else mergeHigh minGallop restA (take lengthB runB) in
            (fst merged, snd merged ++ drop lengthB runB)
        end
  end.

(** The stack of pending runs, the latest first, with [minGallop]. *)
Definition SortState : Type := nat * list (list A).

Definition mergeInto (minGallop : nat) (runA runB : list A)
    (below : list (list A)) : SortState :=
  let merged := mergeAt minGallop runA runB in
  (fst merged, snd merged :: below).

(** [MergeCollapse] *)
Fixpoint mergeCollapse (fuel : nat) (state : SortState) : SortState :=
  match fuel with
  | O => state
  | S fuel' =>
      match snd state with
      | x :: y :: below =>
          let established1 :=
            match below with
            | z :: _ => length y + length x <? length z
            | [] => true
            end in
          let established0 :=
            match below with
            | z :: w :: _ => length z + length y <? length w
            | _ => true
            end in
          if negb established1 || negb established0 then
            match below with
            | z :: below' =>
                if length z <? length x then
                  let merged := mergeAt (fst state) z y in
                  mergeCollapse fuel' (fst merged, x :: snd merged :: below')
                else mergeCollapse fuel' (mergeInto (fst state) y x below)
            | [] => mergeCollapse fuel' (mergeInto (fst state) y x below)
            end
          else if length y <=? length x
          then mergeCollapse fuel' (mergeInto (fst state) y x below)
          else state
      | _ => state
      end
  end.

(** [MergeForceCollapse] *)
Fixpoint mergeForceCollapse (fuel : nat) (state : SortState) : SortState :=
  match fuel with
  | O => state
  | S fuel' =>
      match snd state with
      | x :: y :: below =>
          match below with
          | z :: below' =>
              if length z <? length x then
                let merged := mergeAt (fst state) z y in
                mergeForceCollapse fuel' (fst merged, x :: snd merged :: below')
              else mergeForceCollapse fuel' (mergeInto (fst state) y x below)
          | [] => mergeForceCollapse fuel' (mergeInto (fst state) y x below)
          end
      | _ => state
      end
  end.

(** The next run of what is left of the array, extended to [minRunLength]
    elements by binary insertion when it is shorter, and what is left
    after it. *)
Definition nextRun (minRunLength : nat) (rest : list A) : list A * list A :=
  let '(currentRunLength, array) := countAndMakeRun rest in
  if currentRunLength <? minRunLength then
    let forcedRunLength := Nat.min minRunLength (length rest) in
    (binaryInsertionSort (take currentRunLength array)
       (take (forcedRunLength - currentRunLength)
          (drop currentRunLength array)),
     drop forcedRunLength array)
  else (take currentRunLength array, drop currentRunLength array).

(** The loop of [ArrayTimSortImpl]. *)
Fixpoint sortLoop (fuel minRunLength : nat) (state : SortState)
    (rest : list A) : SortState :=
  match fuel with
  | O => state
  | S fuel' =>
      match rest with
      | [] => state
      | _ :: _ =>
          let '(run, rest') := nextRun minRunLength rest in
          let pushed := (fst state, run :: snd state) in
          sortLoop fuel' minRunLength
            (mergeCollapse (length (snd pushed)) pushed) rest'
      end
  end.

(** [Array.prototype.sort] with a comparator. *)
Definition sort (l : list A) : list A :=
  match l with
  | [] | [_] => l
  | _ =>
      let state :=
        sortLoop (length l) (computeMinRunLength (length l))
          (kMinGallopWins, []) l in
      concat (reverse (snd (mergeForceCollapse (length (snd state)) state)))
  end.

End Sort.
End JsArray.

(** ** Data model *)

(** An item of a parsed feed.  The parser passes on whichever of the date
    fields the format carries; [timestamp] and [comments] are written by
    the normalisation. *)
Module Item.
Record t : Type := mk {
  title : option string;
  link : option string;
  pubDate : option string;
  isoDate : option string;
  date : option string;
  published : option string;
  content : option string;
  contentSnippet : option string;
  comments : option string;
  timestamp : option string
}.

Definition set_link (v : option string) (i : t) : t :=
  mk (title i) v (pubDate i) (isoDate i) (date i) (published i)
     (content i) (contentSnippet i) (comments i) (timestamp i).
Definition set_comments (v : option string) (i : t) : t :=
  mk (title i) (link i) (pubDate i) (isoDate i) (date i) (published i)
     (content i) (contentSnippet i) v (timestamp i).
Definition set_timestamp (v : option string) (i : t) : t :=
  mk (title i) (link i) (pubDate i) (isoDate i) (date i) (published i)
     (content i) (contentSnippet i) (comments i) v.
End Item.

Module Channel.
Record t : Type := mk {
  title : option string;
  description : option string
}.
End Channel.

(** The object the feed parser returns, to which [build] adds [feed] and
    whose [title] and [items] it rewrites. *)
Module Contents.
Record t : Type := mk {
  feedUrl : option string;
  title : option string;
  description : option string;
  channel : option Channel.t;
  link : option string;
  items : list Item.t;
  feed : option string
}.

Definition set_feed (v : option string) (c : t) : t :=
  mk (feedUrl c) (title c) (description c) (channel c) (link c) (items c) v.
Definition set_title (v : option string) (c : t) : t :=
  mk (feedUrl c) v (description c) (channel c) (link c) (items c) (feed c).
Definition set_items (v : list Item.t) (c : t) : t :=
  mk (feedUrl c) (title c) (description c) (channel c) (link c) v (feed c).
End Contents.

(** What [build] reads of a response: the [content-type] header ([None]
    when the response has none) and the body text. *)
Module Response.
Record t : Type := mk {
  contentType : option string;
  text : string
}.
End Response.

(** What [build] reads of a parsed [URL]. *)
Module URL.
Record t : Type := mk {
  hostname : string;
  pathname : string;
  search : string
}.
End URL.

(** [config.json]: [redirects] maps a host label to a replacement host.
    Keys are the table's own; [timezone_offset] only feeds the rendering
    time and is left out. *)
Module Config.
Record t : Type := mk {
  redirects : option (gmap string string)
}.
End Config.

(** [cache.json], each part possibly absent. *)
Module Cache.
Record t : Type := mk {
  allItems : option (list Item.t);
  groups : option (list (string * list Contents.t))
}.
End Cache.

(** The services of the runtime.  [fetch url] is [None] when the request
    is rejected; [parseString body] is [None] when the parser throws;
    [Date_parse s] is the time value of [new Date(s)], [NaN] for an invalid
    date; [URL_parse s] is [None] when [new URL(s)] throws. *)
Record Runtime : Type := {
  fetch : string -> option Response.t;
  parseString : string -> option Contents.t;
  Date_parse : string -> number;
  toLocaleDateString : number -> string;
  URL_parse : string -> option URL.t
}.

(** A computation on a mutable object that either completes or throws;
    both carry the object as the computation left it. *)
Inductive completion (A : Type) : Type :=
| Normal (a : A)
| Throw (a : A).
Arguments Normal {A} a.
Arguments Throw {A} a.

Definition andThen {A : Type} (c : completion A) (f : A -> completion A)
  : completion A :=
  match c with
  | Normal a => f a
  | Throw a => Throw a
  end.

Definition stateOf {A : Type} (c : completion A) : A :=
  match c with Normal a => a | Throw a => a end.

(** [items.forEach(f)] where [f] mutates its argument: the items before a
    throwing one are rewritten, the ones after it are not reached. *)
Fixpoint forEach {A : Type} (f : A -> completion A) (l : list A)
  : completion (list A) :=
  match l with
  | [] => Normal []
  | x :: l' =>
      match f x with
      | Normal x' =>
          match forEach f l' with
          | Normal r => Normal (x' :: r)
          | Throw r => Throw (x' :: r)
          end
      | Throw x' => Throw (x' :: l')
      end
  end.

(** ** The build script *)

Definition CONTENT_TYPES : list string :=
  [ "application/json";
    "application/atom+xml";
    "application/rss+xml";
    "application/xml";
    "application/octet-stream";
    "text/xml";
    "application/x-rss+xml";
    "application/force-download" ].

Definition isRSSExtension (url : string) : bool :=
  existsb (fun ext => JsString.endsWith url ext) [".rss"; ".xml"; ".rdf"].

(** [CONTENT_TYPES.includes(contentType)] *)
Definition contentTypeListed (contentType : option string) : bool :=
  match contentType with
  | Some ct => existsb (String.eqb ct) CONTENT_TYPES
  | None => false
  end.

(** The regular expression [quotesContentMatch]: a run of escaped
    characters and of characters other than the quote and the backslash,
    between two double quotes which are not part of the match. *)
Module QuotesContent.

Definition isLineTerminator (c : ascii) : bool :=
  Ascii.eqb c (ascii_of_nat 10) || Ascii.eqb c (ascii_of_nat 13).

(** The greedy body started at the head of [s].  It stops at a quote, the
    only place where the look-ahead holds: giving units back only exposes
    a character that is not a quote. *)
Fixpoint body (s : string) : option string :=
  match s with
  | EmptyString => None
  | String c s' =>
      if Ascii.eqb c JsString.dquote then Some EmptyString
      else if Ascii.eqb c JsString.backslash then
        match s' with
        | EmptyString => None
        | String d s'' =>
            if isLineTerminator d then None
            else option_map (fun m => String c (String d m)) (body s'')
        end
      else option_map (String c) (body s')
  end.

(** The leftmost match: the first position that follows a quote and from
    which the body reaches a quote. *)
Fixpoint first (afterQuote : bool) (s : string) : option string :=
  match (if afterQuote then body s else None) with
  | Some m => Some m
  | None =>
      match s with
      | EmptyString => None
      | String c s' => first (Ascii.eqb c JsString.dquote) s'
      end
  end.

(** [s.match(quotesContentMatch)[0]]; [None] when [match] returns [null],
    in which case reading index 0 throws. *)
Definition match0 (s : string) : option string := first false s.

End QuotesContent.

(** [parseDate]: [None] is [undefined], [Some t] a [Date] object with time
    value [t] (an invalid date when [t] is [NaN]). *)
Definition parseDate (rt : Runtime) (item : option Item.t) : option number :=
  let date :=
    match item with
    | Some i => JsString.orElse (Item.isoDate i) (Item.pubDate i)
    | None => None
    end in
  if JsString.truthy date
  then Some (Date_parse rt (JsString.toString date))
  else None.

(** [byDateSort]: a [Date] object is truthy whatever its time value, so
    only an absent date takes the early return. *)
Definition byDateSort (rt : Runtime) (dateStrA dateStrB : option Item.t)
  : number :=
  match parseDate rt dateStrA, parseDate rt dateStrB with
  | Some aDate, Some bDate => number_sub bDate aDate
  | _, _ => Num 0
  end.

(** The comparators handed to [sort] by [build]. *)
Definition itemCompare (rt : Runtime) (a b : Item.t) : number :=
  byDateSort rt (Some a) (Some b).

Definition feedCompare (rt : Runtime) (a b : Contents.t) : number :=
  byDateSort rt (head (Contents.items a)) (head (Contents.items b)).

(** [!contents.items.length === 0]: the negation binds first, so a
    boolean is compared with the number zero. *)
Definition emptyItemsTest (items : list Item.t) : bool :=
  strictEq (VBool (js_not_num (Num (Z.of_nat (length items))))) (VNum (Num 0)).

(** The title fallback chain. *)
Definition fallbackTitle (contents : Contents.t) : option string :=
  let channelTitle :=
    match Contents.channel contents with
    | Some ch => Channel.title ch
    | None => None
    end in
  let channelDescription :=
    match Contents.channel contents with
    | Some ch => Channel.description ch
    | None => None
    end in
  JsString.orElse (Contents.title contents)
    (JsString.orElse (Contents.description contents)
      (JsString.orElse channelTitle
        (JsString.orElse channelDescription (Contents.link contents)))).

(** The truncation of a title longer than 100 code units. *)
Definition truncateTitle (title : string) : string :=
  if (100 <? String.length title)%nat
  then JsString.substring0 97 title +:+ "..."
  else title.

Definition isRedditRSS (contents : Contents.t) : bool :=
  JsString.truthy (Contents.feedUrl contents)
  && JsString.includes (JsString.toString (Contents.feedUrl contents))
       "reddit.com/r/".

(** [config.redirects] is an object made by [JSON.parse]: reading a member
    of it finds its own members first and then those every object inherits
    from [Object.prototype].  [inherited] gives, for the name of such a
    member, the string a template literal makes of its value: the source of
    a built-in function, and [[object Object]] for the prototype that
    [__proto__] reads. *)
Module ObjectPrototype.

Definition nativeFunction (name : string) : string :=
  "function " +:+ name +:+ "() { [native code] }".

Definition methods : list string :=
  ["toString"; "toLocaleString"; "valueOf"; "hasOwnProperty";
   "isPrototypeOf"; "propertyIsEnumerable"; "__defineGetter__";
   "__defineSetter__"; "__lookupGetter__"; "__lookupSetter__"].

Definition inherited (key : string) : option string :=
  if String.eqb key "constructor" then Some (nativeFunction "Object")
  else if String.eqb key "__proto__" then Some "[object Object]"
  else if existsb (String.eqb key) methods then Some (nativeFunction key)
  else None.

(** [object[key]] on an object whose own members are strings. *)
Definition get (object : gmap string string) (key : string) : option string :=
  match object !! key with
  | Some v => Some v
  | None => inherited key
  end.

End ObjectPrototype.

Section Normalisation.
Variable rt : Runtime.
Variable config : Config.t.
Variable contents : Contents.t.

(** 1. the display timestamp *)
Definition dateAttr (item : Item.t) : option string :=
  JsString.orElse (Item.pubDate item)
    (JsString.orElse (Item.isoDate item)
      (JsString.orElse (Item.date item) (Item.published item))).

Definition newDate (v : option string) : number :=
  match v with
  | Some s => Date_parse rt s
  | None => NaN
  end.

Definition normaliseDate (item : Item.t) : completion Item.t :=
  Normal (Item.set_timestamp
            (Some (toLocaleDateString rt (newDate (dateAttr item)))) item).

(** [item.link.split('http').length === 1] *)
Definition lacksScheme (link : string) : bool :=
  (length (JsString.split link "http") =? 1)%nat.

(** The concatenation of the feed's link and the item's. *)
Definition joinLink (base link : string) : string :=
  if String.eqb (JsString.sliceLast base) "/"
     && String.eqb (JsString.sliceFirst link) "/"
  then base +:+ JsString.sliceFrom1 link
  else base +:+ link.

(** 2. a link without scheme is prefixed with the feed's link; reading
    the feed's link throws when the feed has none. *)
Definition absolutiseLink (item : Item.t) : completion Item.t :=
  match Item.link item with
  | Some link =>
      if JsString.truthy (Some link) && lacksScheme link then
        match Contents.link contents with
        | Some base => Normal (Item.set_link (Some (joinLink base link)) item)
        | None => Throw item
        end
      else Normal item
  | None => Normal item
  end.

(** 3. the links of a subreddit entry, read off its content *)
Definition extractReddit (item : Item.t) : completion Item.t :=
  if isRedditRSS contents
     && JsString.truthy (Item.contentSnippet item)
     && JsString.startsWith (JsString.toString (Item.contentSnippet item))
          "submitted by    "
  then
    match Item.content item with
    | None => Throw item
    | Some content =>
        let parts := JsString.split content "<a href=" in
        match parts !! 2%nat with
        | None => Throw item
        | Some contentLink =>
            match QuotesContent.match0 contentLink with
            | None => Throw item
            | Some l =>
                let item' := Item.set_link (Some l) item in
                match parts !! 3%nat with
                | None => Throw item'
                | Some commentsLink =>
                    match QuotesContent.match0 commentsLink with
                    | None => Throw item'
                    | Some c => Normal (Item.set_comments (Some c) item')
                    end
                end
            end
        end
    end
  else Normal item.

(** [tokens[tokens.length - 2]] *)
Definition secondLevelToken (hostname : string) : option string :=
  let tokens := JsString.split hostname "." in
  if (length tokens <? 2)%nat then None
  else tokens !! (length tokens - 2)%nat.

(** 4. redirects: [config.redirects[host]] is truthy for a non-empty
    replacement of the table and for an inherited member alike. *)
Definition applyRedirect (item : Item.t) : completion Item.t :=
  match Config.redirects config with
  | Some table =>
      match URL_parse rt (JsString.toString (Item.link item)) with
      | None => Throw item
      | Some url =>
          let host := secondLevelToken (URL.hostname url) in
          let redirect := ObjectPrototype.get table (JsString.toString host) in
          if JsString.truthy redirect
          then Normal (Item.set_link
                 (Some ("https://" +:+ JsString.toString redirect
                        +:+ URL.pathname url +:+ URL.search url)) item)
          else Normal item
      end
  | None => Normal item
  end.

(** The callback of [contents.items.forEach]. *)
Definition normaliseItem (item : Item.t) : completion Item.t :=
  andThen (andThen (andThen (normaliseDate item) absolutiseLink)
             extractReddit) applyRedirect.

End Normalisation.

(** The accumulators of [build] while the sources of one group are
    processed: [allItems], [errors] and [groupContents[groupName]]. *)
Record Accum : Type := mkAccum {
  accAllItems : list Item.t;
  accErrors : list string;
  accFeeds : list Contents.t
}.

(** A settled fetch: rejected with the url, or fulfilled with the url and
    the response. *)
Inductive Settled : Type :=
| Rejected (url : string)
| Fulfilled (url : string) (response : Response.t).

(** The final state handed to the template. *)
Record Output : Type := mkOutput {
  allItems : list Item.t;
  groups : list (string * list Contents.t);
  errors : list string
}.

Section Build.
Variable rt : Runtime.
Variable config : Config.t.

(** The [catch] block. *)
Definition recordError (url : string) (acc : Accum) : Accum :=
  mkAccum (accAllItems acc) (accErrors acc ++ [url]) (accFeeds acc).

(** The [try] block from the title onwards.  The feed object is pushed to
    its group before its items are normalised and is the same object the
    normalisation goes on to mutate, so the group holds it with its items
    as the loop left them, whether or not the loop completed. *)
Definition acceptContents (url : string) (contents : Contents.t) (acc : Accum)
  : Accum :=
  if emptyItemsTest (Contents.items contents) then recordError url acc
  else
    let withFeed := Contents.set_feed (Some url) contents in
    match fallbackTitle withFeed with
    | None => recordError url acc
    | Some title =>
        let titled := Contents.set_title (Some (truncateTitle title)) withFeed in
        let sorted := JsArray.sort (itemCompare rt) (Contents.items titled) in
        let loop := forEach (normaliseItem rt config titled) sorted in
        let pushed := accFeeds acc ++ [Contents.set_items (stateOf loop) titled] in
        match loop with
        | Normal items' =>
            mkAccum (accAllItems acc ++ items') (accErrors acc) pushed
        | Throw _ =>
            mkAccum (accAllItems acc) (accErrors acc ++ [url]) pushed
        end
    end.

(** The [try] block: the header, the validation and the parse.  Calling
    [split] on the [null] of an absent header throws. *)
Definition processResponse (url : string) (response : Response.t) (acc : Accum)
  : Accum :=
  match Response.contentType response with
  | None => recordError url acc
  | Some header =>
      let contentType := head (JsString.split header ";") in
      if negb (contentTypeListed contentType) && negb (isRSSExtension url)
      then recordError url acc
      else
        match parseString rt (Response.text response) with
        | None => recordError url acc
        | Some contents => acceptContents url contents acc
        end
  end.

(** The body of the loop over the settled results. *)
Definition processResult (acc : Accum) (result : Settled) : Accum :=
  match result with
  | Rejected url => recordError url acc
  | Fulfilled url response => processResponse url response acc
  end.

(** [Promise.allSettled] over the fetches of a group: every request is
    settled, in the order of the urls, before any is processed. *)
Definition settleAll (urls : list string) : list Settled :=
  map (fun url =>
         match fetch rt url with
         | Some response => Fulfilled url response
         | None => Rejected url
         end) urls.

(** The state across groups: [allItems], [errors] and the entries of
    [groupContents] in insertion order. *)
Definition processGroup
    (st : list Item.t * list string * list (string * list Contents.t))
    (group : string * list string)
  : list Item.t * list string * list (string * list Contents.t) :=
  let '(items, errs, groupContents) := st in
  let acc := fold_left processResult (settleAll (snd group))
               (mkAccum items errs []) in
  (accAllItems acc, accErrors acc, groupContents ++ [(fst group, accFeeds acc)]).

(** [build].  [feeds] lists the groups of [feeds.json] (distinct names) in
    order, each with the urls of its sources.  The write of the cache file
    and of the page are left out. *)
Definition build (feeds : list (string * list string)) (cache : Cache.t)
  : Output :=
  let '(items, errs, groupContents) :=
    fold_left processGroup feeds (default [] (Cache.allItems cache), [], []) in
  let groups := default groupContents (Cache.groups cache) in
  mkOutput
    (JsArray.sort (itemCompare rt) items)
    (map (fun g => (fst g, JsArray.sort (feedCompare rt) (snd g))) groups)
    errs.

End Build.

(** ** A runtime to run the script on

    An instance of [Runtime] for concrete runs: the network and the parser
    are finite tables, dates are read in the date-only ISO form and shown
    as the [en-US] locale does in UTC, and URLs are read in the form
    [scheme://host/path?query#fragment] with an [http] or [https] scheme.
    Outside these forms the instance reports an invalid date and a URL
    that does not parse. *)
Module Sample.

Definition digit (c : ascii) : option Z :=
  let n := Z.of_nat (nat_of_ascii c) in
  if (48 <=? n) && (n <=? 57) then Some (n - 48) else None.

Definition number2 (a b : ascii) : option Z :=
  match digit a, digit b with
  | Some x, Some y => Some (10 * x + y)
  | _, _ => None
  end.

Definition daysFromCivil (y m d : Z) : Z :=
  let y' := if m <=? 2 then y - 1 else y in
  let era := y' / 400 in
  let yoe := y' - era * 400 in
  let doy := (153 * (if 2 <? m then m - 3 else m + 9) + 2) / 5 + d - 1 in
  let doe := yoe * 365 + yoe / 4 - yoe / 100 + doy in
  era * 146097 + doe - 719468.

Definition civilFromDays (days : Z) : Z * Z * Z :=
  let z := days + 719468 in
  let era := z / 146097 in
  let doe := z - era * 146097 in
  let yoe := (doe - doe / 1460 + doe / 36524 - doe / 146096) / 365 in
  let doy := doe - (365 * yoe + yoe / 4 - yoe / 100) in
  let mp := (5 * doy + 2) / 153 in
  let d := doy - (153 * mp + 2) / 5 + 1 in
  let m := if mp <? 10 then mp + 3 else mp - 9 in
  let y := yoe + era * 400 in
  (if m <=? 2 then y + 1 else y, m, d).

Definition msPerDay : Z := 86400000.

Definition parseIsoDate (s : string) : number :=
  match s with
  | String y1 (String y2 (String y3 (String y4 (String sep1
      (String m1 (String m2 (String sep2 (String d1 (String d2
        EmptyString))))))))) =>
      if Ascii.eqb sep1 "-" && Ascii.eqb sep2 "-" then
        match number2 y1 y2, number2 y3 y4, number2 m1 m2, number2 d1 d2 with
        | Some yh, Some yl, Some m, Some d =>
            let y := 100 * yh + yl in
            let days := daysFromCivil y m d in
            if (1 <=? m) && (m <=? 12) && (1 <=? d)
               && bool_decide (civilFromDays days = (y, m, d))
            then Num (days * msPerDay)
            else NaN
        | _, _, _, _ => NaN
        end
      else NaN
  | _ => NaN
  end.

Definition localeDateString (t : number) : string :=
  match t with
  | Num ms =>
      let '(y, m, d) := civilFromDays (ms / msPerDay) in
      pretty m +:+ "/" +:+ pretty d +:+ "/" +:+ pretty y
  | NaN => "Invalid Date"
  end.

(** The longest prefix of [s] whose characters satisfy [p], and the rest. *)
Fixpoint span (p : ascii -> bool) (s : string) : string * string :=
  match s with
  | EmptyString => (EmptyString, EmptyString)
  | String c s' =>
      if p c then let '(a, b) := span p s' in (String c a, b)
      else (EmptyString, s)
  end.

Definition isOneOf (cs : list ascii) (c : ascii) : bool :=
  existsb (Ascii.eqb c) cs.

Definition afterScheme (s : string) : option string :=
  if String.prefix "https://" s then Some (String.substring 8 (String.length s - 8) s)
  else if String.prefix "http://" s then Some (String.substring 7 (String.length s - 7) s)
  else None.

Definition parseURL (s : string) : option URL.t :=
  match afterScheme s with
  | None => None
  | Some rest =>
      let '(host, rest1) :=
        span (fun c => negb (isOneOf ["/"; "?"; "#"]%char c)) rest in
      let '(path, rest2) :=
        span (fun c => negb (isOneOf ["?"; "#"]%char c)) rest1 in
      let '(query, _) := span (fun c => negb (Ascii.eqb c "#")) rest2 in
      if String.eqb host EmptyString
         || existsb (isOneOf ["@"; ":"; " "]%char) (String.list_ascii_of_string host)
      then None
      else Some (URL.mk host
                   (if String.eqb path EmptyString then "/" else path)
                   (if String.eqb query "?" then EmptyString else query))
  end.

Fixpoint assoc {V : Type} (table : list (string * V)) (key : string)
  : option V :=
  match table with
  | [] => None
  | (k, v) :: table' => if String.eqb k key then Some v else assoc table' key
  end.

(** [network] lists the urls that answer, with their responses; [documents]
    lists the bodies the parser accepts, with what it returns. *)
Definition runtime (network : list (string * Response.t))
    (documents : list (string * Contents.t)) : Runtime :=
  {| fetch := assoc network;
     parseString := assoc documents;
     Date_parse := parseIsoDate;
     toLocaleDateString := localeDateString;
     URL_parse := parseURL |}.

End Sample.

(** ** Vocabulary of the specification *)

Section Vocabulary.
Variable rt : Runtime.

(** The date of an item as the comparator reads it, when it has one that
    parses. *)
Definition itemTime (item : Item.t) : option Z :=
  match parseDate rt (Some item) with
  | Some (Num t) => Some t
  | _ => None
  end.

(** An item whose date is missing or does not parse. *)
Definition undated (item : Item.t) : bool :=
  match itemTime item with
  | Some _ => false
  | None => true
  end.

(** Descending by date over all the pairs of dated items. *)
Definition sortedByDate (l : list Item.t) : Prop :=
  forall (i j : nat) (a b : Item.t) (ta tb : Z),
    (i < j)%nat -> l !! i = Some a -> l !! j = Some b ->
    itemTime a = Some ta -> itemTime b = Some tb -> tb <= ta.

End Vocabulary.

(** ** Concrete runs *)

Module Scenario.

Definition noConfig : Config.t := Config.mk None.
Definition noCache : Cache.t := Cache.mk None None.

Definition entry (title link : string) (isoDate : option string) : Item.t :=
  Item.mk (Some title) (Some link) None isoDate None None None None None None.

Definition feedOf (title link : string) (items : list Item.t) : Contents.t :=
  Contents.mk None (Some title) None None (Some link) items None.

Definition xml (body : string) : Response.t :=
  Response.mk (Some "application/rss+xml; charset=utf-8") body.

(** One feed whose undated entry stands between an older and a newer one. *)
Definition older : Item.t := entry "older" "https://example.com/a" (Some "2020-01-01").
Definition plain : Item.t := entry "plain" "https://example.com/u" None.
Definition newer : Item.t := entry "newer" "https://example.com/b" (Some "2021-01-01").

Definition mixedRuntime : Runtime :=
  Sample.runtime
    [("https://example.com/feed", xml "mixed")]
    [("mixed", feedOf "Example" "https://example.com" [older; plain; newer])].

Definition mixedFeeds : list (string * list string) :=
  [("news", ["https://example.com/feed"])].

(** The same entries with the undated one last. *)
Definition runRuntime : Runtime :=
  Sample.runtime
    [("https://example.com/feed", xml "run")]
    [("run", feedOf "Example" "https://example.com" [older; newer; plain])].

(** An entry whose date does not parse. *)
Definition garbled : Item.t :=
  entry "garbled" "https://example.com/g" (Some "not a date").

(** An entry dated only under the [date] field. *)
Definition dateOnly : Item.t :=
  Item.mk (Some "dated") (Some "https://example.com/d") None None
    (Some "2022-05-05") None None None None None.

(** A title of 150 characters. *)
Definition longTitle : string :=
  String.concat EmptyString (replicate 15 "0123456789").

(** Sixty-four entries, as [allItems] holds them when a feed of thirty-two
    entries is followed by a feed whose thirty-two entries are all newer:
    each half is in descending order of date and has one entry without
    date, the second of the first half and the twelfth of the second. *)
Definition yearOf (i : nat) : nat :=
  if (i <? 32)%nat then (2031 - i)%nat else (2095 - i)%nat.

Definition numbered (i : nat) : Item.t :=
  entry ("entry " +:+ pretty i) "https://example.com/e"
    (if (i =? 1)%nat || (i =? 43)%nat then None
     else Some (pretty (yearOf i) +:+ "-01-01")).

Definition longItems : list Item.t := map numbered (seq 0 64).

(** A feed whose entries link to a page with [http] in its path and to a
    file served over FTP. *)
Definition cachingPost : Item.t :=
  entry "caching" "/docs/http-caching" (Some "2024-02-02").
Definition filesPost : Item.t :=
  entry "files" "ftp://files.example.com/a.txt" (Some "2024-01-01").

Definition linksRuntime : Runtime :=
  Sample.runtime
    [("https://example.com/feed", xml "links")]
    [("links", feedOf "Example" "https://example.com" [cachingPost; filesPost])].

(** The redirect table of the specification's example. *)
Definition redditTable : gmap string string := {[ "reddit" := "old.reddit.com" ]}.
Definition redirectConfig : Config.t := Config.mk (Some redditTable).
Definition redditPost : Item.t :=
  entry "post" "https://www.reddit.com/r/foo/comments/1?x=2" None.
Definition otherPost : Item.t := entry "post" "https://example.com/post/1" None.

(** A feed with an entry on a host named as a member of every object. *)
Definition constructorPost : Item.t :=
  entry "post" "https://constructor.com/post/1" (Some "2024-01-01").

Definition inheritedRuntime : Runtime :=
  Sample.runtime
    [("https://example.com/feed", xml "inherited")]
    [("inherited", feedOf "Example" "https://example.com" [constructorPost])].

(** A group of three sources: a page served as HTML, a host that does not
    answer, and a feed with one entry. *)
Definition only : Item.t := entry "only" "https://c.example/1" (Some "2023-03-03").

Definition partialRuntime : Runtime :=
  Sample.runtime
    [("https://a.example/page", Response.mk (Some "text/html; charset=utf-8") "page");
     ("https://c.example/feed", xml "single")]
    [("single", feedOf "Single" "https://c.example" [only])].


(** A response without [content-type] header, from a url with a feed
    extension. *)
Definition bare : Response.t := Response.mk None "single".

(** A feed without entries. *)
Definition emptyRuntime : Runtime :=
  Sample.runtime
    [("https://empty.example/feed", xml "empty")]
    [("empty", feedOf "Empty" "https://empty.example" [])].

Definition emptyFeeds : list (string * list string) :=
  [("news", ["https://empty.example/feed"])].

(** A subreddit feed with a link entry and with an entry whose content has
    no anchors. *)
Definition linkPost : Item.t :=
  Item.mk (Some "fine") (Some "https://www.reddit.com/r/rocq/comments/2/")
    None (Some "2024-02-02") None None
    (Some "a post") (Some "a post") None None.

Definition textPost : Item.t :=
  Item.mk (Some "broken") (Some "https://www.reddit.com/r/rocq/comments/1/")
    None (Some "2024-01-01") None None
    (Some "submitted by /u/someone") (Some "submitted by    /u/someone")
    None None.

Definition subreddit : Contents.t :=
  Contents.mk (Some "https://www.reddit.com/r/rocq/.rss") (Some "rocq") None
    None (Some "https://www.reddit.com/r/rocq/") [linkPost; textPost] None.

(** A link entry of a subreddit as the feed carries it: the anchors of the
    author, of the linked page and of the comments. *)
Definition quoted (s : string) : string :=
  String JsString.dquote s +:+ String JsString.dquote EmptyString.

Definition threadPost : Item.t :=
  Item.mk (Some "thread") (Some "https://www.reddit.com/r/rocq/comments/3/")
    None (Some "2024-03-03") None None
    (Some ("submitted by <a href=" +:+ quoted "https://www.reddit.com/user/someone"
           +:+ "> /u/someone </a> <a href=" +:+ quoted "https://rocq-prover.org/"
           +:+ ">[link]</a> <a href="
           +:+ quoted "https://www.reddit.com/r/rocq/comments/3/"
           +:+ ">[comments]</a>"))
    (Some "submitted by    /u/someone [link] [comments]")
    None None.

Definition redditRuntime : Runtime :=
  Sample.runtime
    [("https://www.reddit.com/r/rocq/.rss",
      Response.mk (Some "application/atom+xml; charset=UTF-8") "subreddit")]
    [("subreddit", subreddit)].

Definition redditFeeds : list (string * list string) :=
  [("forums", ["https://www.reddit.com/r/rocq/.rss"])].

End Scenario.

(** ** The rest of the script *)

Section Snapshot.
Variable rt : Runtime.
Variable config : Config.t.

(** [allItems], [errors] and the entries of [groupContents] when the loop
    over the groups has ended. *)
Definition collect (feeds : list (string * list string)) (cache : Cache.t)
  : list Item.t * list string * list (string * list Contents.t) :=
  fold_left (processGroup rt config) feeds
    (default [] (Cache.allItems cache), [], []).

(** What [build] writes to the cache file under [writeCache]: [groups] and
    [allItems] as they are before either is sorted. *)
Definition snapshot (feeds : list (string * list string)) (cache : Cache.t)
  : Cache.t :=
  let '(items, _, groupContents) := collect feeds cache in
  Cache.mk (Some items) (Some (default groupContents (Cache.groups cache))).

End Snapshot.

(** A file read by [readCfg]: absent, not JSON, or JSON for a value. *)
Inductive ConfigFile (A : Type) : Type :=
| Absent
| Malformed
| Holds (a : A).
Arguments Absent {A}.
Arguments Malformed {A}.
Arguments Holds {A} a.

(** A run of the script either leaves through [process.exit] or goes on. *)
Inductive Run (A : Type) : Type :=
| Exit (code : Z)
| Continue (a : A).
Arguments Exit {A} code.
Arguments Continue {A} a.

Definition runBind {A B : Type} (r : Run A) (f : A -> Run B) : Run B :=
  match r with
  | Exit code => Exit code
  | Continue a => f a
  end.

(** [readCfg]: an absent file reads as the empty object [empty], a
    malformed one ends the process with status 1. *)
Definition readCfg {A : Type} (empty : A) (file : ConfigFile A) : Run A :=
  match file with
  | Absent => Continue empty
  | Malformed => Exit 1
  | Holds a => Continue a
  end.

(** The three files the script reads. *)
Record Files : Type := mkFiles {
  configFile : ConfigFile Config.t;
  feedsFile : ConfigFile (list (string * list string));
  cacheFile : ConfigFile Cache.t
}.

Definition WRITE (argv : list string) : bool :=
  existsb (String.eqb "--write") argv.

Definition USE_CACHE (argv : list string) : bool :=
  negb (WRITE argv) && existsb (String.eqb "--cached") argv.

(** The top level of the script up to the call of [template]: the flags,
    the three reads and the call of [build].  [Exit] is the [process.exit]
    of [readCfg]; [Continue] carries what [template] is called with and,
    under [--write], what has been written to the cache file by then.  What
    [template] makes of it is not part of [main]: it returns the page, or
    throws (when there is no group, on a group without feed, on a feed
    without item or whose link is no URL), which ends the process with
    status 1 as well and without a page. *)
Definition main (rt : Runtime) (argv : list string) (files : Files)
  : Run (Output * option Cache.t) :=
  runBind (readCfg (Config.mk None) (configFile files)) (fun config =>
  runBind (if USE_CACHE argv then Continue []
           else readCfg [] (feedsFile files)) (fun feeds =>
  runBind (if USE_CACHE argv then readCfg (Cache.mk None None) (cacheFile files)
           else Continue (Cache.mk None None)) (fun cache =>
  Continue (build rt config feeds cache,
            if WRITE argv then Some (snapshot rt config feeds cache)
            else None)))).

(** ** The age of an entry in the template *)

Module Template.

Definition oneMinute : Z := 60 * 1000.
Definition oneHour : Z := oneMinute * 60.
Definition oneDay : Z := oneHour * 24.
Definition oneMonth : Z := oneDay * 30.
Definition oneYear : Z := oneDay * 365.

(** [nowmil - (new Date(isoDate)).getTime()] *)
Definition difference (rt : Runtime) (nowmil : Z) (isoDate : option string)
  : number :=
  number_sub (Num nowmil)
    match isoDate with Some s => Date_parse rt s | None => NaN end.

(** [difference >= bound]: no comparison holds of [NaN]. *)
Definition atLeast (difference : number) (bound : Z) : bool :=
  match difference with
  | Num d => bound <=? d
  | NaN => false
  end.

(** [Math.floor(difference / per) + suffix] *)
Definition count (difference : number) (per : Z) (suffix : string) : string :=
  match difference with
  | Num d => pretty (d / per) +:+ suffix
  | NaN => "NaN" +:+ suffix
  end.

(** [datestring] and [dateclass] of a feed and of an item of a feed. *)
Definition entryAge (difference : number) : string * string :=
  if atLeast difference oneYear then (count difference oneYear "Y", "age-m")
  else if atLeast difference oneMonth then (count difference oneMonth "M", "age-m")
  else if atLeast difference oneDay then (count difference oneDay "d", "age-d")
  else if atLeast difference oneHour then (count difference oneHour "h", "age-h")
  else (count difference oneMinute "m", "age-h").

(** [dateclass] of the tab of a group. *)
Definition tabClass (difference : number) : string :=
  if atLeast difference oneMonth then "age-m"
  else if atLeast difference oneDay then "age-d"
  else "age-h".

End Template.

(** ** What a source adds to the build *)

Section Contribution.
Variable rt : Runtime.
Variable config : Config.t.

Definition timestamped (item : Item.t) : Prop := Item.timestamp item <> None.

(** What normalisation leaves alone in an item. *)
Definition sameEntry (a b : Item.t) : Prop :=
  Item.title a = Item.title b
  /\ Item.pubDate a = Item.pubDate b
  /\ Item.isoDate a = Item.isoDate b
  /\ Item.date a = Item.date b
  /\ Item.published a = Item.published b
  /\ Item.content a = Item.content b
  /\ Item.contentSnippet a = Item.contentSnippet b.

(** A feed as [build] pushes it for the source [url]. *)
Definition feedOfSource (url : string) (feed : Contents.t) : Prop :=
  Contents.feed feed = Some url
  /\ (exists t, Contents.title feed = Some t /\ (String.length t <= 100)%nat)
  /\ Sorted (JsArray.ordered (itemCompare rt)) (Contents.items feed).

(** The source of a settled result. *)
Definition urlOf (result : Settled) : string :=
  match result with Rejected url => url | Fulfilled url _ => url end.

(** The items, errors and feeds added for one source. *)
Record Delta : Type := mkDelta {
  dItems : list Item.t;
  dErrors : list string;
  dFeeds : list Contents.t
}.

Definition addDelta (acc : Accum) (d : Delta) : Accum :=
  mkAccum (accAllItems acc ++ dItems d) (accErrors acc ++ dErrors d)
    (accFeeds acc ++ dFeeds d).

(** The three outcomes of a source: an error alone; a feed with all its
    items; a feed pushed and then an error. *)
Inductive contributes (url : string) : Delta -> Prop :=
| contributes_error : contributes url (mkDelta [] [url] [])
| contributes_feed (feed : Contents.t) :
    feedOfSource url feed ->
    Forall timestamped (Contents.items feed) ->
    contributes url (mkDelta (Contents.items feed) [] [feed])
| contributes_stranded (feed : Contents.t) :
    feedOfSource url feed ->
    contributes url (mkDelta [] [url] [feed]).

(** The outcomes of the sources of a group, in order. *)
Inductive groupRun : list string -> Delta -> Prop :=
| groupRun_nil : groupRun [] (mkDelta [] [] [])
| groupRun_cons (url : string) (urls : list string) (d ds : Delta) :
    contributes url d -> groupRun urls ds ->
    groupRun (url :: urls)
      (mkDelta (dItems d ++ dItems ds) (dErrors d ++ dErrors ds)
         (dFeeds d ++ dFeeds ds)).

(** The outcomes of the groups, in order. *)
Inductive buildRun : list (string * list string) -> list Item.t ->
    list string -> list (string * list Contents.t) -> Prop :=
| buildRun_nil : buildRun [] [] [] []
| buildRun_cons (name : string) (urls : list string)
    (feeds : list (string * list string)) (d : Delta)
    (items : list Item.t) (errs : list string)
    (gs : list (string * list Contents.t)) :
    groupRun urls d -> buildRun feeds items errs gs ->
    buildRun ((name, urls) :: feeds) (dItems d ++ items) (dErrors d ++ errs)
      ((name, dFeeds d) :: gs).

End Contribution.

(** ** Vocabulary of the further properties *)

(** The date of a feed as the sort of a group reads it: that of its first
    item. *)
Definition feedTime (rt : Runtime) (feed : Contents.t) : option Z :=
  match head (Contents.items feed) with
  | Some item => itemTime rt item
  | None => None
  end.

(** Descending by [time] between any two elements with no element without
    a time from the one to the other. *)
Definition descendingInRuns {A : Type} (time : A -> option Z) (l : list A)
  : Prop :=
  forall (i j : nat) (a b : A) (ta tb : Z),
    (i < j)%nat -> l !! i = Some a -> l !! j = Some b ->
    time a = Some ta -> time b = Some tb ->
    (forall k c, (i <= k <= j)%nat -> l !! k = Some c -> time c <> None) ->
    tb <= ta.

(** The feeds of all the groups, and their items. *)
Definition allFeeds (gs : list (string * list Contents.t)) : list Contents.t :=
  gs ≫= snd.

Definition allFeedItems (gs : list (string * list Contents.t)) : list Item.t :=
  allFeeds gs ≫= Contents.items.

(** A string without a double quote and without a backslash. *)
Definition quoteFree (s : string) : bool :=
  forallb (fun c => negb (Ascii.eqb c JsString.dquote)
                    && negb (Ascii.eqb c JsString.backslash))
    (String.list_ascii_of_string s).

(** A string without the character [c]. *)
Definition freeOf (c : ascii) (s : string) : bool :=
  forallb (fun d => negb (Ascii.eqb d c)) (String.list_ascii_of_string s).

(** What holds of the feeds pushed for the group [g], [errs] being the
    errors of the build. *)
Definition groupFacts (rt : Runtime) (errs : list string)
    (g : string * list string) (gf : string * list Contents.t) : Prop :=
  fst gf = fst g
  /\ Forall (fun f => exists url, url ∈ snd g /\ feedOfSource rt url f) (snd gf)
  /\ (length (snd gf) <= length (snd g))%nat
  /\ Forall (fun url => url ∈ errs
                        \/ exists f, f ∈ snd gf /\ Contents.feed f = Some url)
       (snd g).

(** The sort of the feeds of a group, as [build] applies it to [groups]. *)
Definition sortFeeds (rt : Runtime) (g : string * list Contents.t)
  : string * list Contents.t :=
  (fst g, JsArray.sort (feedCompare rt) (snd g)).

(** ** Vocabulary of the sort *)

(** [r] takes the elements of [l1] and of [l2], each in their order. *)
Inductive Interleave {A : Type} : list A -> list A -> list A -> Prop :=
| Interleave_nil : Interleave [] [] []
| Interleave_left (x : A) (l1 l2 r : list A) :
    Interleave l1 l2 r -> Interleave (x :: l1) l2 (x :: r)
| Interleave_right (x : A) (l1 l2 r : list A) :
    Interleave l1 l2 r -> Interleave l1 (x :: l2) (x :: r).

(** The last of run B may stand before the last of run A, and the first of
    run B before the first of run A: what [MergeAt] has established when it
    calls [MergeLow] or [MergeHigh]. *)
Definition lastsOrdered {A : Type} (R : A -> A -> Prop) (runA runB : list A)
  : Prop :=
  forall a b, last runA = Some a -> last runB = Some b -> R b a.

Definition firstsOrdered {A : Type} (R : A -> A -> Prop) (runA runB : list A)
  : Prop :=
  forall a b, head runA = Some a -> head runB = Some b -> R b a.

(** * Properties *)

(** ** The sort

    Four facts about the engine's sort, for any comparator unless said
    otherwise: it permutes the array ([sort_Permutation]); when the
    comparator answers [-v] to the swapped pair whenever it answers [v], no
    element ends immediately before one it is to follow ([sort_Sorted]) and
    an array in that state is left as it is ([sort_of_Sorted]); in an array
    of fewer than 64 elements, the elements that no comparison tells from
    any other keep their order ([sort_filter_short]). *)

(** *** The shape of a merge *)

Section InterleaveFacts.
Context {A : Type}.
Implicit Types l r : list A.

Lemma Interleave_nil_l l : Interleave [] l l.
Proof. induction l; constructor; assumption. Qed.

Lemma Interleave_nil_r l : Interleave l [] l.
Proof. induction l; constructor; assumption. Qed.

Lemma Interleave_app_l l l1 l2 r :
  Interleave l1 l2 r -> Interleave (l ++ l1) l2 (l ++ r).
Proof. intros H. induction l; [exact H|]. cbn. now constructor. Qed.

Lemma Interleave_app_r l l1 l2 r :
  Interleave l1 l2 r -> Interleave l1 (l ++ l2) (l ++ r).
Proof. intros H. induction l; [exact H|]. cbn. now constructor. Qed.

Lemma Interleave_take_l k l l2 r :
  Interleave (drop k l) l2 r -> Interleave l l2 (take k l ++ r).
Proof.
  intros H. rewrite <- (take_drop k l) at 1. now apply Interleave_app_l.
Qed.

Lemma Interleave_take_r k l l1 r :
  Interleave l1 (drop k l) r -> Interleave l1 l (take k l ++ r).
Proof.
  intros H. rewrite <- (take_drop k l) at 1. now apply Interleave_app_r.
Qed.

Lemma Interleave_comm_app l1 l2 : Interleave l1 l2 (l2 ++ l1).
Proof. induction l2; cbn; [apply Interleave_nil_r|now constructor]. Qed.

Lemma Interleave_app l1 l2 : Interleave l1 l2 (l1 ++ l2).
Proof. induction l1; cbn; [apply Interleave_nil_l|now constructor]. Qed.

Lemma Interleave_snoc_l x l1 l2 r :
  Interleave l1 l2 r -> Interleave (l1 ++ [x]) l2 (r ++ [x]).
Proof.
  induction 1; cbn; try (constructor; assumption).
  apply Interleave_nil_r.
Qed.

Lemma Interleave_snoc_r x l1 l2 r :
  Interleave l1 l2 r -> Interleave l1 (l2 ++ [x]) (r ++ [x]).
Proof.
  induction 1; cbn; try (constructor; assumption).
  apply Interleave_nil_l.
Qed.

Lemma Interleave_snoc_app_r l l1 l2 r :
  Interleave l1 l2 r -> Interleave l1 (l2 ++ l) (r ++ l).
Proof.
  induction 1; cbn; try (constructor; assumption).
  apply Interleave_nil_l.
Qed.

Lemma Interleave_reverse l1 l2 r :
  Interleave l1 l2 r -> Interleave (reverse l1) (reverse l2) (reverse r).
Proof.
  induction 1; rewrite ?reverse_cons.
  - constructor.
  - now apply Interleave_snoc_l.
  - now apply Interleave_snoc_r.
Qed.

Lemma Interleave_Permutation l1 l2 r : Interleave l1 l2 r -> r ≡ₚ l1 ++ l2.
Proof.
  induction 1 as [|x l1 l2 r _ IH|x l1 l2 r _ IH]; cbn.
  - reflexivity.
  - now rewrite IH.
  - rewrite IH. apply Permutation_middle.
Qed.

Lemma Interleave_head l1 l2 r tl :
  Interleave l1 l2 r ->
  head (r ++ tl) = head (l1 ++ tl) \/ head (r ++ tl) = head (l2 ++ tl).
Proof. destruct 1; cbn; auto. Qed.

End InterleaveFacts.

Create HintDb interleave.
#[local] Hint Resolve Interleave_nil_l Interleave_nil_r Interleave_comm_app
  Interleave_app : interleave.
#[local] Hint Constructors Interleave : interleave.

Lemma length_zero_nil {A : Type} (l : list A) :
  (length l =? 0)%nat = true -> l = [].
Proof. destruct l; [reflexivity|discriminate]. Qed.

Ltac shape_step :=
  match goal with
  | |- Interleave _ _ (snd (JsArray.emit _ _)) =>
      cbn [JsArray.emit snd]; constructor
  | |- Interleave _ _ (snd (JsArray.emitAll (take _ _) _)) =>
      cbn [JsArray.emitAll snd];
      first [apply Interleave_take_l | apply Interleave_take_r]
  | |- Interleave _ _ (snd (if ?c then _ else _)) => destruct c eqn:?
  | |- Interleave _ _ (snd (match ?l with [] => _ | _ :: _ => _ end)) =>
      destruct l eqn:?
  | H : _ && _ = true |- _ => apply andb_prop in H as [? ?]
  | H : (length ?l =? 0)%nat = true |- _ =>
      apply length_zero_nil in H; try rewrite H in *; try subst l
  | |- Interleave _ _ (snd (_, _)) => cbn [snd]
  end.

Section MergeShape.
Context {A : Type}.
Variable comparefn : A -> A -> number.

Local Abbreviation mergeLowLoop := (JsArray.mergeLowLoop comparefn).
Local Abbreviation mergeHighLoop := (JsArray.mergeHighLoop comparefn).

Lemma mergeLowLoop_Interleave fuel galloping minGallop winsA winsB
    (tempA runB : list A) :
  Interleave tempA runB
    (snd (mergeLowLoop fuel galloping minGallop winsA winsB tempA runB)).
Proof.
  revert galloping minGallop winsA winsB tempA runB.
  induction fuel as [|fuel IH]; intros galloping minGallop winsA winsB tempA runB.
  { cbn. auto with interleave. }
  cbn [JsArray.mergeLowLoop].
  destruct tempA as [|a tempA']; [cbn; auto with interleave|].
  destruct runB as [|b runB']; [cbn; auto with interleave|].
  destruct galloping.
  - cbv zeta.
    set (k := JsArray.gallopRight comparefn b (a :: tempA') 0). clearbody k.
    repeat shape_step; auto with interleave.
  - repeat shape_step; auto with interleave.
Qed.

Lemma mergeHighLoop_Interleave fuel galloping minGallop winsA winsB
    (runA tempB : list A) :
  Interleave runA tempB
    (snd (mergeHighLoop fuel galloping minGallop winsA winsB runA tempB)).
Proof.
  revert galloping minGallop winsA winsB runA tempB.
  induction fuel as [|fuel IH]; intros galloping minGallop winsA winsB runA tempB.
  { cbn. auto with interleave. }
  cbn [JsArray.mergeHighLoop].
  destruct runA as [|a runA']; [cbn; auto with interleave|].
  destruct tempB as [|b tempB']; [cbn; auto with interleave|].
  destruct galloping.
  - cbv zeta.
    set (k := (length (a :: runA')
               - JsArray.gallopRight comparefn b (reverse (a :: runA'))
                   (length (a :: runA') - 1))%nat).
    clearbody k.
    repeat shape_step; auto with interleave.
  - repeat shape_step; auto with interleave.
Qed.


Lemma mergeLow_Interleave minGallop (runA runB : list A) :
  Interleave runA runB (snd (JsArray.mergeLow comparefn minGallop runA runB)).
Proof.
  unfold JsArray.mergeLow. destruct runB as [|b runB']; [cbn; auto with interleave|].
  repeat shape_step; auto with interleave.
  apply mergeLowLoop_Interleave.
Qed.

Lemma mergeHigh_Interleave minGallop (runA runB : list A) :
  Interleave runA runB (snd (JsArray.mergeHigh comparefn minGallop runA runB)).
Proof.
  unfold JsArray.mergeHigh. cbn [snd].
  rewrite <- (reverse_involutive runA) at 1.
  rewrite <- (reverse_involutive runB) at 1.
  apply Interleave_reverse.
  destruct (reverse runA) as [|a runA']; [cbn; auto with interleave|].
  repeat shape_step; auto with interleave.
  apply mergeHighLoop_Interleave.
Qed.

Lemma mergeAt_Interleave minGallop (runA runB : list A) :
  Interleave runA runB (snd (JsArray.mergeAt comparefn minGallop runA runB)).
Proof.
  unfold JsArray.mergeAt. destruct runB as [|keyRight runB']; [cbn; auto with interleave|].
  cbv zeta. shape_step.
  destruct (last _) eqn:Hlast; cbn [snd].
  2:{ apply last_None in Hlast. rewrite Hlast. auto with interleave. }
  set (lengthB := JsArray.gallopLeft _ _ _ _). clearbody lengthB.
  rewrite <- (take_drop lengthB (keyRight :: runB')) at 1.
  apply Interleave_snoc_app_r.
  destruct (lengthB =? 0)%nat eqn:Hzero.
  { apply Nat.eqb_eq in Hzero. subst lengthB. cbn. auto with interleave. }
  destruct (_ <=? _)%nat; auto using mergeLow_Interleave, mergeHigh_Interleave.
Qed.

End MergeShape.

(** *** The sort permutes the array *)

Section SortPermutation.
Context {A : Type}.
Variable comparefn : A -> A -> number.
Local Open Scope nat_scope.

Lemma mergeAt_Permutation minGallop (runA runB : list A) :
  snd (JsArray.mergeAt comparefn minGallop runA runB) ≡ₚ runA ++ runB.
Proof. apply Interleave_Permutation, mergeAt_Interleave. Qed.

Lemma runTail_le isDescending (previous : A) (rest : list A) :
  JsArray.runTail comparefn isDescending previous rest <= length rest.
Proof.
  revert previous. induction rest as [|current rest IH]; intros previous; cbn.
  - lia.
  - destruct (Bool.eqb _ _); [|lia]. specialize (IH current). lia.
Qed.

Lemma countAndMakeRun_length (l : list A) :
  l <> [] ->
  1 <= fst (JsArray.countAndMakeRun comparefn l) <= length l
  /\ length (snd (JsArray.countAndMakeRun comparefn l)) = length l.
Proof.
  intros Hl. destruct l as [|x [|y rest]]; [done|cbn; lia|].
  cbn [JsArray.countAndMakeRun fst snd].
  pose proof (runTail_le (JsArray.less comparefn y x) y rest) as Hle.
  split; [cbn [length]; lia|].
  destruct (JsArray.less comparefn y x); [|reflexivity].
  rewrite length_app, length_reverse, length_take, length_drop. lia.
Qed.

Lemma countAndMakeRun_Permutation (l : list A) :
  snd (JsArray.countAndMakeRun comparefn l) ≡ₚ l.
Proof.
  destruct l as [|x [|y rest]]; [reflexivity..|].
  cbn [JsArray.countAndMakeRun fst snd].
  destruct (JsArray.less comparefn y x); [|reflexivity].
  rewrite reverse_Permutation. now rewrite take_drop.
Qed.

Lemma insertPivot_Permutation (sorted : list A) (pivot : A) :
  JsArray.insertPivot comparefn sorted pivot ≡ₚ sorted ++ [pivot].
Proof.
  unfold JsArray.insertPivot. cbv zeta.
  set (left := fst _). clearbody left.
  rewrite <- Permutation_middle, take_drop. apply Permutation_cons_append.
Qed.

Lemma binaryInsertionSort_Permutation (sorted rest : list A) :
  JsArray.binaryInsertionSort comparefn sorted rest ≡ₚ sorted ++ rest.
Proof.
  unfold JsArray.binaryInsertionSort. revert sorted.
  induction rest as [|pivot rest IH]; intros sorted; cbn [fold_left].
  - now rewrite app_nil_r.
  - rewrite IH, insertPivot_Permutation. now rewrite <- app_assoc.
Qed.

Lemma nextRun_Permutation minRunLength (rest : list A) :
  rest <> [] ->
  fst (JsArray.nextRun comparefn minRunLength rest)
    ++ snd (JsArray.nextRun comparefn minRunLength rest) ≡ₚ rest.
Proof.
  intros Hrest. unfold JsArray.nextRun.
  pose proof (countAndMakeRun_length rest Hrest) as [Hrun Hlen].
  pose proof (countAndMakeRun_Permutation rest) as Hperm.
  destruct (JsArray.countAndMakeRun comparefn rest) as [n array].
  cbn [fst snd] in *.
  destruct (n <? minRunLength) eqn:Hshort; cbn [fst snd].
  - apply Nat.ltb_lt in Hshort.
    rewrite binaryInsertionSort_Permutation, <- app_assoc.
    rewrite (app_assoc (take n array)), take_take_drop.
    replace (n + (Nat.min minRunLength (length rest) - n))
      with (Nat.min minRunLength (length rest)) by lia.
    now rewrite take_drop.
  - now rewrite take_drop.
Qed.

Lemma nextRun_shorter minRunLength (rest : list A) :
  rest <> [] ->
  length (snd (JsArray.nextRun comparefn minRunLength rest)) < length rest.
Proof.
  intros Hrest. unfold JsArray.nextRun.
  pose proof (countAndMakeRun_length rest Hrest) as [Hrun Hlen].
  destruct (JsArray.countAndMakeRun comparefn rest) as [n array].
  cbn [fst snd] in *.
  destruct (n <? minRunLength) eqn:Hshort; cbn [fst snd];
    rewrite length_drop; [apply Nat.ltb_lt in Hshort|]; lia.
Qed.

Lemma mergeCollapse_Permutation fuel (state : JsArray.SortState) :
  concat (snd (JsArray.mergeCollapse comparefn fuel state)) ≡ₚ concat (snd state).
Proof.
  revert state. induction fuel as [|fuel IH]; intros [minGallop stack];
    [reflexivity|].
  cbn [JsArray.mergeCollapse snd fst].
  destruct stack as [|x [|y below]]; [reflexivity..|].
  assert (Hxy : concat (snd (JsArray.mergeCollapse comparefn fuel
                   (JsArray.mergeInto comparefn minGallop y x below)))
                ≡ₚ concat (x :: y :: below)).
  { rewrite IH. cbn. rewrite mergeAt_Permutation, <- app_assoc.
    rewrite !app_assoc. f_equiv. apply Permutation_app_comm. }
  destruct (negb _ || negb _).
  - destruct below as [|z below']; [exact Hxy|].
    destruct (length z <? length x); [|exact Hxy].
    rewrite IH. cbn. rewrite mergeAt_Permutation, <- app_assoc.
    f_equiv. rewrite !app_assoc. f_equiv. apply Permutation_app_comm.
  - destruct (length y <=? length x); [exact Hxy|reflexivity].
Qed.

Lemma mergeForceCollapse_Permutation fuel (state : JsArray.SortState) :
  concat (snd (JsArray.mergeForceCollapse comparefn fuel state))
  ≡ₚ concat (snd state).
Proof.
  revert state. induction fuel as [|fuel IH]; intros [minGallop stack];
    [reflexivity|].
  cbn [JsArray.mergeForceCollapse snd fst].
  destruct stack as [|x [|y below]]; [reflexivity..|].
  assert (Hxy : concat (snd (JsArray.mergeForceCollapse comparefn fuel
                   (JsArray.mergeInto comparefn minGallop y x below)))
                ≡ₚ concat (x :: y :: below)).
  { rewrite IH. cbn. rewrite mergeAt_Permutation, <- app_assoc.
    rewrite !app_assoc. f_equiv. apply Permutation_app_comm. }
  destruct below as [|z below']; [exact Hxy|].
  destruct (length z <? length x); [|exact Hxy].
  rewrite IH. cbn. rewrite mergeAt_Permutation, <- app_assoc.
  f_equiv. rewrite !app_assoc. f_equiv. apply Permutation_app_comm.
Qed.

Lemma sortLoop_Permutation fuel minRunLength (state : JsArray.SortState)
    (rest : list A) :
  length rest <= fuel ->
  concat (snd (JsArray.sortLoop comparefn fuel minRunLength state rest))
  ≡ₚ concat (snd state) ++ rest.
Proof.
  revert state rest. induction fuel as [|fuel IH]; intros state rest Hfuel.
  { destruct rest; [|cbn in Hfuel; lia]. cbn. now rewrite app_nil_r. }
  cbn [JsArray.sortLoop]. destruct rest as [|x rest'] eqn:Hrest.
  { now rewrite app_nil_r. }
  rewrite <- Hrest in *.
  assert (Hne : rest <> []) by now rewrite Hrest.
  pose proof (nextRun_Permutation minRunLength rest Hne) as Hperm.
  pose proof (nextRun_shorter minRunLength rest Hne) as Hshorter.
  destruct (JsArray.nextRun comparefn minRunLength rest) as [run rest''].
  cbn [fst snd] in *.
  rewrite IH by lia. rewrite mergeCollapse_Permutation. cbn [snd concat].
  rewrite <- Hperm. rewrite !app_assoc. f_equiv. apply Permutation_app_comm.
Qed.

Lemma concat_reverse_Permutation (ls : list (list A)) :
  concat (reverse ls) ≡ₚ concat ls.
Proof.
  induction ls as [|l ls IH]; [reflexivity|].
  rewrite reverse_cons, concat_app. cbn. rewrite app_nil_r, IH.
  apply Permutation_app_comm.
Qed.

Lemma sort_Permutation (l : list A) : JsArray.sort comparefn l ≡ₚ l.
Proof.
  unfold JsArray.sort. destruct l as [|x [|y l']]; [reflexivity..|].
  cbv zeta. rewrite concat_reverse_Permutation, mergeForceCollapse_Permutation.
  now rewrite sortLoop_Permutation.
Qed.

End SortPermutation.

(** *** Neighbours in order *)

Section SortedFacts.
Context {A : Type}.
Variable R : A -> A -> Prop.
Implicit Types l r : list A.

Lemma Sorted_app_inv l1 l2 :
  Sorted R (l1 ++ l2) ->
  Sorted R l1 /\ Sorted R l2
  /\ (forall x y, last l1 = Some x -> head l2 = Some y -> R x y).
Proof.
  induction l1 as [|a l1 IH]; cbn [app]; intros H.
  { split; [constructor|]. split; [exact H|]. intros x y Hx. discriminate. }
  apply Sorted_inv in H as [Hs Hhd]. destruct (IH Hs) as (H1 & H2 & Hseam).
  split; [|split; [exact H2|]].
  - constructor; [exact H1|]. destruct l1; [constructor|].
    inversion Hhd. now constructor.
  - intros x y Hx Hy. destruct l1 as [|b l1].
    + cbn in Hx. injection Hx as <-. destruct l2; [discriminate|].
      cbn in Hy. injection Hy as <-. now inversion Hhd.
    + apply Hseam; [exact Hx|exact Hy].
Qed.

Lemma Sorted_app_intro l1 l2 :
  Sorted R l1 -> Sorted R l2 ->
  (forall x y, last l1 = Some x -> head l2 = Some y -> R x y) ->
  Sorted R (l1 ++ l2).
Proof.
  intros H1 H2 Hseam. induction H1 as [|a l1 H1 IH Hhd]; [exact H2|].
  cbn [app]. constructor.
  - apply IH. intros x y Hx. apply Hseam. destruct l1; [discriminate|exact Hx].
  - destruct Hhd as [|b l1 Hab]; cbn [app]; [|now constructor].
    destruct l2 as [|y l2]; constructor. now apply Hseam.
Qed.

Lemma Sorted_take k l : Sorted R l -> Sorted R (take k l).
Proof. intros H. rewrite <- (take_drop k l) in H. now apply Sorted_app_inv in H. Qed.

Lemma Sorted_drop k l : Sorted R l -> Sorted R (drop k l).
Proof. intros H. rewrite <- (take_drop k l) in H. now apply Sorted_app_inv in H. Qed.

Lemma Sorted_take_drop k l x y :
  Sorted R l -> last (take k l) = Some x -> head (drop k l) = Some y -> R x y.
Proof.
  intros H. rewrite <- (take_drop k l) in H. apply Sorted_app_inv in H.
  apply H.
Qed.

Lemma HdRel_head x l : (forall y, head l = Some y -> R x y) -> HdRel R x l.
Proof. destruct l; constructor. now apply H. Qed.

Lemma HdRel_Interleave x l1 l2 r :
  Interleave l1 l2 r -> HdRel R x l1 -> HdRel R x l2 -> HdRel R x r.
Proof.
  destruct 1; intros H1 H2; [constructor|..]; constructor.
  - now inversion H1.
  - now inversion H2.
Qed.

Lemma Sorted_cons_Interleave x l1 l2 r :
  Interleave l1 l2 r -> HdRel R x l1 -> HdRel R x l2 -> Sorted R r ->
  Sorted R (x :: r).
Proof. intros Hr H1 H2 Hs. constructor; [exact Hs|]. now apply (HdRel_Interleave x l1 l2). Qed.

Lemma Sorted_app_Interleave chunk l1 l2 r :
  Interleave l1 l2 r -> Sorted R chunk ->
  (forall x, last chunk = Some x -> HdRel R x l1 /\ HdRel R x l2) ->
  Sorted R r -> Sorted R (chunk ++ r).
Proof.
  intros Hr Hchunk Hseam Hs. apply Sorted_app_intro; [exact Hchunk|exact Hs|].
  intros x y Hx Hy. destruct (Hseam x Hx) as [H1 H2].
  pose proof (HdRel_Interleave x l1 l2 r Hr H1 H2) as Hhd.
  destruct r; [discriminate|]. cbn in Hy. injection Hy as <-. now inversion Hhd.
Qed.

Lemma last_cons_Some x l a : last l = Some a -> last (x :: l) = Some a.
Proof. destruct l; [discriminate|]. auto. Qed.

Lemma last_drop_Some k l a : last (drop k l) = Some a -> last l = Some a.
Proof.
  revert k. induction l as [|x l IH]; intros k; destruct k; cbn [drop]; auto.
  - intros H. apply last_cons_Some. now apply (IH k).
Qed.

Lemma Interleave_last l1 l2 r :
  Interleave l1 l2 r -> last r = last l1 \/ last r = last l2.
Proof.
  intros H. apply Interleave_reverse in H.
  destruct (Interleave_head _ _ _ [] H) as [Heq|Heq];
    rewrite !app_nil_r, !head_reverse in Heq; auto.
Qed.

End SortedFacts.

(** *** What the searches find *)

Section Searches.
Local Open Scope nat_scope.

Lemma half_lt n : 0 < n -> n / 2 < n.
Proof. intros H. apply Nat.div_lt; lia. Qed.

Lemma bisect_spec (P : nat -> bool) (len fuel left right : nat) :
  left <= right -> right - left <= fuel ->
  (left = 0 \/ P (left - 1) = true) ->
  (right = len \/ P right = false) ->
  let r := JsArray.bisect P fuel left right in
  fst r = snd r /\ left <= fst r <= right
  /\ (fst r = 0 \/ P (fst r - 1) = true)
  /\ (fst r = len \/ P (fst r) = false).
Proof.
  revert left right. induction fuel as [|fuel IH]; intros left right Hle Hfuel Hlo Hhi.
  { cbn. assert (left = right) as -> by lia. auto with lia. }
  cbn [JsArray.bisect]. destruct (left <? right) eqn:Hlt.
  2:{ apply Nat.ltb_ge in Hlt. cbn. assert (left = right) as -> by lia.
      auto with lia. }
  apply Nat.ltb_lt in Hlt. cbv zeta.
  pose proof (half_lt (right - left)) as Hhalf.
  destruct (P (left + (right - left) / 2)) eqn:Hmid.
  - destruct (IH (S (left + (right - left) / 2)) right) as (H1 & H2 & H3 & H4);
      [lia|lia| |exact Hhi|].
    + right. now rewrite Nat.sub_1_r.
    + cbv zeta. repeat split; auto; lia.
  - destruct (IH left (left + (right - left) / 2)) as (H1 & H2 & H3 & H4);
      [lia|lia|exact Hlo|now right|].
    cbv zeta. repeat split; auto; lia.
Qed.

Lemma gallopLoop_spec (continue : nat -> bool) (fuel lastOfs offset maxOfs : nat) :
  lastOfs < offset -> maxOfs < fuel + offset ->
  let r := JsArray.gallopLoop continue fuel lastOfs offset maxOfs in
  fst r < snd r
  /\ (fst r = lastOfs \/ continue (fst r) = true /\ fst r < maxOfs)
  /\ (maxOfs <= snd r \/ continue (snd r) = false).
Proof.
  revert lastOfs offset. induction fuel as [|fuel IH]; intros lastOfs offset Hlt Hfuel.
  { cbn. auto with lia. }
  cbn [JsArray.gallopLoop]. destruct (offset <? maxOfs) eqn:Hin; cbn [andb].
  2:{ apply Nat.ltb_ge in Hin. cbn. auto with lia. }
  apply Nat.ltb_lt in Hin. destruct (continue offset) eqn:Hgo.
  2:{ cbn. auto with lia. }
  destruct (IH offset (2 * offset + 1)) as (H1 & H2 & H3); [lia|lia|].
  cbv zeta. split; [exact H1|]. split; [|exact H3].
  right. destruct H2 as [->|H2]; auto.
Qed.

Lemma gallop_spec (P : nat -> bool) (len hint : nat) :
  hint < len ->
  let k := JsArray.gallop P len hint in
  k <= len /\ (k = 0 \/ P (k - 1) = true) /\ (k = len \/ P k = false).
Proof.
  intros Hhint. unfold JsArray.gallop. destruct (P hint) eqn:Hhere.
  - cbv zeta.
    pose proof (gallopLoop_spec (fun ofs => P (hint + ofs)) (len - hint) 0 1
                  (len - hint)) as Hloop.
    destruct (JsArray.gallopLoop _ _ _ _ _) as [lastOfs offset].
    cbn [fst snd] in Hloop. destruct Hloop as (H1 & H2 & H3); [lia|lia|].
    pose proof (bisect_spec P len
                  (Nat.min offset (len - hint) + hint - S (lastOfs + hint))
                  (S (lastOfs + hint)) (Nat.min offset (len - hint) + hint))
      as Hbis.
    destruct (JsArray.bisect _ _ _ _) as [left right]. cbn [fst snd] in *.
    destruct Hbis as (-> & Hb2 & Hb3 & Hb4).
    + destruct H2 as [->|[_ H2]]; lia.
    + lia.
    + right. cbn. rewrite Nat.sub_0_r.
      destruct H2 as [->|[H2 _]]; [now rewrite Nat.add_0_l|].
      now rewrite Nat.add_comm.
    + destruct H3 as [H3|H3].
      * left. lia.
      * destruct (Nat.le_gt_cases (len - hint) offset); [left; lia|].
        right. rewrite Nat.min_l by lia. now rewrite Nat.add_comm.
    + repeat split; auto; lia.
  - cbv zeta.
    pose proof (gallopLoop_spec (fun ofs => negb (P (hint - ofs))) (hint + 1) 0 1
                  (hint + 1)) as Hloop.
    destruct (JsArray.gallopLoop _ _ _ _ _) as [lastOfs offset].
    cbn [fst snd] in Hloop. destruct Hloop as (H1 & H2 & H3); [lia|lia|].
    assert (HlastOfs : lastOfs <= hint /\ P (hint - lastOfs) = false).
    { destruct H2 as [->|[H2 ?]].
      - rewrite Nat.sub_0_r. auto with lia.
      - apply negb_true_iff in H2. auto with lia. }
    pose proof (bisect_spec P len
                  (hint - lastOfs - (S hint - Nat.min offset (hint + 1)))
                  (S hint - Nat.min offset (hint + 1)) (hint - lastOfs))
      as Hbis.
    destruct (JsArray.bisect _ _ _ _) as [left right]. cbn [fst snd] in *.
    destruct Hbis as (-> & Hb2 & Hb3 & Hb4).
    + lia.
    + lia.
    + destruct H3 as [H3|H3].
      * left. lia.
      * destruct (Nat.le_gt_cases (hint + 1) offset); [left; lia|].
        right. rewrite Nat.min_l by lia. apply negb_false_iff in H3.
        replace (S hint - offset - 1) with (hint - offset) by lia. exact H3.
    + right. apply HlastOfs.
    + repeat split; auto; lia.
Qed.

Context {A : Type}.

Lemma last_take_lookup (k : nat) (l : list A) :
  0 < k <= length l -> last (take k l) = l !! (k - 1).
Proof.
  intros Hk. rewrite last_lookup, length_take, Nat.min_l by lia.
  rewrite lookup_take_lt by lia. f_equal. lia.
Qed.

Lemma head_drop_lookup (k : nat) (l : list A) : head (drop k l) = l !! k.
Proof. rewrite head_lookup, lookup_drop. f_equal. lia. Qed.

Lemma probe_split (test : A -> bool) (array : list A) (k : nat) :
  k <= length array ->
  k = 0 \/ JsArray.probe array test (k - 1) = true ->
  k = length array \/ JsArray.probe array test k = false ->
  (forall x, last (take k array) = Some x -> test x = true)
  /\ (forall y, head (drop k array) = Some y -> test y = false).
Proof.
  intros Hk Hlo Hhi. split.
  - intros x Hx. destruct Hlo as [Hlo|Hlo].
    + rewrite Hlo in Hx. discriminate.
    + destruct (Nat.eq_dec k 0) as [Hz|Hz].
      { rewrite Hz in Hx. discriminate. }
      rewrite last_take_lookup in Hx by lia.
      unfold JsArray.probe in Hlo. now rewrite Hx in Hlo.
  - intros y Hy. rewrite head_drop_lookup in Hy. destruct Hhi as [Hhi|Hhi].
    + rewrite Hhi in Hy. apply lookup_lt_Some in Hy. lia.
    + unfold JsArray.probe in Hhi. now rewrite Hy in Hhi.
Qed.

Lemma gallop_probe (test : A -> bool) (array : list A) (hint : nat) :
  hint < length array ->
  let k := JsArray.gallop (JsArray.probe array test) (length array) hint in
  k <= length array
  /\ (forall x, last (take k array) = Some x -> test x = true)
  /\ (forall y, head (drop k array) = Some y -> test y = false).
Proof.
  intros Hhint.
  destruct (gallop_spec (JsArray.probe array test) (length array) hint Hhint)
    as (Hk & Hlo & Hhi).
  cbv zeta. split; [exact Hk|]. now apply probe_split.
Qed.

(** The same search from the right end, read on the array held last
    element first. *)
Lemma gallop_probe_reverse (test : A -> bool) (l : list A) :
  l <> [] ->
  let wins :=
    length l
    - JsArray.gallop (JsArray.probe (reverse l) test) (length (reverse l))
        (length l - 1) in
  (forall x, head (drop wins l) = Some x -> test x = true)
  /\ (forall y, last (take wins l) = Some y -> test y = false).
Proof.
  intros Hl. assert (Hlen : 0 < length l) by (destruct l; [done|cbn; lia]).
  destruct (gallop_probe test (reverse l) (length l - 1)) as (Hk & Hlo & Hhi).
  { rewrite length_reverse. lia. }
  cbv zeta. rewrite length_reverse in *.
  set (k := JsArray.gallop _ _ _) in *. clearbody k.
  split.
  - intros x Hx. apply Hlo.
    rewrite take_reverse, last_reverse. exact Hx.
  - intros y Hy. apply Hhi.
    rewrite drop_reverse, head_reverse. exact Hy.
Qed.

End Searches.

(** *** The runs and their merges are in order *)

Section SortSorted.
Context {A : Type}.
Variable comparefn : A -> A -> number.
Hypothesis compare_flip :
  forall a b, JsArray.sortCompare comparefn a b
              = - JsArray.sortCompare comparefn b a.

Local Abbreviation less := (JsArray.less comparefn).
Local Abbreviation ordered := (JsArray.ordered comparefn).

Lemma less_ordered (x y : A) : less x y = true -> ordered x y.
Proof.
  unfold JsArray.less, JsArray.ordered, JsArray.mustFollow. lia.
Qed.

Lemma not_less_ordered (x y : A) : less x y = false -> ordered y x.
Proof.
  unfold JsArray.less, JsArray.ordered, JsArray.mustFollow.
  rewrite (compare_flip y x). lia.
Qed.

Local Open Scope nat_scope.

(** What [GallopRight] and [GallopLeft] find, from the left end. *)
Lemma gallopRight_0 (key : A) (array : list A) :
  array <> [] ->
  let k := JsArray.gallopRight comparefn key array 0 in
  (forall x, last (take k array) = Some x -> ordered x key)
  /\ (forall y, head (drop k array) = Some y -> ordered key y).
Proof.
  intros Harray.
  destruct (gallop_probe (fun y => negb (less key y)) array 0) as (_ & Hlo & Hhi).
  { destruct array; [done|cbn; lia]. }
  split.
  - intros x Hx. apply not_less_ordered, negb_true_iff, Hlo, Hx.
  - intros y Hy. apply less_ordered, negb_false_iff, Hhi, Hy.
Qed.

Lemma gallopLeft_0 (key : A) (array : list A) :
  array <> [] ->
  let k := JsArray.gallopLeft comparefn key array 0 in
  (forall x, last (take k array) = Some x -> ordered x key)
  /\ (forall y, head (drop k array) = Some y -> ordered key y).
Proof.
  intros Harray.
  destruct (gallop_probe (fun y => less y key) array 0) as (_ & Hlo & Hhi).
  { destruct array; [done|cbn; lia]. }
  split.
  - intros x Hx. apply less_ordered, Hlo, Hx.
  - intros y Hy. apply not_less_ordered, Hhi, Hy.
Qed.

Lemma gallopLeft_last (key : A) (array : list A) :
  array <> [] ->
  let k := JsArray.gallopLeft comparefn key array (length array - 1) in
  (forall x, last (take k array) = Some x -> ordered x key)
  /\ (forall y, head (drop k array) = Some y -> ordered key y).
Proof.
  intros Harray.
  destruct (gallop_probe (fun y => less y key) array (length array - 1))
    as (_ & Hlo & Hhi).
  { destruct array; [done|cbn; lia]. }
  split.
  - intros x Hx. apply less_ordered, Hlo, Hx.
  - intros y Hy. apply not_less_ordered, Hhi, Hy.
Qed.

(** The same from the right end, on a run held last element first. *)
Lemma gallopRight_reverse (key : A) (run : list A) :
  run <> [] ->
  let wins :=
    length run
    - JsArray.gallopRight comparefn key (reverse run) (length run - 1) in
  (forall x, head (drop wins run) = Some x -> ordered x key)
  /\ (forall y, last (take wins run) = Some y -> ordered key y).
Proof.
  intros Hrun.
  destruct (gallop_probe_reverse (fun y => negb (less key y)) run Hrun)
    as (Hlo & Hhi).
  split.
  - intros x Hx. apply not_less_ordered, negb_true_iff, Hlo, Hx.
  - intros y Hy. apply less_ordered, negb_false_iff, Hhi, Hy.
Qed.

Lemma gallopLeft_reverse (key : A) (run : list A) :
  run <> [] ->
  let wins :=
    length run
    - JsArray.gallopLeft comparefn key (reverse run) (length run - 1) in
  (forall x, head (drop wins run) = Some x -> ordered x key)
  /\ (forall y, last (take wins run) = Some y -> ordered key y).
Proof.
  intros Hrun.
  destruct (gallop_probe_reverse (fun y => less y key) run Hrun) as (Hlo & Hhi).
  split.
  - intros x Hx. apply less_ordered, Hlo, Hx.
  - intros y Hy. apply not_less_ordered, Hhi, Hy.
Qed.

Local Abbreviation mergeLowLoop := (JsArray.mergeLowLoop comparefn).
Local Abbreviation mergeHighLoop := (JsArray.mergeHighLoop comparefn).

Lemma lastsOrdered_suffix (R : A -> A -> Prop) (runA runB runA' runB' : list A) :
  lastsOrdered R runA runB ->
  (forall x, last runA' = Some x -> last runA = Some x) ->
  (forall x, last runB' = Some x -> last runB = Some x) ->
  lastsOrdered R runA' runB'.
Proof. intros H HA HB a b Ha Hb. apply H; auto. Qed.

Lemma copy_Sorted (R : A -> A -> Prop) (run rest : list A) :
  Sorted R run -> length rest = 1 -> lastsOrdered R rest run ->
  Sorted R (run ++ rest).
Proof.
  intros Hrun Hlen Hlast. destruct rest as [|a [|? ?]]; try discriminate.
  apply Sorted_app_intro; [exact Hrun|repeat constructor|].
  intros x y Hx [= <-]. now apply Hlast.
Qed.

Ltac shape :=
  repeat shape_step;
  auto using mergeLowLoop_Interleave, mergeHighLoop_Interleave with interleave.

Lemma mergeLowLoop_Sorted fuel galloping minGallop winsA winsB
    (tempA runB : list A) :
  length tempA + length runB <= fuel ->
  Sorted ordered tempA -> Sorted ordered runB ->
  lastsOrdered ordered tempA runB ->
  Sorted ordered
    (snd (mergeLowLoop fuel galloping minGallop winsA winsB tempA runB)).
Proof.
  revert galloping minGallop winsA winsB tempA runB.
  induction fuel as [|fuel IH];
    intros galloping minGallop winsA winsB tempA runB Hfuel HA HB Hlast.
  { destruct tempA, runB; cbn in *; try lia. constructor. }
  cbn [JsArray.mergeLowLoop].
  destruct tempA as [|a tempA']; [exact HB|].
  destruct runB as [|b runB']; [cbn; now rewrite app_nil_r|].
  pose proof (Sorted_inv HA) as [HA' HaA].
  pose proof (Sorted_inv HB) as [HB' HbB].
  destruct galloping.
  - cbv zeta.
    destruct (gallopRight_0 b (a :: tempA')) as [Hlo Hhi]; [done|].
    set (k := JsArray.gallopRight comparefn b (a :: tempA') 0) in *.
    clearbody k.
    pose proof (Sorted_drop ordered k _ HA) as HA1.
    pose proof (fun x y => Sorted_take_drop ordered k _ x y HA) as Hseam.
    pose proof (last_drop_Some k (a :: tempA')) as Hlast1.
    assert (Hlen1 : length (drop k (a :: tempA')) <= length (a :: tempA'))
      by (rewrite length_drop; lia).
    remember (drop k (a :: tempA')) as tempA1 eqn:HtempA1.
    cbn [JsArray.emitAll snd].
    apply (Sorted_app_Interleave ordered _ tempA1 (b :: runB')).
    { shape. }
    { apply Sorted_take, HA. }
    { intros x Hx. split; [apply HdRel_head; intros y; now apply Hseam|].
      constructor. now apply Hlo. }
    destruct ((0 <? k) && (length tempA1 =? 1)) eqn:Hone; cbn [snd].
    { apply andb_prop in Hone as [_ Hone]. apply Nat.eqb_eq in Hone.
      apply copy_Sorted; [exact HB|exact Hone|].
      apply (lastsOrdered_suffix _ _ _ _ _ Hlast); auto. }
    destruct ((0 <? k) && (length tempA1 =? 0)); cbn [snd]; [exact HB|].
    cbn [JsArray.emit snd].
    apply (Sorted_cons_Interleave ordered b tempA1 runB').
    { shape. }
    { now apply HdRel_head. }
    { exact HbB. }
    destruct (length runB' =? 0) eqn:HB0; cbn [snd]; [exact HA1|].
    destruct tempA1 as [|a1 tempA2]; cbn [snd]; [exact HB'|].
    pose proof (Sorted_inv HA1) as [HA2 Ha1].
    destruct (gallopLeft_0 a1 runB') as [Hlo' Hhi'].
    { destruct runB'; [discriminate|done]. }
    set (k' := JsArray.gallopLeft comparefn a1 runB' 0) in *. clearbody k'.
    pose proof (Sorted_drop ordered k' _ HB') as HB2.
    pose proof (fun x y => Sorted_take_drop ordered k' _ x y HB') as Hseam'.
    pose proof (last_drop_Some k' runB') as Hlast2.
    assert (Hlen2 : length (drop k' runB') <= length runB')
      by (rewrite length_drop; lia).
    remember (drop k' runB') as runB2 eqn:HrunB2.
    cbn [JsArray.emitAll snd].
    apply (Sorted_app_Interleave ordered _ (a1 :: tempA2) runB2).
    { shape. }
    { apply Sorted_take, HB'. }
    { intros x Hx. split; [constructor; now apply Hlo'|].
      apply HdRel_head. intros y. now apply Hseam'. }
    destruct ((0 <? k') && (length runB2 =? 0)); cbn [snd]; [exact HA1|].
    cbn [JsArray.emit snd].
    apply (Sorted_cons_Interleave ordered a1 tempA2 runB2).
    { shape. }
    { exact Ha1. }
    { now apply HdRel_head. }
    assert (Hlast' : lastsOrdered ordered tempA2 runB2).
    { apply (lastsOrdered_suffix _ _ _ _ _ Hlast).
      - intros x Hx. apply Hlast1. now apply last_cons_Some.
      - intros x Hx. apply last_cons_Some. now apply Hlast2. }
    destruct (length tempA2 =? 1) eqn:Hone'; cbn [snd].
    { apply Nat.eqb_eq in Hone'. now apply copy_Sorted. }
    cbn [length] in *.
    destruct (_ || _); apply IH; auto; lia.
  - destruct (less b a) eqn:Hless.
    + cbn [JsArray.emit snd].
      apply (Sorted_cons_Interleave ordered b (a :: tempA') runB').
      { shape. }
      { constructor. now apply less_ordered. }
      { exact HbB. }
      assert (Hlast' : lastsOrdered ordered (a :: tempA') runB').
      { apply (lastsOrdered_suffix _ _ _ _ _ Hlast); auto.
        intros x. apply last_cons_Some. }
      cbn [length] in *.
      destruct (length runB' =? 0); cbn [snd]; [exact HA|].
      destruct (minGallop <=? S winsB); apply IH; auto; cbn [length]; lia.
    + cbn [JsArray.emit snd].
      apply (Sorted_cons_Interleave ordered a tempA' (b :: runB')).
      { shape. }
      { exact HaA. }
      { constructor. now apply not_less_ordered. }
      assert (Hlast' : lastsOrdered ordered tempA' (b :: runB')).
      { apply (lastsOrdered_suffix _ _ _ _ _ Hlast); auto.
        intros x. apply last_cons_Some. }
      cbn [length] in *.
      destruct (length tempA' =? 1) eqn:Hone; cbn [snd].
      { apply Nat.eqb_eq in Hone. now apply copy_Sorted. }
      destruct (minGallop <=? S winsA); apply IH; auto; cbn [length]; lia.
Qed.

Lemma mergeHighLoop_Sorted fuel galloping minGallop winsA winsB
    (runA tempB : list A) :
  length runA + length tempB <= fuel ->
  Sorted (flip ordered) runA -> Sorted (flip ordered) tempB ->
  lastsOrdered (flip ordered) tempB runA ->
  Sorted (flip ordered)
    (snd (mergeHighLoop fuel galloping minGallop winsA winsB runA tempB)).
Proof.
  revert galloping minGallop winsA winsB runA tempB.
  induction fuel as [|fuel IH];
    intros galloping minGallop winsA winsB runA tempB Hfuel HA HB Hlast.
  { destruct runA, tempB; cbn in *; try lia. constructor. }
  cbn [JsArray.mergeHighLoop].
  destruct runA as [|a runA']; [exact HB|].
  destruct tempB as [|b tempB']; [cbn; now rewrite app_nil_r|].
  pose proof (Sorted_inv HA) as [HA' HaA].
  pose proof (Sorted_inv HB) as [HB' HbB].
  destruct galloping.
  - cbv zeta.
    destruct (gallopRight_reverse b (a :: runA')) as [Hlo Hhi]; [done|].
    set (k := length (a :: runA')
              - JsArray.gallopRight comparefn b (reverse (a :: runA'))
                  (length (a :: runA') - 1)) in *.
    clearbody k.
    pose proof (Sorted_drop (flip ordered) k _ HA) as HA1.
    pose proof (fun x y => Sorted_take_drop (flip ordered) k _ x y HA) as Hseam.
    pose proof (last_drop_Some k (a :: runA')) as Hlast1.
    assert (Hlen1 : length (drop k (a :: runA')) <= length (a :: runA'))
      by (rewrite length_drop; lia).
    remember (drop k (a :: runA')) as runA1 eqn:HrunA1.
    cbn [JsArray.emitAll snd].
    apply (Sorted_app_Interleave (flip ordered) _ runA1 (b :: tempB')).
    { shape. }
    { apply Sorted_take, HA. }
    { intros x Hx. split; [apply HdRel_head; intros y; now apply Hseam|].
      constructor. now apply Hhi. }
    destruct ((0 <? k) && (length runA1 =? 0)); cbn [snd]; [exact HB|].
    cbn [JsArray.emit snd].
    apply (Sorted_cons_Interleave (flip ordered) b runA1 tempB').
    { shape. }
    { apply HdRel_head. intros y Hy. now apply Hlo. }
    { exact HbB. }
    assert (Hlast' : lastsOrdered (flip ordered) tempB' runA1).
    { apply (lastsOrdered_suffix _ _ _ _ _ Hlast); auto.
      intros x. apply last_cons_Some. }
    destruct (length tempB' =? 1) eqn:Hone; cbn [snd].
    { apply Nat.eqb_eq in Hone. now apply copy_Sorted. }
    destruct runA1 as [|a1 runA2]; cbn [snd]; [exact HB'|].
    pose proof (Sorted_inv HA1) as [HA2 Ha1].
    assert (Hgallop :
      (forall x, head (drop (length tempB'
                             - JsArray.gallopLeft comparefn a1 (reverse tempB')
                                 (length tempB' - 1)) tempB') = Some x ->
                 ordered x a1)
      /\ (forall y, last (take (length tempB'
                               - JsArray.gallopLeft comparefn a1 (reverse tempB')
                                   (length tempB' - 1)) tempB') = Some y ->
                    ordered a1 y)).
    { destruct tempB' as [|b' tempB''].
      - split; intros x; rewrite ?drop_nil, ?take_nil; discriminate.
      - now apply gallopLeft_reverse. }
    destruct Hgallop as [Hlo' Hhi'].
    set (k' := length tempB'
               - JsArray.gallopLeft comparefn a1 (reverse tempB')
                   (length tempB' - 1)) in *.
    clearbody k'.
    pose proof (Sorted_drop (flip ordered) k' _ HB') as HB2.
    pose proof (fun x y => Sorted_take_drop (flip ordered) k' _ x y HB')
      as Hseam'.
    pose proof (last_drop_Some k' tempB') as Hlast2.
    assert (Hlen2 : length (drop k' tempB') <= length tempB')
      by (rewrite length_drop; lia).
    remember (drop k' tempB') as tempB2 eqn:HtempB2.
    cbn [JsArray.emitAll snd].
    apply (Sorted_app_Interleave (flip ordered) _ (a1 :: runA2) tempB2).
    { shape. }
    { apply Sorted_take, HB'. }
    { intros x Hx. split; [constructor; now apply Hhi'|].
      apply HdRel_head. intros y. now apply Hseam'. }
    assert (Hlast'' : lastsOrdered (flip ordered) tempB2 (a1 :: runA2)).
    { apply (lastsOrdered_suffix _ _ _ _ _ Hlast'); auto. }
    destruct ((0 <? k') && (length tempB2 =? 1)) eqn:Hone'; cbn [snd].
    { apply andb_prop in Hone' as [_ Hone']. apply Nat.eqb_eq in Hone'.
      now apply copy_Sorted. }
    destruct ((0 <? k') && (length tempB2 =? 0)); cbn [snd]; [exact HA1|].
    cbn [JsArray.emit snd].
    apply (Sorted_cons_Interleave (flip ordered) a1 runA2 tempB2).
    { shape. }
    { exact Ha1. }
    { apply HdRel_head. intros y Hy. now apply Hlo'. }
    assert (Hlast3 : lastsOrdered (flip ordered) tempB2 runA2).
    { apply (lastsOrdered_suffix _ _ _ _ _ Hlast''); auto.
      intros x. apply last_cons_Some. }
    cbn [length] in *.
    destruct (length runA2 =? 0); cbn [snd]; [exact HB2|].
    destruct (_ || _); apply IH; auto; lia.
  - destruct (less b a) eqn:Hless.
    + cbn [JsArray.emit snd].
      apply (Sorted_cons_Interleave (flip ordered) a runA' (b :: tempB')).
      { shape. }
      { exact HaA. }
      { constructor. now apply less_ordered. }
      assert (Hlast' : lastsOrdered (flip ordered) (b :: tempB') runA').
      { apply (lastsOrdered_suffix _ _ _ _ _ Hlast); auto.
        intros x. apply last_cons_Some. }
      cbn [length] in *.
      destruct (length runA' =? 0); cbn [snd]; [exact HB|].
      destruct (minGallop <=? S winsA); apply IH; auto; cbn [length]; lia.
    + cbn [JsArray.emit snd].
      apply (Sorted_cons_Interleave (flip ordered) b (a :: runA') tempB').
      { shape. }
      { constructor. now apply not_less_ordered. }
      { exact HbB. }
      assert (Hlast' : lastsOrdered (flip ordered) tempB' (a :: runA')).
      { apply (lastsOrdered_suffix _ _ _ _ _ Hlast); auto.
        intros x. apply last_cons_Some. }
      cbn [length] in *.
      destruct (length tempB' =? 1) eqn:Hone; cbn [snd].
      { apply Nat.eqb_eq in Hone. now apply copy_Sorted. }
      destruct (minGallop <=? S winsB); apply IH; auto; cbn [length]; lia.
Qed.

Lemma mergeLow_Sorted minGallop (runA runB : list A) :
  Sorted ordered runA -> Sorted ordered runB ->
  firstsOrdered ordered runA runB -> lastsOrdered ordered runA runB ->
  Sorted ordered (snd (JsArray.mergeLow comparefn minGallop runA runB)).
Proof.
  intros HA HB Hfirst Hlast. unfold JsArray.mergeLow.
  destruct runB as [|b runB']; [exact HA|].
  pose proof (Sorted_inv HB) as [HB' HbB].
  cbn [JsArray.emit snd].
  apply (Sorted_cons_Interleave ordered b runA runB').
  { shape. }
  { apply HdRel_head. intros y Hy. now apply Hfirst. }
  { exact HbB. }
  assert (Hlast' : lastsOrdered ordered runA runB').
  { apply (lastsOrdered_suffix _ _ _ _ _ Hlast); auto.
    intros x. apply last_cons_Some. }
  destruct (length runB' =? 0); cbn [snd]; [exact HA|].
  destruct (length runA =? 1) eqn:Hone; cbn [snd].
  { apply Nat.eqb_eq in Hone. now apply copy_Sorted. }
  apply mergeLowLoop_Sorted; auto.
Qed.

Lemma mergeHigh_Sorted minGallop (runA runB : list A) :
  Sorted ordered runA -> Sorted ordered runB ->
  firstsOrdered ordered runA runB -> lastsOrdered ordered runA runB ->
  Sorted ordered (snd (JsArray.mergeHigh comparefn minGallop runA runB)).
Proof.
  intros HA HB Hfirst Hlast. unfold JsArray.mergeHigh. cbn [snd].
  apply (Sorted_reverse (flip ordered)).
  apply (Sorted_reverse ordered) in HA, HB.
  assert (HlastR : forall a b, head (reverse runA) = Some a ->
                     head (reverse runB) = Some b -> ordered b a).
  { intros a b. rewrite !head_reverse. apply Hlast. }
  assert (HfirstR : forall a b, last (reverse runA) = Some a ->
                      last (reverse runB) = Some b -> ordered b a).
  { intros a b. rewrite !last_reverse. apply Hfirst. }
  destruct (reverse runA) as [|a runA']; [exact HB|].
  pose proof (Sorted_inv HA) as [HA' HaA].
  cbn [JsArray.emit snd].
  apply (Sorted_cons_Interleave (flip ordered) a runA' (reverse runB)).
  { shape. }
  { exact HaA. }
  { apply HdRel_head. intros y Hy. now apply HlastR. }
  assert (Hlast' : lastsOrdered (flip ordered) (reverse runB) runA').
  { intros x y Hx Hy. apply HfirstR; [|exact Hx]. now apply last_cons_Some. }
  destruct (length runA' =? 0); cbn [snd]; [exact HB|].
  destruct (length runB =? 1) eqn:Hone; cbn [snd].
  { apply Nat.eqb_eq in Hone. apply copy_Sorted; auto.
    now rewrite length_reverse. }
  apply mergeHighLoop_Sorted; auto. now rewrite length_reverse.
Qed.

Lemma mergeAt_Sorted minGallop (runA runB : list A) :
  Sorted ordered runA -> Sorted ordered runB ->
  Sorted ordered (snd (JsArray.mergeAt comparefn minGallop runA runB)).
Proof.
  intros HA HB. unfold JsArray.mergeAt.
  destruct runB as [|keyRight runB'] eqn:HrunB; [exact HA|]. rewrite <- HrunB in *.
  assert (HheadB : head runB = Some keyRight) by now rewrite HrunB.
  assert (HneB : runB <> []) by now rewrite HrunB.
  clear HrunB. cbv zeta.
  destruct runA as [|a0 runA'] eqn:HrunA.
  { rewrite take_nil, drop_nil. exact HB. }
  rewrite <- HrunA in *. assert (HneA : runA <> []) by now rewrite HrunA.
  clear HrunA.
  destruct (gallopRight_0 keyRight runA HneA) as [Hlo Hhi].
  set (k := JsArray.gallopRight comparefn keyRight runA 0) in *. clearbody k.
  pose proof (Sorted_take ordered k _ HA) as Hpre.
  pose proof (Sorted_drop ordered k _ HA) as Hrest.
  pose proof (fun x y => Sorted_take_drop ordered k _ x y HA) as Hseam.
  remember (drop k runA) as restA eqn:HrestA.
  cbn [JsArray.emitAll snd].
  destruct (last restA) as [keyLeft|] eqn:HkeyLeft; cbn [snd].
  2:{ apply Sorted_app_intro; [exact Hpre|exact HB|].
      intros x y Hx Hy. rewrite HheadB in Hy. injection Hy as <-. now apply Hlo. }
  destruct (gallopLeft_last keyLeft runB HneB) as [Hlo' Hhi'].
  set (lengthB := JsArray.gallopLeft comparefn keyLeft runB (length runB - 1)) in *.
  clearbody lengthB.
  pose proof (Sorted_take ordered lengthB _ HB) as HpartB.
  pose proof (Sorted_drop ordered lengthB _ HB) as Htail.
  pose proof (fun x y => Sorted_take_drop ordered lengthB _ x y HB) as Hseam'.
  set (merged := if lengthB =? 0 then (minGallop, restA) else _).
  assert (Hshape : Interleave restA (take lengthB runB) (snd merged)).
  { subst merged. destruct (lengthB =? 0) eqn:Hzero.
    - apply Nat.eqb_eq in Hzero. subst lengthB. cbn. apply Interleave_nil_r.
    - destruct (_ <=? _); auto using mergeLow_Interleave, mergeHigh_Interleave. }
  assert (Hmerged : Sorted ordered (snd merged)).
  { subst merged. destruct (lengthB =? 0) eqn:Hzero; [exact Hrest|].
    apply Nat.eqb_neq in Hzero.
    assert (Hfirst : firstsOrdered ordered restA (take lengthB runB)).
    { intros x y Hx Hy. assert (y = keyRight) as ->.
      { destruct lengthB; [done|]. destruct runB; [done|].
        cbn in Hy, HheadB. congruence. }
      now apply Hhi. }
    assert (Hlast : lastsOrdered ordered restA (take lengthB runB)).
    { intros x y Hx Hy. rewrite HkeyLeft in Hx. injection Hx as <-.
      now apply Hlo'. }
    destruct (_ <=? _); [apply mergeLow_Sorted|apply mergeHigh_Sorted]; auto. }
  clearbody merged.
  apply Sorted_app_intro; [exact Hpre| |].
  - apply Sorted_app_intro; [exact Hmerged|exact Htail|].
    intros x y Hx Hy.
    destruct (Interleave_last _ _ _ Hshape) as [Heq|Heq]; rewrite Hx in Heq.
    + rewrite HkeyLeft in Heq. injection Heq as ->. now apply Hhi'.
    + now apply Hseam'.
  - intros x y Hx Hy.
    destruct (Interleave_head _ _ _ (drop lengthB runB) Hshape) as [Heq|Heq];
      rewrite Hy in Heq.
    + destruct restA as [|a1 restA']; [discriminate|].
      apply Hseam; [exact Hx|]. cbn in Heq. now rewrite Heq.
    + rewrite take_drop, HheadB in Heq. injection Heq as ->. now apply Hlo.
Qed.

Lemma Sorted_weaken (R1 R2 : A -> A -> Prop) (l : list A) :
  (forall x y, R1 x y -> R2 x y) -> Sorted R1 l -> Sorted R2 l.
Proof.
  intros Himpl. induction 1 as [|x l Hl IH Hhd]; constructor; [exact IH|].
  destruct Hhd; constructor. now apply Himpl.
Qed.

(** The elements [CountAndMakeRun] counts continue the run one by one. *)
Lemma runTail_Sorted isDescending (previous : A) (rest : list A) :
  Sorted (fun p c => less c p = isDescending)
    (previous :: take (JsArray.runTail comparefn isDescending previous rest) rest).
Proof.
  revert previous. induction rest as [|current rest IH]; intros previous.
  { repeat constructor. }
  cbn [JsArray.runTail]. destruct (Bool.eqb _ _) eqn:Hgo.
  - cbn [take]. constructor; [apply IH|]. constructor.
    now apply Bool.eqb_prop in Hgo.
  - repeat constructor.
Qed.

Lemma countAndMakeRun_Sorted (l : list A) :
  Sorted ordered
    (take (fst (JsArray.countAndMakeRun comparefn l))
       (snd (JsArray.countAndMakeRun comparefn l))).
Proof.
  destruct l as [|x [|y rest]]; [constructor|repeat constructor|].
  cbn [JsArray.countAndMakeRun fst snd].
  pose proof (runTail_Sorted (less y x) y rest) as Hrun.
  pose proof (runTail_le comparefn (less y x) y rest) as Hle.
  set (n := JsArray.runTail comparefn (less y x) y rest) in *. clearbody n.
  assert (Htake : take (2 + n) (x :: y :: rest) = x :: y :: take n rest)
    by reflexivity.
  destruct (less y x) eqn:Hdesc.
  - rewrite take_app_length'.
    2:{ rewrite length_reverse, length_take. cbn [length]. lia. }
    rewrite Htake. apply (Sorted_reverse (flip ordered)).
    constructor; [|constructor; now apply less_ordered].
    apply (Sorted_weaken (fun p c => less c p = true)); [|exact Hrun].
    intros p c. apply less_ordered.
  - rewrite Htake. constructor; [|constructor; now apply not_less_ordered].
    apply (Sorted_weaken (fun p c => less c p = false)); [|exact Hrun].
    intros p c. apply not_less_ordered.
Qed.

Lemma insertPivot_Sorted (sorted : list A) (pivot : A) :
  Sorted ordered sorted ->
  Sorted ordered (JsArray.insertPivot comparefn sorted pivot).
Proof.
  intros Hsorted. unfold JsArray.insertPivot. cbv zeta.
  destruct (bisect_spec
              (JsArray.probe sorted (fun y => negb (less pivot y)))
              (length sorted) (length sorted) 0 (length sorted))
    as (_ & Hrange & Hlo & Hhi); [lia|lia|now left|now left|].
  cbv zeta in *.
  set (left := fst (JsArray.bisect _ _ _ _)) in *. clearbody left.
  destruct (probe_split (fun y => negb (less pivot y)) sorted left)
    as [Hbefore Hafter]; [lia|exact Hlo|exact Hhi|].
  apply Sorted_app_intro.
  - now apply Sorted_take.
  - constructor; [now apply Sorted_drop|]. apply HdRel_head. intros y Hy.
    apply less_ordered, negb_false_iff, Hafter, Hy.
  - intros x y Hx [= <-]. apply not_less_ordered, negb_true_iff, Hbefore, Hx.
Qed.

Lemma binaryInsertionSort_Sorted (sorted rest : list A) :
  Sorted ordered sorted ->
  Sorted ordered (JsArray.binaryInsertionSort comparefn sorted rest).
Proof.
  unfold JsArray.binaryInsertionSort. revert sorted.
  induction rest as [|pivot rest IH]; intros sorted Hsorted; [exact Hsorted|].
  cbn [fold_left]. now apply IH, insertPivot_Sorted.
Qed.

Lemma nextRun_Sorted minRunLength (rest : list A) :
  Sorted ordered (fst (JsArray.nextRun comparefn minRunLength rest)).
Proof.
  unfold JsArray.nextRun.
  pose proof (countAndMakeRun_Sorted rest) as Hrun.
  destruct (JsArray.countAndMakeRun comparefn rest) as [n array].
  cbn [fst snd] in *.
  destruct (n <? minRunLength); cbn [fst]; [|exact Hrun].
  now apply binaryInsertionSort_Sorted.
Qed.

Lemma mergeCollapse_Sorted fuel (state : JsArray.SortState) :
  Forall (Sorted ordered) (snd state) ->
  Forall (Sorted ordered) (snd (JsArray.mergeCollapse comparefn fuel state)).
Proof.
  revert state. induction fuel as [|fuel IH]; intros [minGallop stack] Hstack;
    [exact Hstack|].
  cbn [JsArray.mergeCollapse snd fst] in *.
  destruct stack as [|x [|y below]]; [exact Hstack..|].
  apply Forall_cons in Hstack as [Hx Hstack].
  apply Forall_cons in Hstack as [Hy Hbelow].
  assert (Hxy : Forall (Sorted ordered)
                  (snd (JsArray.mergeCollapse comparefn fuel
                          (JsArray.mergeInto comparefn minGallop y x below)))).
  { apply IH. cbn. constructor; [|exact Hbelow].
    now apply mergeAt_Sorted. }
  destruct (negb _ || negb _).
  - destruct below as [|z below']; [exact Hxy|].
    destruct (length z <? length x); [|exact Hxy].
    apply Forall_cons in Hbelow as [Hz Hbelow].
    apply IH. cbn. constructor; [exact Hx|]. constructor; [|exact Hbelow].
    now apply mergeAt_Sorted.
  - destruct (length y <=? length x); [exact Hxy|].
    repeat constructor; assumption.
Qed.

Lemma mergeForceCollapse_Sorted fuel (state : JsArray.SortState) :
  Forall (Sorted ordered) (snd state) ->
  Forall (Sorted ordered)
    (snd (JsArray.mergeForceCollapse comparefn fuel state)).
Proof.
  revert state. induction fuel as [|fuel IH]; intros [minGallop stack] Hstack;
    [exact Hstack|].
  cbn [JsArray.mergeForceCollapse snd fst] in *.
  destruct stack as [|x [|y below]]; [exact Hstack..|].
  apply Forall_cons in Hstack as [Hx Hstack].
  apply Forall_cons in Hstack as [Hy Hbelow].
  assert (Hxy : Forall (Sorted ordered)
                  (snd (JsArray.mergeForceCollapse comparefn fuel
                          (JsArray.mergeInto comparefn minGallop y x below)))).
  { apply IH. cbn. constructor; [|exact Hbelow].
    now apply mergeAt_Sorted. }
  destruct below as [|z below']; [exact Hxy|].
  destruct (length z <? length x); [|exact Hxy].
  apply Forall_cons in Hbelow as [Hz Hbelow].
  apply IH. cbn. constructor; [exact Hx|]. constructor; [|exact Hbelow].
  now apply mergeAt_Sorted.
Qed.

Lemma sortLoop_Sorted fuel minRunLength (state : JsArray.SortState)
    (rest : list A) :
  Forall (Sorted ordered) (snd state) ->
  Forall (Sorted ordered)
    (snd (JsArray.sortLoop comparefn fuel minRunLength state rest)).
Proof.
  revert state rest. induction fuel as [|fuel IH]; intros state rest Hstate;
    [exact Hstate|].
  cbn [JsArray.sortLoop]. destruct rest as [|x rest'] eqn:Hrest; [exact Hstate|].
  rewrite <- Hrest.
  pose proof (nextRun_Sorted minRunLength rest) as Hrun.
  destruct (JsArray.nextRun comparefn minRunLength rest) as [run rest''].
  apply IH, mergeCollapse_Sorted. cbn. now constructor.
Qed.


(** [MergeForceCollapse] leaves one run. *)
Lemma mergeForceCollapse_length fuel (state : JsArray.SortState) :
  length (snd state) <= fuel ->
  length (snd (JsArray.mergeForceCollapse comparefn fuel state)) <= 1.
Proof.
  revert state. induction fuel as [|fuel IH]; intros [minGallop stack] Hfuel.
  { cbn in *. lia. }
  cbn [JsArray.mergeForceCollapse snd fst] in *.
  destruct stack as [|x [|y below]]; [cbn; lia..|].
  cbn [length] in Hfuel.
  destruct below as [|z below']; [apply IH; cbn; lia|].
  destruct (length z <? length x); apply IH; cbn in *; lia.
Qed.


(** After the sort no element stands immediately before one it has to
    follow. *)
Lemma sort_Sorted (l : list A) :
  Sorted (JsArray.ordered comparefn) (JsArray.sort comparefn l).
Proof.
  unfold JsArray.sort. destruct l as [|x [|y l']]; [repeat constructor..|].
  cbv zeta.
  set (state := JsArray.sortLoop comparefn _ _ _ _).
  pose proof (mergeForceCollapse_length (length (snd state)) state
                (le_n _)) as Hlen.
  pose proof (mergeForceCollapse_Sorted (length (snd state)) state) as Hsorted.
  destruct (snd (JsArray.mergeForceCollapse comparefn _ state))
    as [|run [|? ?]]; [constructor| |cbn in Hlen; lia].
  cbn. rewrite app_nil_r.
  eapply Forall_inv, Hsorted.
  apply sortLoop_Sorted. constructor.
Qed.

(** The sort leaves a list alone in which no element stands immediately
    before one it has to follow: it is one run. *)
Lemma runTail_of_Sorted (previous : A) (rest : list A) :
  Sorted (JsArray.ordered comparefn) (previous :: rest) ->
  JsArray.runTail comparefn false previous rest = length rest.
Proof.
  revert previous. induction rest as [|current rest IH]; intros previous Hsorted;
    [reflexivity|].
  apply Sorted_inv in Hsorted as [Hrest Hhd]. inversion Hhd as [|? ? Hord]; subst.
  cbn [JsArray.runTail length].
  assert (Hless : JsArray.less comparefn current previous = false).
  { unfold JsArray.ordered, JsArray.mustFollow in Hord. unfold JsArray.less.
    rewrite (compare_flip current previous). lia. }
  rewrite Hless. cbn [Bool.eqb]. now rewrite IH.
Qed.

Lemma nextRun_of_Sorted minRunLength (l : list A) :
  l <> [] -> Sorted (JsArray.ordered comparefn) l ->
  JsArray.nextRun comparefn minRunLength l = (l, []).
Proof.
  intros Hne Hsorted. unfold JsArray.nextRun.
  assert (Hrun : JsArray.countAndMakeRun comparefn l = (length l, l)).
  { destruct l as [|x [|y rest]]; [done|reflexivity|].
    cbn [JsArray.countAndMakeRun].
    pose proof (Sorted_inv Hsorted) as [Hrest Hhd].
    inversion Hhd as [|? ? Hord]; subst.
    assert (Hless : JsArray.less comparefn y x = false).
    { unfold JsArray.ordered, JsArray.mustFollow in Hord. unfold JsArray.less.
      rewrite (compare_flip y x). lia. }
    rewrite Hless, (runTail_of_Sorted y rest Hrest). reflexivity. }
  rewrite Hrun. destruct (length l <? minRunLength) eqn:Hshort.
  - apply Nat.ltb_lt in Hshort. rewrite Nat.min_r by lia.
    rewrite Nat.sub_diag, firstn_all, drop_all. reflexivity.
  - now rewrite firstn_all, drop_all.
Qed.

Lemma sort_of_Sorted (l : list A) :
  Sorted (JsArray.ordered comparefn) l -> JsArray.sort comparefn l = l.
Proof.
  intros Hsorted. unfold JsArray.sort.
  destruct l as [|x [|y l']] eqn:Hl; [reflexivity..|]. rewrite <- Hl in *.
  assert (Hne : l <> []) by now rewrite Hl.
  cbv zeta.
  assert (Hloop : forall fuel minRunLength,
            JsArray.sortLoop comparefn (S fuel) minRunLength
              (JsArray.kMinGallopWins, []) l
            = (JsArray.kMinGallopWins, [l])).
  { intros fuel minRunLength. cbn [JsArray.sortLoop].
    destruct l as [|a l'']; [done|].
    rewrite (nextRun_of_Sorted minRunLength (a :: l'') Hne Hsorted).
    cbn. now destruct fuel. }
  assert (Hlen : length l = S (S (length l'))) by now rewrite Hl.
  rewrite Hlen, Hloop. cbn. now rewrite app_nil_r.
Qed.

End SortSorted.

(** *** Arrays of fewer than 64 elements *)

Section SortShort.
Context {A : Type}.
Variable comparefn : A -> A -> number.
Variable P : A -> bool.
Hypothesis P_never_less :
  forall x y, P x = true ->
    JsArray.less comparefn x y = false /\ JsArray.less comparefn y x = false.
Local Open Scope nat_scope.

Lemma runTail_descending_filter (previous : A) (rest : list A) :
  P previous = false ->
  List.filter P (take (JsArray.runTail comparefn true previous rest) rest) = [].
Proof.
  revert previous. induction rest as [|current rest IH]; intros previous Hprev;
    [reflexivity|].
  cbn [JsArray.runTail]. destruct (JsArray.less comparefn current previous) eqn:Hless;
    cbn [Bool.eqb]; [|reflexivity].
  assert (Hcur : P current = false).
  { destruct (P current) eqn:HP; [|reflexivity].
    destruct (P_never_less current previous HP) as [H _]. congruence. }
  cbn [take List.filter]. rewrite Hcur. now apply IH.
Qed.

Lemma countAndMakeRun_filter (l : list A) :
  List.filter P (snd (JsArray.countAndMakeRun comparefn l)) = List.filter P l.
Proof.
  destruct l as [|x [|y rest]]; [reflexivity..|].
  cbn [JsArray.countAndMakeRun fst snd].
  destruct (JsArray.less comparefn y x) eqn:Hdesc; [|reflexivity].
  assert (Hx : P x = false).
  { destruct (P x) eqn:HP; [|reflexivity].
    destruct (P_never_less x y HP) as [_ H]. congruence. }
  assert (Hy : P y = false).
  { destruct (P y) eqn:HP; [|reflexivity].
    destruct (P_never_less y x HP) as [H _]. congruence. }
  set (n := JsArray.runTail comparefn true y rest).
  assert (Hrun : List.filter P (take (2 + n) (x :: y :: rest)) = []).
  { cbn [Nat.add take List.filter]. rewrite Hx, Hy.
    now apply runTail_descending_filter. }
  transitivity (List.filter P (take (2 + n) (x :: y :: rest)
                               ++ drop (2 + n) (x :: y :: rest)));
    [|now rewrite take_drop].
  rewrite !List.filter_app. f_equal.
  unfold reverse. rewrite <- rev_alt, List.filter_rev, Hrun. reflexivity.
Qed.

Lemma bisect_all_right (goRight : nat -> bool) (fuel left right : nat) :
  left <= right -> right - left <= fuel ->
  (forall mid, left <= mid < right -> goRight mid = true) ->
  fst (JsArray.bisect goRight fuel left right) = right.
Proof.
  revert left. induction fuel as [|fuel IH]; intros left Hle Hfuel Hright.
  { cbn. lia. }
  cbn [JsArray.bisect]. destruct (left <? right) eqn:Hlt.
  2:{ apply Nat.ltb_ge in Hlt. cbn. lia. }
  apply Nat.ltb_lt in Hlt. cbv zeta.
  pose proof (half_lt (right - left)) as Hhalf.
  rewrite Hright by lia. apply IH; [lia|lia|].
  intros mid Hmid. apply Hright. lia.
Qed.

Lemma insertPivot_filter (sorted : list A) (pivot : A) :
  List.filter P (JsArray.insertPivot comparefn sorted pivot)
  = List.filter P (sorted ++ [pivot]).
Proof.
  unfold JsArray.insertPivot. cbv zeta. destruct (P pivot) eqn:Hpivot.
  - rewrite bisect_all_right; [|lia|lia|].
    + now rewrite firstn_all, drop_all.
    + intros mid Hmid. unfold JsArray.probe.
      destruct (sorted !! mid) as [y|] eqn:Hy.
      * destruct (P_never_less pivot y Hpivot) as [-> _]. reflexivity.
      * apply lookup_ge_None in Hy. lia.
  - set (left := fst _). clearbody left.
    rewrite !List.filter_app. cbn [List.filter]. rewrite Hpivot, app_nil_r.
    now rewrite <- List.filter_app, take_drop.
Qed.

Lemma binaryInsertionSort_filter (sorted rest : list A) :
  List.filter P (JsArray.binaryInsertionSort comparefn sorted rest)
  = List.filter P (sorted ++ rest).
Proof.
  unfold JsArray.binaryInsertionSort. revert sorted.
  induction rest as [|pivot rest IH]; intros sorted; cbn [fold_left].
  - now rewrite app_nil_r.
  - rewrite IH, List.filter_app, insertPivot_filter, <- List.filter_app.
    now rewrite <- app_assoc.
Qed.

(** An array shorter than 64 is sorted as one run, by binary insertion. *)
Lemma nextRun_whole (l : list A) :
  l <> [] ->
  snd (JsArray.nextRun comparefn (length l) l) = []
  /\ List.filter P (fst (JsArray.nextRun comparefn (length l) l))
     = List.filter P l.
Proof.
  intros Hne. unfold JsArray.nextRun.
  pose proof (countAndMakeRun_length comparefn l Hne) as [Hrun Hlen].
  pose proof (countAndMakeRun_filter l) as Hfilter.
  destruct (JsArray.countAndMakeRun comparefn l) as [n array].
  cbn [fst snd] in *.
  destruct (n <? length l) eqn:Hshort; cbn [fst snd].
  - rewrite Nat.min_id. split; [apply drop_ge; lia|].
    rewrite binaryInsertionSort_filter, take_take_drop.
    replace (n + (length l - n)) with (length l) by lia.
    rewrite take_ge by lia. exact Hfilter.
  - apply Nat.ltb_ge in Hshort. split; [apply drop_ge; lia|].
    rewrite take_ge by lia. exact Hfilter.
Qed.

Lemma computeMinRunLength_short (n : nat) :
  n < 64 -> JsArray.computeMinRunLength n = n.
Proof.
  intros Hn. unfold JsArray.computeMinRunLength.
  destruct n as [|n]; [reflexivity|]. cbn [JsArray.computeMinRunLength_go].
  destruct (64 <=? S n) eqn:Hle; [apply Nat.leb_le in Hle; lia|]. lia.
Qed.

(** Elements that compare less than none and that none compares less than
    keep their order in an array of fewer than 64 elements. *)
Lemma sort_filter_short (l : list A) :
  length l < 64 ->
  List.filter P (JsArray.sort comparefn l) = List.filter P l.
Proof.
  intros Hshort. unfold JsArray.sort.
  destruct l as [|x [|y l']] eqn:Hl; [reflexivity..|]. rewrite <- Hl in *.
  assert (Hne : l <> []) by now rewrite Hl.
  cbv zeta. rewrite computeMinRunLength_short by exact Hshort.
  destruct (nextRun_whole l Hne) as [Hrest Hfilter].
  assert (Hloop : forall fuel,
            JsArray.sortLoop comparefn (S fuel) (length l)
              (JsArray.kMinGallopWins, []) l
            = (JsArray.kMinGallopWins,
               [fst (JsArray.nextRun comparefn (length l) l)])).
  { intros fuel. cbn [JsArray.sortLoop].
    destruct l as [|a l'']; [done|].
    destruct (JsArray.nextRun comparefn (length (a :: l'')) (a :: l''))
      as [run rest'].
    cbn [fst snd] in *. subst rest'. cbn. now destruct fuel. }
  assert (Hfinal : forall run : list A,
            concat (reverse (snd (JsArray.mergeForceCollapse comparefn
                      (length (snd (JsArray.kMinGallopWins, [run])))
                      (JsArray.kMinGallopWins, [run]))))
            = run).
  { intros run. cbn. apply app_nil_r. }
  assert (Hstate : JsArray.sortLoop comparefn (length l) (length l)
                     (JsArray.kMinGallopWins, []) l
                   = (JsArray.kMinGallopWins,
                      [fst (JsArray.nextRun comparefn (length l) l)])).
  { rewrite Hl at 1. apply Hloop. }
  rewrite Hstate, Hfinal. exact Hfilter.
Qed.

End SortShort.

(** *** The bounds of the loops

    The loops of the engine are written with a bound on their number of
    rounds.  The bounds the sort gives them are never reached: a larger
    bound gives the same result. *)

Section SortBounds.
Context {A : Type}.
Variable comparefn : A -> A -> number.
Local Open Scope nat_scope.

Lemma drop_cons_length (k : nat) (l l' : list A) (x : A) :
  drop k l = x :: l' -> length l' < length l.
Proof.
  intros H. apply (f_equal length) in H. rewrite length_drop in H.
  cbn [length] in H. lia.
Qed.

Ltac bound_step :=
  match goal with
  | |- JsArray.emit _ _ = JsArray.emit _ _ => f_equal
  | |- JsArray.emitAll _ _ = JsArray.emitAll _ _ => f_equal
  | |- (if ?c then _ else _) = (if ?c then _ else _) => destruct c eqn:?
  | |- match ?l with [] => _ | _ :: _ => _ end
       = match ?l with [] => _ | _ :: _ => _ end => destruct l eqn:?
  | H : drop _ _ = _ :: _ |- _ => apply drop_cons_length in H
  end.

Lemma mergeLowLoop_bound fuel fuel' galloping minGallop winsA winsB
    (tempA runB : list A) :
  length tempA + length runB <= fuel ->
  length tempA + length runB <= fuel' ->
  JsArray.mergeLowLoop comparefn fuel galloping minGallop winsA winsB tempA runB
  = JsArray.mergeLowLoop comparefn fuel' galloping minGallop winsA winsB
      tempA runB.
Proof.
  revert fuel' galloping minGallop winsA winsB tempA runB.
  induction fuel as [|fuel IH];
    intros fuel' galloping minGallop winsA winsB tempA runB Hfuel Hfuel'.
  { destruct tempA, runB; cbn in Hfuel; try lia. now destruct fuel'. }
  destruct fuel' as [|fuel'].
  { destruct tempA, runB; cbn in Hfuel'; try lia. reflexivity. }
  cbn [JsArray.mergeLowLoop].
  destruct tempA as [|a tempA']; [reflexivity|].
  destruct runB as [|b runB']; [reflexivity|].
  cbn [length] in Hfuel, Hfuel'.
  destruct galloping; cbv zeta.
  - set (k := JsArray.gallopRight comparefn b (a :: tempA') 0). clearbody k.
    repeat bound_step; try reflexivity.
    all: match goal with
         | |- context [drop ?k' ?l] => pose proof (length_drop l k')
         end;
      cbn [length] in *; apply IH; lia.
  - repeat bound_step; try reflexivity; apply IH; cbn [length]; lia.
Qed.

Lemma mergeHighLoop_bound fuel fuel' galloping minGallop winsA winsB
    (runA tempB : list A) :
  length runA + length tempB <= fuel ->
  length runA + length tempB <= fuel' ->
  JsArray.mergeHighLoop comparefn fuel galloping minGallop winsA winsB runA tempB
  = JsArray.mergeHighLoop comparefn fuel' galloping minGallop winsA winsB
      runA tempB.
Proof.
  revert fuel' galloping minGallop winsA winsB runA tempB.
  induction fuel as [|fuel IH];
    intros fuel' galloping minGallop winsA winsB runA tempB Hfuel Hfuel'.
  { destruct runA, tempB; cbn in Hfuel; try lia. now destruct fuel'. }
  destruct fuel' as [|fuel'].
  { destruct runA, tempB; cbn in Hfuel'; try lia. reflexivity. }
  cbn [JsArray.mergeHighLoop].
  destruct runA as [|a runA']; [reflexivity|].
  destruct tempB as [|b tempB']; [reflexivity|].
  cbn [length] in Hfuel, Hfuel'.
  destruct galloping; cbv zeta.
  - set (k := length (a :: runA')
              - JsArray.gallopRight comparefn b (reverse (a :: runA'))
                  (length (a :: runA') - 1)).
    clearbody k.
    repeat bound_step; try reflexivity.
    all: match goal with
         | |- context [drop ?k' ?l] => pose proof (length_drop l k')
         end;
      cbn [length] in *; apply IH; lia.
  - repeat bound_step; try reflexivity; apply IH; cbn [length]; lia.
Qed.

Lemma mergeCollapse_bound fuel fuel' (state : JsArray.SortState) :
  length (snd state) <= fuel -> length (snd state) <= fuel' ->
  JsArray.mergeCollapse comparefn fuel state
  = JsArray.mergeCollapse comparefn fuel' state.
Proof.
  revert fuel' state. induction fuel as [|fuel IH];
    intros fuel' [minGallop stack] Hfuel Hfuel'; cbn [snd] in *.
  { destruct stack; cbn in Hfuel; [|lia]. now destruct fuel'. }
  destruct fuel' as [|fuel'].
  { destruct stack; cbn in Hfuel'; [|lia]. reflexivity. }
  cbn [JsArray.mergeCollapse snd fst].
  destruct stack as [|x [|y below]]; [reflexivity..|].
  cbn [length] in Hfuel, Hfuel'.
  destruct (negb _ || negb _).
  - destruct below as [|z below']; [apply IH; cbn; lia|].
    destruct (length z <? length x); apply IH; cbn in *; lia.
  - destruct (length y <=? length x); [|reflexivity]. apply IH; cbn; lia.
Qed.

Lemma mergeForceCollapse_bound fuel fuel' (state : JsArray.SortState) :
  length (snd state) <= fuel -> length (snd state) <= fuel' ->
  JsArray.mergeForceCollapse comparefn fuel state
  = JsArray.mergeForceCollapse comparefn fuel' state.
Proof.
  revert fuel' state. induction fuel as [|fuel IH];
    intros fuel' [minGallop stack] Hfuel Hfuel'; cbn [snd] in *.
  { destruct stack; cbn in Hfuel; [|lia]. now destruct fuel'. }
  destruct fuel' as [|fuel'].
  { destruct stack; cbn in Hfuel'; [|lia]. reflexivity. }
  cbn [JsArray.mergeForceCollapse snd fst].
  destruct stack as [|x [|y below]]; [reflexivity..|].
  cbn [length] in Hfuel, Hfuel'.
  destruct below as [|z below']; [apply IH; cbn; lia|].
  destruct (length z <? length x); apply IH; cbn in *; lia.
Qed.

Lemma sortLoop_bound fuel fuel' minRunLength (state : JsArray.SortState)
    (rest : list A) :
  length rest <= fuel -> length rest <= fuel' ->
  JsArray.sortLoop comparefn fuel minRunLength state rest
  = JsArray.sortLoop comparefn fuel' minRunLength state rest.
Proof.
  revert fuel' state rest. induction fuel as [|fuel IH];
    intros fuel' state rest Hfuel Hfuel'.
  { destruct rest; cbn in Hfuel; [|lia]. now destruct fuel'. }
  destruct fuel' as [|fuel'].
  { destruct rest; cbn in Hfuel'; [|lia]. reflexivity. }
  cbn [JsArray.sortLoop]. destruct rest as [|x rest'] eqn:Hrest; [reflexivity|].
  rewrite <- Hrest in *.
  assert (Hne : rest <> []) by now rewrite Hrest.
  pose proof (nextRun_shorter comparefn minRunLength rest Hne) as Hshorter.
  destruct (JsArray.nextRun comparefn minRunLength rest) as [run rest''].
  cbn [snd] in Hshorter. apply IH; lia.
Qed.

Lemma computeMinRunLength_bound fuel fuel' (n r : nat) :
  n <= fuel -> n <= fuel' ->
  JsArray.computeMinRunLength_go fuel n r
  = JsArray.computeMinRunLength_go fuel' n r.
Proof.
  revert fuel' n r. induction fuel as [|fuel IH]; intros fuel' n r Hfuel Hfuel'.
  { assert (n = 0) as -> by lia. now destruct fuel'. }
  destruct fuel' as [|fuel'].
  { assert (n = 0) as -> by lia. reflexivity. }
  cbn [JsArray.computeMinRunLength_go]. destruct (64 <=? n) eqn:Hbig;
    [|reflexivity].
  apply Nat.leb_le in Hbig. pose proof (half_lt n). apply IH; lia.
Qed.

End SortBounds.

(** *** Two arrays sorted

    Six entries, of which the fourth has no date: the first three are a
    descending run, which the engine reverses, and binary insertion leaves
    the undated entry where it is, takes the fifth to the front past it and
    leaves the last.  Sixty-four entries in two descending halves, the
    second newer: two runs, merged with the second before the first. *)
Example sort_six_entries :
  map Item.title
    (JsArray.sort (itemCompare Scenario.mixedRuntime)
       [Scenario.entry "2021" "a" (Some "2021-01-01");
        Scenario.entry "2022" "b" (Some "2022-01-01");
        Scenario.entry "2023" "c" (Some "2023-01-01");
        Scenario.entry "undated" "d" None;
        Scenario.entry "2024" "e" (Some "2024-01-01");
        Scenario.entry "2020" "f" (Some "2020-01-01")])
  = [Some "2024"; Some "2023"; Some "2022"; Some "2021"; Some "undated";
     Some "2020"].
Proof. vm_compute. reflexivity. Qed.

Example sort_long_items :
  JsArray.sort (itemCompare Scenario.mixedRuntime) Scenario.longItems
  = map Scenario.numbered (seq 32 32 ++ seq 0 32).
Proof. vm_compute. reflexivity. Qed.

(** ** The comparator *)

Section ComparatorFacts.
Variable rt : Runtime.

Lemma byDateSort_flip (a b : option Item.t) :
  JsArray.sortCompare (byDateSort rt) a b
  = - JsArray.sortCompare (byDateSort rt) b a.
Proof.
  unfold JsArray.sortCompare, byDateSort.
  destruct (parseDate rt a) as [[x|]|], (parseDate rt b) as [[y|]|];
    cbn; lia.
Qed.

Lemma itemCompare_flip (a b : Item.t) :
  JsArray.sortCompare (itemCompare rt) a b
  = - JsArray.sortCompare (itemCompare rt) b a.
Proof. exact (byDateSort_flip (Some a) (Some b)). Qed.

Lemma feedCompare_flip (a b : Contents.t) :
  JsArray.sortCompare (feedCompare rt) a b
  = - JsArray.sortCompare (feedCompare rt) b a.
Proof.
  exact (byDateSort_flip (head (Contents.items a)) (head (Contents.items b))).
Qed.

Lemma ordered_times (a b : Item.t) (ta tb : Z) :
  JsArray.ordered (itemCompare rt) a b ->
  itemTime rt a = Some ta -> itemTime rt b = Some tb -> tb <= ta.
Proof.
  unfold JsArray.ordered, JsArray.mustFollow, JsArray.sortCompare,
    itemCompare, byDateSort, itemTime.
  destruct (parseDate rt (Some a)) as [[x|]|]; try discriminate.
  destruct (parseDate rt (Some b)) as [[y|]|]; try discriminate.
  cbn. intros H [= <-] [= <-]. lia.
Qed.

Lemma undated_never_less (x y : Item.t) :
  undated rt x = true ->
  JsArray.less (itemCompare rt) x y = false
  /\ JsArray.less (itemCompare rt) y x = false.
Proof.
  unfold undated, JsArray.less, JsArray.sortCompare, itemCompare,
    byDateSort, itemTime.
  destruct (parseDate rt (Some x)) as [[tx|]|]; try discriminate;
    destruct (parseDate rt (Some y)) as [[ty|]|]; split; reflexivity.
Qed.

Lemma Sorted_dated_run (l : list Item.t) :
  Sorted (JsArray.ordered (itemCompare rt)) l ->
  forall (i j : nat) (a b : Item.t) (ta tb : Z),
    (i <= j)%nat -> l !! i = Some a -> l !! j = Some b ->
    itemTime rt a = Some ta -> itemTime rt b = Some tb ->
    (forall k c, (i <= k <= j)%nat -> l !! k = Some c -> undated rt c = false) ->
    tb <= ta.
Proof.
  induction 1 as [|x l Hl IH Hhd]; intros i j a b ta tb Hij Hi Hj Ha Hb Hrun.
  { discriminate. }
  destruct i as [|i].
  - cbn in Hi. injection Hi as ->. destruct j as [|j].
    + cbn in Hj. injection Hj as ->. rewrite Ha in Hb. injection Hb as ->. lia.
    + cbn in Hj. destruct Hhd as [|y l Hxy]; [discriminate|].
      assert (Hy : undated rt y = false).
      { apply (Hrun 1%nat); [lia|reflexivity]. }
      unfold undated in Hy. destruct (itemTime rt y) as [ty|] eqn:Hty; [|discriminate].
      assert (ty <= ta) by exact (ordered_times _ _ _ _ Hxy Ha Hty).
      assert (tb <= ty).
      { apply (IH 0%nat j y b ty tb); [lia|reflexivity|exact Hj|exact Hty|exact Hb|].
        intros k c Hk Hc. apply (Hrun (S k)); [lia|exact Hc]. }
      lia.
  - destruct j as [|j]; [lia|]. cbn in Hi, Hj.
    apply (IH i j a b ta tb); [lia|exact Hi|exact Hj|exact Ha|exact Hb|].
    intros k c Hk Hc. apply (Hrun (S k)); [lia|exact Hc].
Qed.

End ComparatorFacts.

Lemma build_allItems_sorted (rt : Runtime) (config : Config.t)
    (feeds : list (string * list string)) (cache : Cache.t) :
  exists items, allItems (build rt config feeds cache)
                = JsArray.sort (itemCompare rt) items.
Proof.
  unfold build.
  destruct (fold_left (processGroup rt config) feeds
              (default [] (Cache.allItems cache), [], [])) as [[items errs] gs].
  now exists items.
Qed.

(** ** Ordering of [allItems] *)

(** C1, as the code has it: in [allItems] after the build, two dated items
    are in descending order of date whenever every item from the first to
    the second has a date that parses. *)
Theorem allItems_sorted_within_dated_runs
    (rt : Runtime) (config : Config.t) (feeds : list (string * list string))
    (cache : Cache.t) (i j : nat) (a b : Item.t) (ta tb : Z) :
  (i < j)%nat ->
  allItems (build rt config feeds cache) !! i = Some a ->
  allItems (build rt config feeds cache) !! j = Some b ->
  itemTime rt a = Some ta ->
  itemTime rt b = Some tb ->
  (forall k c, (i <= k <= j)%nat ->
     allItems (build rt config feeds cache) !! k = Some c ->
     undated rt c = false) ->
  tb <= ta.
Proof.
  destruct (build_allItems_sorted rt config feeds cache) as [items ->].
  intros Hij. apply Sorted_dated_run; [|lia].
  apply sort_Sorted, itemCompare_flip.
Qed.

(** C1, as the specification states it, fails: an undated entry between an
    older and a newer one compares equal to both, the sort leaves the three
    where they are, and the older entry precedes the newer one. *)
Lemma allItems_unsorted_across_undated :
  ~ sortedByDate Scenario.mixedRuntime
      (allItems (build Scenario.mixedRuntime Scenario.noConfig
                   Scenario.mixedFeeds Scenario.noCache)).
Proof.
  intros H.
  assert (Hle : 1609459200000 <= 1577836800000).
  { apply (H 0%nat 2%nat
             (Item.set_timestamp (Some "1/1/2020") Scenario.older)
             (Item.set_timestamp (Some "1/1/2021") Scenario.newer)).
    - lia.
    - vm_compute. reflexivity.
    - vm_compute. reflexivity.
    - vm_compute. reflexivity.
    - vm_compute. reflexivity. }
  lia.
Qed.

Lemma allItems_sorted_within_dated_runs_witness :
  allItems (build Scenario.runRuntime Scenario.noConfig
              Scenario.mixedFeeds Scenario.noCache)
  = [Item.set_timestamp (Some "1/1/2021") Scenario.newer;
     Item.set_timestamp (Some "1/1/2020") Scenario.older;
     Item.set_timestamp (Some "Invalid Date") Scenario.plain]
  /\ 1577836800000 <= 1609459200000.
Proof.
  split; [vm_compute; reflexivity|].
  apply (allItems_sorted_within_dated_runs Scenario.runRuntime Scenario.noConfig
           Scenario.mixedFeeds Scenario.noCache 0%nat 1%nat
           (Item.set_timestamp (Some "1/1/2021") Scenario.newer)
           (Item.set_timestamp (Some "1/1/2020") Scenario.older)).
  - lia.
  - vm_compute. reflexivity.
  - vm_compute. reflexivity.
  - vm_compute. reflexivity.
  - vm_compute. reflexivity.
  - intros k c Hk Hc. destruct k as [|[|k]]; [| |lia];
      vm_compute in Hc; injection Hc as <-; vm_compute; reflexivity.
Defined.

(** ** Undated items *)

(** C4, as the code has it: with a date missing on either side the
    comparator returns zero; with both present and one that does not parse
    it returns [NaN]; the sort reads both as equality, and the undated
    items of an array of fewer than 64 elements, which the engine sorts as
    one run, come out of the sort in the order they went in. *)
Theorem undated_compare_equal_and_keep_order (rt : Runtime) :
  (forall a b : option Item.t,
     parseDate rt a = None \/ parseDate rt b = None ->
     byDateSort rt a b = Num 0)
  /\ (forall (a b : option Item.t) (ta tb : number),
        parseDate rt a = Some ta -> parseDate rt b = Some tb ->
        ta = NaN \/ tb = NaN ->
        byDateSort rt a b = NaN)
  /\ (forall a b : Item.t,
        undated rt a = true \/ undated rt b = true ->
        JsArray.sortCompare (itemCompare rt) a b = 0)
  /\ (forall l : list Item.t,
        (length l < 64)%nat ->
        List.filter (undated rt) (JsArray.sort (itemCompare rt) l)
        = List.filter (undated rt) l).
Proof.
  repeat split.
  - intros a b [H|H]; unfold byDateSort; rewrite H; [reflexivity|].
    now destruct (parseDate rt a).
  - intros a b ta tb Ha Hb [-> | ->]; unfold byDateSort; rewrite Ha, Hb.
    + now destruct tb.
    + reflexivity.
  - intros a b H.
    unfold undated, itemTime, JsArray.sortCompare, itemCompare, byDateSort in *.
    destruct (parseDate rt (Some a)) as [[x|]|],
             (parseDate rt (Some b)) as [[y|]|];
      try reflexivity; destruct H; discriminate.
  - intros l Hshort. apply sort_filter_short; [|exact Hshort].
    intros x y Hx. now apply undated_never_less.
Qed.

Lemma undated_compare_equal_and_keep_order_witness :
  undated Scenario.mixedRuntime Scenario.garbled = true
  /\ byDateSort Scenario.mixedRuntime (Some Scenario.garbled) (Some Scenario.older) = NaN
  /\ byDateSort Scenario.mixedRuntime (Some Scenario.plain) (Some Scenario.older) = Num 0
  /\ JsArray.sortCompare (itemCompare Scenario.mixedRuntime)
       Scenario.garbled Scenario.older = 0
  /\ List.filter (undated Scenario.mixedRuntime)
       (JsArray.sort (itemCompare Scenario.mixedRuntime)
          [Scenario.garbled; Scenario.older; Scenario.plain; Scenario.newer])
     = [Scenario.garbled; Scenario.plain].
Proof.
  pose proof (undated_compare_equal_and_keep_order Scenario.mixedRuntime)
    as (Hmissing & Hinvalid & Hequal & Hstable).
  split; [vm_compute; reflexivity|]. split; [|split; [|split]].
  - apply (Hinvalid _ _ NaN (Num 1577836800000)).
    + vm_compute. reflexivity.
    + vm_compute. reflexivity.
    + left. reflexivity.
  - apply Hmissing. left. vm_compute. reflexivity.
  - apply Hequal. left. vm_compute. reflexivity.
  - rewrite Hstable by (cbn [length]; lia). vm_compute. reflexivity.
Defined.

(** C4, as the specification states it, fails twice.  On the comparator's
    value: a date that does not parse makes a [Date] object, which passes
    the guard, and the difference of the two dates is [NaN], not zero.  On
    the order: of sixty-four entries, thirty-two followed by thirty-two
    newer ones, the engine makes two runs and merges them, and the second
    run goes before the first with its undated entry. *)
Lemma undated_pairs_NaN_and_reordered :
  ~ (forall (rt : Runtime) (a b : Item.t),
       undated rt a = true \/ undated rt b = true ->
       byDateSort rt (Some a) (Some b) = Num 0)
  /\ ~ (forall (rt : Runtime) (l : list Item.t),
          List.filter (undated rt) (JsArray.sort (itemCompare rt) l)
          = List.filter (undated rt) l).
Proof.
  split; intros H.
  - specialize (H Scenario.mixedRuntime Scenario.garbled Scenario.older
                  (or_introl eq_refl)).
    vm_compute in H. discriminate H.
  - specialize (H Scenario.mixedRuntime Scenario.longItems).
    vm_compute in H. discriminate H.
Qed.

(** ** Items dated under [date] or [published] *)

Section TimestampFacts.
Variable rt : Runtime.
Variable config : Config.t.
Variable contents : Contents.t.

Lemma absolutiseLink_timestamp (item : Item.t) :
  Item.timestamp (stateOf (absolutiseLink contents item)) = Item.timestamp item.
Proof.
  unfold absolutiseLink. destruct (Item.link item) as [link|]; [|reflexivity].
  destruct (JsString.truthy (Some link) && lacksScheme link); [|reflexivity].
  now destruct (Contents.link contents).
Qed.

Lemma extractReddit_timestamp (item : Item.t) :
  Item.timestamp (stateOf (extractReddit contents item)) = Item.timestamp item.
Proof.
  unfold extractReddit.
  repeat (match goal with
          | |- context [if ?c then _ else _] => destruct c
          | |- context [match ?x with Some _ => _ | None => _ end] => destruct x
          end; try reflexivity).
Qed.

Lemma applyRedirect_timestamp (item : Item.t) :
  Item.timestamp (stateOf (applyRedirect rt config item)) = Item.timestamp item.
Proof.
  unfold applyRedirect.
  repeat (match goal with
          | |- context [if ?c then _ else _] => destruct c
          | |- context [match ?x with Some _ => _ | None => _ end] => destruct x
          end; try reflexivity).
Qed.

Lemma stateOf_andThen_timestamp (c : completion Item.t)
    (f : Item.t -> completion Item.t) :
  (forall i, Item.timestamp (stateOf (f i)) = Item.timestamp i) ->
  Item.timestamp (stateOf (andThen c f)) = Item.timestamp (stateOf c).
Proof. intros Hf. destruct c; cbn; [apply Hf|reflexivity]. Qed.

Lemma normaliseItem_timestamp (item : Item.t) :
  Item.timestamp (stateOf (normaliseItem rt config contents item))
  = Some (toLocaleDateString rt (newDate rt (dateAttr item))).
Proof.
  unfold normaliseItem.
  rewrite !stateOf_andThen_timestamp;
    auto using absolutiseLink_timestamp, extractReddit_timestamp,
      applyRedirect_timestamp.
Qed.

End TimestampFacts.

(** C9: an item dated only under [date] or [published] is given the display
    timestamp of that date, whether or not the rest of its normalisation
    completes, while [byDateSort] finds no date in it: against any other
    operand, on either side, the comparator of the item sorts and of the
    feed sort returns zero. *)
Theorem date_or_published_only_compares_equal
    (rt : Runtime) (config : Config.t) (contents : Contents.t)
    (item : Item.t) (d : string) (t : Z) :
  Item.isoDate item = None ->
  Item.pubDate item = None ->
  JsString.orElse (Item.date item) (Item.published item) = Some d ->
  Date_parse rt d = Num t ->
  Item.timestamp (stateOf (normaliseItem rt config contents item))
  = Some (toLocaleDateString rt (Num t))
  /\ (forall other : option Item.t,
        byDateSort rt (Some item) other = Num 0
        /\ byDateSort rt other (Some item) = Num 0)
  /\ (forall other : Item.t,
        itemCompare rt item other = Num 0 /\ itemCompare rt other item = Num 0)
  /\ (forall feed other : Contents.t,
        head (Contents.items feed) = Some item ->
        feedCompare rt feed other = Num 0 /\ feedCompare rt other feed = Num 0).
Proof.
  intros Hiso Hpub Hd Ht.
  assert (Hnone : parseDate rt (Some item) = None).
  { unfold parseDate. now rewrite Hiso, Hpub. }
  assert (Hcmp : forall other : option Item.t,
             byDateSort rt (Some item) other = Num 0
             /\ byDateSort rt other (Some item) = Num 0).
  { intros other. unfold byDateSort. rewrite Hnone.
    split; [reflexivity|]. now destruct (parseDate rt other). }
  split; [|split; [exact Hcmp|split]].
  - rewrite normaliseItem_timestamp. unfold dateAttr.
    rewrite Hiso, Hpub. cbn [JsString.orElse JsString.truthy].
    rewrite Hd. cbn [newDate]. now rewrite Ht.
  - intros other. apply Hcmp.
  - intros feed other Hhead. unfold feedCompare. rewrite Hhead.
    split; apply Hcmp.
Qed.

Lemma date_or_published_only_compares_equal_witness :
  Item.timestamp
    (stateOf (normaliseItem Scenario.mixedRuntime Scenario.noConfig
                (Scenario.feedOf "Example" "https://example.com" [])
                Scenario.dateOnly))
  = Some "5/5/2022"
  /\ itemCompare Scenario.mixedRuntime Scenario.dateOnly Scenario.newer = Num 0
  /\ itemCompare Scenario.mixedRuntime Scenario.older Scenario.dateOnly = Num 0.
Proof.
  pose proof (date_or_published_only_compares_equal
                Scenario.mixedRuntime Scenario.noConfig
                (Scenario.feedOf "Example" "https://example.com" [])
                Scenario.dateOnly "2022-05-05" 1651708800000
                eq_refl eq_refl eq_refl eq_refl) as (Hts & _ & Hitems & _).
  split; [exact Hts|].
  split; [apply (Hitems Scenario.newer)|apply (Hitems Scenario.older)].
Defined.

(** ** Strings *)

Section StringFacts.

Lemma length_append (x y : string) :
  String.length (x +:+ y) = (String.length x + String.length y)%nat.
Proof. induction x as [|c x IH]; simpl; [reflexivity|now rewrite IH]. Qed.

Lemma append_cons (c : ascii) (x y : string) :
  String c x +:+ y = String c (x +:+ y).
Proof. reflexivity. Qed.

Lemma append_assoc (x y z : string) : (x +:+ y) +:+ z = x +:+ y +:+ z.
Proof.
  induction x as [|c x IH]; [reflexivity|]. now rewrite !append_cons, IH.
Qed.

Lemma length_substring0 (n : nat) (s : string) :
  (n <= String.length s)%nat -> String.length (String.substring 0 n s) = n.
Proof.
  revert s. induction n as [|n IH]; intros s Hn.
  - now destruct s.
  - destruct s as [|c s]; simpl in *; [lia|]. rewrite IH; [reflexivity|lia].
Qed.

Lemma substring0_append (x y : string) :
  String.substring 0 (String.length x) (x +:+ y) = x.
Proof.
  induction x as [|c x IH]; [now destruct y|].
  rewrite append_cons. simpl. now rewrite IH.
Qed.

Lemma substring_append_r (x y : string) (m : nat) :
  String.substring (String.length x) m (x +:+ y) = String.substring 0 m y.
Proof.
  induction x as [|c x IH]; [reflexivity|]. rewrite append_cons. exact IH.
Qed.

Lemma prefix_substring0 (n : nat) (s : string) :
  String.prefix (String.substring 0 n s) s = true.
Proof.
  revert s. induction n as [|n IH]; intros s.
  - now destruct s.
  - destruct s as [|c s]; simpl; [reflexivity|].
    destruct (ascii_dec c c); [apply IH|congruence].
Qed.

Lemma endsWith_append (x suf : string) :
  JsString.endsWith (x +:+ suf) suf = true.
Proof.
  unfold JsString.endsWith. rewrite length_append.
  replace (String.length x + String.length suf - String.length suf)%nat
    with (String.length x) by lia.
  rewrite substring_append_r. apply andb_true_intro. split.
  - apply Nat.leb_le. lia.
  - apply String.eqb_eq. clear x.
    induction suf as [|c suf IH]; simpl; [reflexivity|now rewrite IH].
Qed.

End StringFacts.

(** ** Titles *)

Lemma emptyItemsTest_false (items : list Item.t) : emptyItemsTest items = false.
Proof. reflexivity. Qed.

Lemma acceptContents_pushes (rt : Runtime) (config : Config.t) (url : string)
    (contents : Contents.t) (acc : Accum) (title : string) :
  fallbackTitle contents = Some title ->
  exists items,
    accFeeds (acceptContents rt config url contents acc)
    = accFeeds acc
      ++ [Contents.set_items items
            (Contents.set_title (Some (truncateTitle title))
               (Contents.set_feed (Some url) contents))].
Proof.
  intros Htitle. unfold acceptContents. rewrite emptyItemsTest_false.
  change (fallbackTitle (Contents.set_feed (Some url) contents))
    with (fallbackTitle contents).
  rewrite Htitle. cbv zeta.
  destruct (forEach _ _) as [items|items]; exists items; reflexivity.
Qed.

(** C6: the title stored with a feed is the parsed one when that has at most
    100 characters; a longer one is stored as its first 97 characters
    followed by three dots, 100 characters in all. *)
Theorem long_title_truncated
    (rt : Runtime) (config : Config.t) (url : string) (contents : Contents.t)
    (acc : Accum) (title : string) :
  fallbackTitle contents = Some title ->
  (exists feed,
      accFeeds (acceptContents rt config url contents acc) = accFeeds acc ++ [feed]
      /\ Contents.title feed = Some (truncateTitle title))
  /\ ((100 < String.length title)%nat ->
        String.length (truncateTitle title) = 100%nat
        /\ JsString.endsWith (truncateTitle title) "..." = true
        /\ JsString.substring0 97 (truncateTitle title)
           = JsString.substring0 97 title
        /\ String.prefix (JsString.substring0 97 (truncateTitle title)) title
           = true)
  /\ ((String.length title <= 100)%nat -> truncateTitle title = title).
Proof.
  intros Htitle. split; [|split].
  - destruct (acceptContents_pushes rt config url contents acc title Htitle)
      as [items ->].
    eexists. split; reflexivity.
  - intros Hlong. unfold truncateTitle, JsString.substring0.
    apply Nat.ltb_lt in Hlong as Htest. rewrite Htest.
    assert (Hlen : String.length (String.substring 0 97 title) = 97%nat)
      by (apply length_substring0; lia).
    assert (Hpre : String.substring 0 97 (String.substring 0 97 title +:+ "...")
                   = String.substring 0 97 title).
    { rewrite <- Hlen at 1. apply substring0_append. }
    repeat split.
    + rewrite length_append, Hlen. reflexivity.
    + apply endsWith_append.
    + exact Hpre.
    + rewrite Hpre. apply prefix_substring0.
  - intros Hshort. unfold truncateTitle.
    destruct (100 <? String.length title)%nat eqn:Htest; [|reflexivity].
    apply Nat.ltb_lt in Htest. lia.
Qed.

Lemma long_title_truncated_witness :
  String.length Scenario.longTitle = 150%nat
  /\ truncateTitle Scenario.longTitle
     = JsString.substring0 97 Scenario.longTitle +:+ "..."
  /\ String.length (truncateTitle Scenario.longTitle) = 100%nat
  /\ truncateTitle "Example" = "Example".
Proof.
  pose proof (long_title_truncated Scenario.mixedRuntime Scenario.noConfig
                "https://example.com/feed"
                (Scenario.feedOf Scenario.longTitle "https://example.com" [])
                (mkAccum [] [] []) Scenario.longTitle eq_refl)
    as (_ & Hlong & _).
  pose proof (long_title_truncated Scenario.mixedRuntime Scenario.noConfig
                "https://example.com/feed"
                (Scenario.feedOf "Example" "https://example.com" [])
                (mkAccum [] [] []) "Example" eq_refl)
    as (_ & _ & Hshort).
  split; [reflexivity|]. split; [reflexivity|]. split.
  - apply Hlong. vm_compute. lia.
  - apply Hshort. vm_compute. lia.
Defined.

(** ** Links *)

Section LinkFacts.

Lemma split_go_length_1 (sep : string) (s cur : string) :
  sep <> EmptyString ->
  (length (JsString.split_go sep O cur s) =? 1)%nat
  = negb (JsString.includes s sep).
Proof.
  intros Hsep. revert cur. induction s as [|c s IH]; intros cur.
  - destruct sep; [congruence|reflexivity].
  - cbn [JsString.split_go JsString.includes].
    destruct (String.prefix sep (String c s)) eqn:Hpre.
    + cbn [length orb negb].
      destruct (JsString.split_go sep (String.length sep - 1) EmptyString s) eqn:Hrest;
        [|reflexivity].
      exfalso. clear -Hrest.
      revert Hrest. generalize (String.length sep - 1)%nat, EmptyString.
      induction s as [|d s IHs]; intros k cur; [discriminate|].
      cbn [JsString.split_go]. destruct k; [|apply IHs].
      destruct (String.prefix sep (String d s)); [discriminate|apply IHs].
    + cbn [orb]. apply IH.
Qed.

Lemma lacksScheme_includes (link : string) :
  lacksScheme link = negb (JsString.includes link "http").
Proof. apply split_go_length_1. discriminate. Qed.

Lemma sliceLast_append_1 (b : string) (c : ascii) :
  JsString.sliceLast (b +:+ String c EmptyString) = String c EmptyString.
Proof.
  unfold JsString.sliceLast. rewrite length_append. cbn [String.length].
  replace (String.length b + 1 - 1)%nat with (String.length b) by lia.
  now rewrite substring_append_r.
Qed.

Lemma endsWith_sliceLast (base : string) :
  JsString.endsWith base "/" = String.eqb (JsString.sliceLast base) "/".
Proof.
  unfold JsString.endsWith, JsString.sliceLast. cbn [String.length].
  destruct base as [|c base]; [reflexivity|].
  replace (1 <=? String.length (String c base))%nat with true; [reflexivity|].
  symmetry. apply Nat.leb_le. cbn [String.length]. lia.
Qed.

Lemma startsWith_sliceFirst (link : string) :
  JsString.startsWith link "/" = String.eqb (JsString.sliceFirst link) "/".
Proof.
  unfold JsString.startsWith, JsString.sliceFirst.
  destruct (String.eqb_spec (String.substring 0 1 link) "/") as [H|H].
  - apply String.prefix_correct. exact H.
  - destruct (String.prefix "/" link) eqn:E; [|reflexivity].
    apply String.prefix_correct in E. contradiction.
Qed.

Lemma joinLink_shared_separator (b l : string) :
  joinLink (b +:+ "/") (String JsString.slash l) = b +:+ "/" +:+ l.
Proof.
  unfold joinLink. rewrite sliceLast_append_1.
  replace (JsString.sliceFirst (String JsString.slash l)) with "/"
    by (unfold JsString.sliceFirst; cbn [String.substring]; now destruct l).
  cbn [JsString.sliceFrom1]. apply append_assoc.
Qed.

Lemma joinLink_plain (base link : string) :
  JsString.endsWith base "/" && JsString.startsWith link "/" = false ->
  joinLink base link = base +:+ link.
Proof.
  rewrite endsWith_sliceLast, startsWith_sliceFirst. unfold joinLink.
  now intros ->.
Qed.

End LinkFacts.

(** C7 fails on a link without scheme that has [http] in it, and on a link
    whose scheme is not a web one: the feed at [https://example.com] lists
    [/docs/http-caching], which the build leaves relative, and
    [ftp://files.example.com/a.txt], which it prefixes with the feed's
    link. *)
Theorem link_scheme_read_off_http :
  map Item.link
    (allItems (build Scenario.linksRuntime Scenario.noConfig
                 Scenario.mixedFeeds Scenario.noCache))
  = [Some "/docs/http-caching";
     Some "https://example.comftp://files.example.com/a.txt"].
Proof. vm_compute. reflexivity. Qed.

(** X23: the test the code makes is on the substring [http]: an item link
    without it becomes the feed's link followed by the item's link, less one
    of the two slashes when the first ends and the second starts with one;
    an item link with [http] anywhere in it is left as it is. *)
Theorem relative_link_absolutised
    (contents : Contents.t) (item : Item.t) (base link : string) :
  Contents.link contents = Some base ->
  Item.link item = Some link ->
  link <> EmptyString ->
  (JsString.includes link "http" = false ->
     absolutiseLink contents item
     = Normal (Item.set_link (Some (joinLink base link)) item)
     /\ (forall b l : string,
           base = b +:+ "/" -> link = String JsString.slash l ->
           joinLink base link = b +:+ "/" +:+ l)
     /\ (JsString.endsWith base "/" && JsString.startsWith link "/" = false ->
         joinLink base link = base +:+ link))
  /\ (JsString.includes link "http" = true ->
        absolutiseLink contents item = Normal item).
Proof.
  intros Hbase Hlink Hne.
  assert (Htruthy : JsString.truthy (Some link) = true)
    by (destruct link; [congruence|reflexivity]).
  unfold absolutiseLink. rewrite Hlink, Htruthy, lacksScheme_includes, Hbase.
  split.
  - intros ->. cbn [negb andb]. split; [reflexivity|]. split.
    + intros b l -> ->. apply joinLink_shared_separator.
    + apply joinLink_plain.
  - intros ->. reflexivity.
Qed.

Lemma relative_link_absolutised_witness :
  absolutiseLink (Scenario.feedOf "Example" "https://example.com/" [])
    (Scenario.entry "post" "/post/1" None)
  = Normal (Scenario.entry "post" "https://example.com/post/1" None)
  /\ absolutiseLink (Scenario.feedOf "Example" "https://example.com" [])
       (Scenario.entry "post" "/post/1" None)
     = Normal (Scenario.entry "post" "https://example.com/post/1" None)
  /\ absolutiseLink (Scenario.feedOf "Example" "https://example.com/" [])
       (Scenario.entry "post" "https://other.example/post/1" None)
     = Normal (Scenario.entry "post" "https://other.example/post/1" None).
Proof.
  split; [|split].
  - apply (relative_link_absolutised
             (Scenario.feedOf "Example" "https://example.com/" [])
             (Scenario.entry "post" "/post/1" None)
             "https://example.com/" "/post/1" eq_refl eq_refl);
      [discriminate|reflexivity].
  - apply (relative_link_absolutised
             (Scenario.feedOf "Example" "https://example.com" [])
             (Scenario.entry "post" "/post/1" None)
             "https://example.com" "/post/1" eq_refl eq_refl);
      [discriminate|reflexivity].
  - apply (relative_link_absolutised
             (Scenario.feedOf "Example" "https://example.com/" [])
             (Scenario.entry "post" "https://other.example/post/1" None)
             "https://example.com/" "https://other.example/post/1"
             eq_refl eq_refl);
      [discriminate|reflexivity].
Defined.

(** ** Redirects *)

Lemma secondLevelToken_labels (hostname : string) (labels : list string)
    (token tld : string) :
  JsString.split hostname "." = labels ++ [token; tld] ->
  secondLevelToken hostname = Some token.
Proof.
  intros Hsplit. unfold secondLevelToken. rewrite Hsplit.
  rewrite length_app. cbn [length].
  replace (length labels + 2 <? 2)%nat with false
    by (symmetry; apply Nat.ltb_ge; lia).
  replace (length labels + 2 - 2)%nat with (length labels) by lia.
  rewrite lookup_app_r by lia.
  now replace (length labels - length labels)%nat with 0%nat by lia.
Qed.

(** C8 fails on a token that names a member every object inherits: with the
    table of the specification's example, which has no entry for
    [constructor], the build rewrites the host of
    [https://constructor.com/post/1] to the source text of the [Object]
    function. *)
Theorem redirect_finds_inherited_member :
  Scenario.redditTable !! "constructor" = None
  /\ map Item.link
       (allItems (build Scenario.inheritedRuntime Scenario.redirectConfig
                    Scenario.mixedFeeds Scenario.noCache))
     = [Some "https://function Object() { [native code] }/post/1"].
Proof. split; vm_compute; reflexivity. Qed.

(** X24: with a redirect table configured and an item link that parses,
    where [token] is the host label just before the last one: when the
    table maps [token] to a replacement, the link becomes [https://] plus
    the replacement plus the path and the query of the old link; when the
    table has no entry for [token] and [token] names no member of
    [Object.prototype], the link is unchanged. *)
Theorem redirect_rewrites_hostname
    (rt : Runtime) (config : Config.t) (item : Item.t)
    (table : gmap string string) (url : URL.t)
    (labels : list string) (token tld : string) :
  Config.redirects config = Some table ->
  URL_parse rt (JsString.toString (Item.link item)) = Some url ->
  JsString.split (URL.hostname url) "." = labels ++ [token; tld] ->
  (forall target : string,
     table !! token = Some target -> target <> EmptyString ->
     applyRedirect rt config item
     = Normal (Item.set_link
                 (Some ("https://" +:+ target +:+ URL.pathname url
                        +:+ URL.search url)) item))
  /\ (table !! token = None -> ObjectPrototype.inherited token = None ->
      applyRedirect rt config item = Normal item).
Proof.
  intros Hcfg Hurl Hsplit. unfold applyRedirect. rewrite Hcfg, Hurl.
  rewrite (secondLevelToken_labels _ _ _ _ Hsplit). cbn [JsString.toString].
  unfold ObjectPrototype.get. split.
  - intros target -> Hne. destruct target; [congruence|reflexivity].
  - intros -> ->. reflexivity.
Qed.

Lemma redirect_rewrites_hostname_witness :
  applyRedirect Scenario.mixedRuntime Scenario.redirectConfig Scenario.redditPost
  = Normal (Scenario.entry "post" "https://old.reddit.com/r/foo/comments/1?x=2" None)
  /\ Sample.parseURL "https://old.reddit.com/r/foo/comments/1?x=2"
     = Some (URL.mk "old.reddit.com" "/r/foo/comments/1" "?x=2")
  /\ applyRedirect Scenario.mixedRuntime Scenario.redirectConfig Scenario.otherPost
     = Normal Scenario.otherPost.
Proof.
  split; [|split].
  - destruct (redirect_rewrites_hostname Scenario.mixedRuntime
                Scenario.redirectConfig Scenario.redditPost Scenario.redditTable
                (URL.mk "www.reddit.com" "/r/foo/comments/1" "?x=2")
                ["www"] "reddit" "com" eq_refl) as [Hrewrite _].
    + vm_compute. reflexivity.
    + vm_compute. reflexivity.
    + apply (Hrewrite "old.reddit.com"); [vm_compute; reflexivity|discriminate].
  - vm_compute. reflexivity.
  - destruct (redirect_rewrites_hostname Scenario.mixedRuntime
                Scenario.redirectConfig Scenario.otherPost Scenario.redditTable
                (URL.mk "example.com" "/post/1" EmptyString)
                [] "example" "com" eq_refl) as [_ Hkeep].
    + vm_compute. reflexivity.
    + vm_compute. reflexivity.
    + apply Hkeep; vm_compute; reflexivity.
Defined.

(** ** Failures *)

(** C10: a settled response without [content-type] header is recorded as an
    error of its url and contributes nothing else, whatever the url, and
    the loop goes on with the results that follow it. *)
Theorem missing_content_type_is_recorded
    (rt : Runtime) (config : Config.t) (url : string) (response : Response.t)
    (rest : list Settled) (acc : Accum) :
  Response.contentType response = None ->
  fold_left (processResult rt config) (Fulfilled url response :: rest) acc
  = fold_left (processResult rt config) rest
      (mkAccum (accAllItems acc) (accErrors acc ++ [url]) (accFeeds acc)).
Proof.
  intros Hheader. cbn [fold_left processResult].
  unfold processResponse. now rewrite Hheader.
Qed.

Lemma missing_content_type_is_recorded_witness :
  fold_left (processResult Scenario.partialRuntime Scenario.noConfig)
    [Fulfilled "https://c.example/feed.xml" Scenario.bare;
     Fulfilled "https://c.example/feed" (Scenario.xml "single")]
    (mkAccum [] [] [])
  = mkAccum
      [Item.set_timestamp (Some "3/3/2023") Scenario.only]
      ["https://c.example/feed.xml"]
      [Contents.mk None (Some "Single") None None (Some "https://c.example")
         [Item.set_timestamp (Some "3/3/2023") Scenario.only]
         (Some "https://c.example/feed")].
Proof.
  rewrite (missing_content_type_is_recorded Scenario.partialRuntime
             Scenario.noConfig "https://c.example/feed.xml" Scenario.bare
             [Fulfilled "https://c.example/feed" (Scenario.xml "single")]
             (mkAccum [] [] []) eq_refl).
  vm_compute. reflexivity.
Defined.



(** A source that fails before its feed is pushed leaves nothing but its
    url among the errors: a rejected fetch, a content type and url that
    are not accepted, a body the parser rejects, a feed without any title. *)
Lemma early_failure_only_records_error (rt : Runtime) (config : Config.t)
    (result : Settled) (acc : Accum) :
  match result with
  | Rejected _ => True
  | Fulfilled url response =>
      match Response.contentType response with
      | None => True
      | Some header =>
          (contentTypeListed (head (JsString.split header ";")) = false
           /\ isRSSExtension url = false)
          \/ match parseString rt (Response.text response) with
             | None => True
             | Some contents => fallbackTitle contents = None
             end
      end
  end ->
  processResult rt config acc result
  = recordError
      match result with Rejected url => url | Fulfilled url _ => url end acc.
Proof.
  destruct result as [url|url response]; [reflexivity|].
  cbn [processResult]. unfold processResponse.
  destruct (Response.contentType response) as [header|]; [|reflexivity].
  intros [[-> ->]|Hparse]; [reflexivity|].
  destruct (negb _ && negb _); [reflexivity|].
  destruct (parseString rt (Response.text response)) as [contents|];
    [|reflexivity].
  unfold acceptContents. rewrite emptyItemsTest_false.
  change (fallbackTitle (Contents.set_feed (Some url) contents))
    with (fallbackTitle contents).
  now rewrite Hparse.
Qed.


Section ThreeSources.
Variable rt : Runtime.
Variable config : Config.t.
Variables uBad uNet uOk : string.
Variables rBad rOk : Response.t.
Variables hBad hOk : string.
Variable contents : Contents.t.
Variables raw item : Item.t.
Variable title : string.

Hypothesis fetch_bad : fetch rt uBad = Some rBad.
Hypothesis header_bad : Response.contentType rBad = Some hBad.
Hypothesis type_bad : contentTypeListed (head (JsString.split hBad ";")) = false.
Hypothesis extension_bad : isRSSExtension uBad = false.
Hypothesis fetch_net : fetch rt uNet = None.
Hypothesis fetch_ok : fetch rt uOk = Some rOk.
Hypothesis header_ok : Response.contentType rOk = Some hOk.
Hypothesis type_ok : contentTypeListed (head (JsString.split hOk ";")) = true.
Hypothesis parse_ok : parseString rt (Response.text rOk) = Some contents.
Hypothesis items_ok : Contents.items contents = [raw].
Hypothesis title_ok : fallbackTitle contents = Some title.
Hypothesis normalise_ok :
  normaliseItem rt config
    (Contents.set_title (Some (truncateTitle title))
       (Contents.set_feed (Some uOk) contents)) raw = Normal item.

Let feed : Contents.t :=
  Contents.set_items [item]
    (Contents.set_title (Some (truncateTitle title))
       (Contents.set_feed (Some uOk) contents)).





End ThreeSources.



(** C2 against the code: the test on the number of items compares a boolean
    with zero and never holds, so a feed parsed with no items is pushed to
    its group and no error is recorded for its url. *)
Theorem empty_feed_is_accepted :
  (forall items : list Item.t, emptyItemsTest items = false)
  /\ build Scenario.emptyRuntime Scenario.noConfig Scenario.emptyFeeds
       Scenario.noCache
     = mkOutput []
         [("news",
           [Contents.mk None (Some "Empty") None None
              (Some "https://empty.example") []
              (Some "https://empty.example/feed")])]
         [].
Proof. split; [apply emptyItemsTest_false|vm_compute; reflexivity]. Qed.

(** C3 against the code: the feed is pushed to its group before its items
    are normalised.  When the extraction of a subreddit entry throws, the
    url is recorded as an error and nothing reaches [allItems], but the
    feed stays in its group, with its items as the loop left them. *)
Theorem failed_normalisation_leaves_feed_in_group :
  build Scenario.redditRuntime Scenario.noConfig Scenario.redditFeeds
    Scenario.noCache
  = mkOutput []
      [("forums",
        [Contents.set_feed (Some "https://www.reddit.com/r/rocq/.rss")
           (Contents.set_items
              [Item.set_timestamp (Some "2/2/2024") Scenario.linkPost;
               Item.set_timestamp (Some "1/1/2024") Scenario.textPost]
              Scenario.subreddit)])]
      ["https://www.reddit.com/r/rocq/.rss"].
Proof. vm_compute. reflexivity. Qed.

(** The extraction on an entry that has its three anchors: the link is the
    address of the second, the comments that of the third. *)
Example extractReddit_reads_anchors :
  extractReddit Scenario.subreddit Scenario.threadPost
  = Normal (Item.set_comments (Some "https://www.reddit.com/r/rocq/comments/3/")
              (Item.set_link (Some "https://rocq-prover.org/")
                 Scenario.threadPost)).
Proof. vm_compute. reflexivity. Qed.

(** ** What normalisation keeps *)

Section NormalisationFacts.
Variable rt : Runtime.
Variable config : Config.t.
Variable contents : Contents.t.

Lemma sameEntry_refl (a : Item.t) : sameEntry a a.
Proof. repeat split. Qed.

Lemma sameEntry_trans (a b c : Item.t) :
  sameEntry a b -> sameEntry b c -> sameEntry a c.
Proof.
  unfold sameEntry. intros (?&?&?&?&?&?&?) (?&?&?&?&?&?&?).
  repeat split; congruence.
Qed.

Lemma sameEntry_andThen (c : completion Item.t)
    (f : Item.t -> completion Item.t) :
  (forall i, sameEntry i (stateOf (f i))) ->
  sameEntry (stateOf c) (stateOf (andThen c f)).
Proof. intros Hf. destruct c; cbn; [apply Hf|apply sameEntry_refl]. Qed.

Lemma absolutiseLink_sameEntry (item : Item.t) :
  sameEntry item (stateOf (absolutiseLink contents item)).
Proof.
  unfold absolutiseLink. destruct (Item.link item) as [link|]; [|repeat split].
  destruct (JsString.truthy (Some link) && lacksScheme link); [|repeat split].
  destruct (Contents.link contents); repeat split.
Qed.

Lemma extractReddit_sameEntry (item : Item.t) :
  sameEntry item (stateOf (extractReddit contents item)).
Proof.
  unfold extractReddit.
  repeat (match goal with
          | |- context [if ?c then _ else _] => destruct c
          | |- context [match ?x with Some _ => _ | None => _ end] => destruct x
          end; try (repeat split; fail)).
Qed.

Lemma applyRedirect_sameEntry (item : Item.t) :
  sameEntry item (stateOf (applyRedirect rt config item)).
Proof.
  unfold applyRedirect.
  repeat (match goal with
          | |- context [if ?c then _ else _] => destruct c
          | |- context [match ?x with Some _ => _ | None => _ end] => destruct x
          end; try (repeat split; fail)).
Qed.

Lemma normaliseItem_sameEntry (item : Item.t) :
  sameEntry item (stateOf (normaliseItem rt config contents item)).
Proof.
  unfold normaliseItem.
  eapply sameEntry_trans;
    [|apply sameEntry_andThen, applyRedirect_sameEntry].
  eapply sameEntry_trans;
    [|apply sameEntry_andThen, extractReddit_sameEntry].
  eapply sameEntry_trans;
    [|apply sameEntry_andThen, absolutiseLink_sameEntry].
  repeat split.
Qed.

Lemma sameEntry_parseDate (a b : Item.t) :
  sameEntry a b -> parseDate rt (Some a) = parseDate rt (Some b).
Proof.
  intros (_ & Hpub & Hiso & _). unfold parseDate. now rewrite Hpub, Hiso.
Qed.

Lemma sameEntry_ordered (a b a' b' : Item.t) :
  sameEntry a a' -> sameEntry b b' ->
  JsArray.ordered (itemCompare rt) a b -> JsArray.ordered (itemCompare rt) a' b'.
Proof.
  intros Ha Hb.
  unfold JsArray.ordered, JsArray.mustFollow, JsArray.sortCompare,
    itemCompare, byDateSort.
  now rewrite (sameEntry_parseDate _ _ Ha), (sameEntry_parseDate _ _ Hb).
Qed.

End NormalisationFacts.

Section ForEachFacts.
Context {A : Type}.
Variable f : A -> completion A.

Lemma forEach_Forall2 (R : A -> A -> Prop) (l : list A) :
  (forall x, R x x) -> (forall x, R x (stateOf (f x))) ->
  Forall2 R l (stateOf (forEach f l)).
Proof.
  intros Hrefl Hstep. induction l as [|x l IH]; [constructor|].
  cbn [forEach]. pose proof (Hstep x) as Hx.
  destruct (f x) as [x'|x']; cbn in Hx.
  - destruct (forEach f l) as [r|r]; cbn in *; constructor; assumption.
  - cbn. constructor; [assumption|]. clear -Hrefl.
    induction l; constructor; auto.
Qed.

Lemma forEach_Normal (l r : list A) :
  forEach f l = Normal r -> Forall2 (fun x y => f x = Normal y) l r.
Proof.
  revert r. induction l as [|x l IH]; intros r; cbn [forEach].
  - intros [= <-]. constructor.
  - destruct (f x) as [x'|x'] eqn:Hx; [|discriminate].
    destruct (forEach f l) as [r'|r']; [|discriminate].
    intros [= <-]. constructor; [exact Hx|]. now apply IH.
Qed.

End ForEachFacts.

Lemma Sorted_Forall2 {A : Type} (R S : A -> A -> Prop) (l l' : list A) :
  (forall a b a' b', S a a' -> S b b' -> R a b -> R a' b') ->
  Forall2 S l l' -> Sorted R l -> Sorted R l'.
Proof.
  intros Hmove Hll. induction Hll as [|x x' l l' Hx Hl IH]; intros Hsorted.
  { constructor. }
  apply Sorted_inv in Hsorted as [Hs Hhd]. constructor; [now apply IH|].
  destruct Hl as [|y y' l l' Hy Hl]; constructor.
  apply (Hmove x y x' y' Hx Hy). now inversion Hhd.
Qed.

Lemma truncateTitle_length_le (title : string) :
  (String.length (truncateTitle title) <= 100)%nat.
Proof.
  unfold truncateTitle, JsString.substring0.
  destruct (100 <? String.length title)%nat eqn:Htest.
  - apply Nat.ltb_lt in Htest.
    rewrite length_append, length_substring0 by lia. cbn. lia.
  - apply Nat.ltb_ge in Htest. exact Htest.
Qed.

(** ** The build as a sequence of contributions *)

Section RunFacts.
Variable rt : Runtime.
Variable config : Config.t.

Lemma recordError_addDelta (url : string) (acc : Accum) :
  recordError url acc = addDelta acc (mkDelta [] [url] []).
Proof. unfold recordError, addDelta. cbn. now rewrite !app_nil_r. Qed.

Lemma normaliseItem_Normal_timestamped (contents : Contents.t)
    (item item' : Item.t) :
  normaliseItem rt config contents item = Normal item' -> timestamped item'.
Proof.
  intros Hnorm. pose proof (normaliseItem_timestamp rt config contents item) as H.
  rewrite Hnorm in H. cbn in H. unfold timestamped. now rewrite H.
Qed.

Lemma acceptContents_contributes (url : string) (contents : Contents.t)
    (acc : Accum) :
  exists d, contributes rt url d
            /\ acceptContents rt config url contents acc = addDelta acc d.
Proof.
  unfold acceptContents. rewrite emptyItemsTest_false.
  change (fallbackTitle (Contents.set_feed (Some url) contents))
    with (fallbackTitle contents).
  destruct (fallbackTitle contents) as [title|].
  2:{ eexists. split; [apply contributes_error|apply recordError_addDelta]. }
  cbv zeta.
  set (titled := Contents.set_title (Some (truncateTitle title))
                   (Contents.set_feed (Some url) contents)).
  set (sorted := JsArray.sort (itemCompare rt) (Contents.items titled)).
  assert (Hfeed : feedOfSource rt url
            (Contents.set_items
               (stateOf (forEach (normaliseItem rt config titled) sorted))
               titled)).
  { split; [reflexivity|]. split.
    - exists (truncateTitle title). split; [reflexivity|].
      apply truncateTitle_length_le.
    - cbn [Contents.items Contents.set_items].
      apply (Sorted_Forall2 _ sameEntry sorted).
      + intros a b a' b'. apply sameEntry_ordered.
      + apply forEach_Forall2;
          [apply sameEntry_refl|apply normaliseItem_sameEntry].
      + apply sort_Sorted, itemCompare_flip. }
  destruct (forEach (normaliseItem rt config titled) sorted) as [items|items]
    eqn:Hloop; cbn [stateOf] in Hfeed.
  - exists (mkDelta items [] [Contents.set_items items titled]). split.
    + apply (contributes_feed rt url (Contents.set_items items titled) Hfeed).
      cbn [Contents.items Contents.set_items].
      apply forEach_Normal in Hloop. clear Hfeed.
      induction Hloop as [|x y l r Hxy Hlr IH]; [constructor|].
      constructor; [|exact IH].
      exact (normaliseItem_Normal_timestamped _ _ _ Hxy).
    + unfold addDelta. cbn. now rewrite app_nil_r.
  - exists (mkDelta [] [url] [Contents.set_items items titled]). split.
    + apply contributes_stranded, Hfeed.
    + unfold addDelta. cbn. now rewrite app_nil_r.
Qed.

Lemma processResult_contributes (result : Settled) (acc : Accum) :
  exists d, contributes rt (urlOf result) d
            /\ processResult rt config acc result = addDelta acc d.
Proof.
  destruct result as [url|url response]; cbn [processResult urlOf].
  { eexists. split; [apply contributes_error|apply recordError_addDelta]. }
  unfold processResponse.
  destruct (Response.contentType response) as [header|].
  2:{ eexists. split; [apply contributes_error|apply recordError_addDelta]. }
  cbv zeta. destruct (negb _ && negb _).
  { eexists. split; [apply contributes_error|apply recordError_addDelta]. }
  destruct (parseString rt (Response.text response)) as [contents|].
  2:{ eexists. split; [apply contributes_error|apply recordError_addDelta]. }
  apply acceptContents_contributes.
Qed.

Lemma group_fold_run (urls : list string) (acc : Accum) :
  exists d, groupRun rt urls d
            /\ fold_left (processResult rt config) (settleAll rt urls) acc
               = addDelta acc d.
Proof.
  revert acc. induction urls as [|url urls IH]; intros acc.
  { exists (mkDelta [] [] []). split; [constructor|].
    unfold addDelta. cbn. rewrite !app_nil_r. now destruct acc. }
  cbn [settleAll map fold_left].
  destruct (processResult_contributes
              match fetch rt url with
              | Some response => Fulfilled url response
              | None => Rejected url
              end acc) as (d & Hd & ->).
  assert (Hurl : urlOf match fetch rt url with
                       | Some response => Fulfilled url response
                       | None => Rejected url
                       end = url) by now destruct (fetch rt url).
  rewrite Hurl in Hd.
  destruct (IH (addDelta acc d)) as (ds & Hds & Hfold).
  eexists. split; [exact (groupRun_cons rt url urls d ds Hd Hds)|].
  unfold settleAll in Hfold. rewrite Hfold. unfold addDelta. cbn.
  now rewrite <- !app_assoc.
Qed.

Lemma collect_fold_run (feeds : list (string * list string))
    (items0 : list Item.t) (errs0 : list string)
    (gs0 : list (string * list Contents.t)) :
  exists items errs gs,
    buildRun rt feeds items errs gs
    /\ fold_left (processGroup rt config) feeds (items0, errs0, gs0)
       = (items0 ++ items, errs0 ++ errs, gs0 ++ gs).
Proof.
  revert items0 errs0 gs0.
  induction feeds as [|[name urls] feeds IH]; intros items0 errs0 gs0.
  { exists [], [], []. split; [constructor|]. cbn. now rewrite !app_nil_r. }
  cbn [fold_left processGroup fst snd].
  destruct (group_fold_run urls (mkAccum items0 errs0 [])) as (d & Hd & ->).
  cbn [addDelta accAllItems accErrors accFeeds app].
  destruct (IH (items0 ++ dItems d) (errs0 ++ dErrors d)
              (gs0 ++ [(name, dFeeds d)])) as (items & errs & gs & Hrun & ->).
  exists (dItems d ++ items), (dErrors d ++ errs), ((name, dFeeds d) :: gs).
  split; [now constructor|].
  now rewrite <- !app_assoc.
Qed.

Lemma collect_run (feeds : list (string * list string)) (cache : Cache.t) :
  exists items errs gs,
    buildRun rt feeds items errs gs
    /\ collect rt config feeds cache
       = (default [] (Cache.allItems cache) ++ items, errs, gs).
Proof.
  destruct (collect_fold_run feeds (default [] (Cache.allItems cache)) [] [])
    as (items & errs & gs & Hrun & Heq).
  exists items, errs, gs. split; [exact Hrun|exact Heq].
Qed.

Lemma build_collect (feeds : list (string * list string)) (cache : Cache.t) :
  build rt config feeds cache
  = let '(items, errs, groupContents) := collect rt config feeds cache in
    mkOutput
      (JsArray.sort (itemCompare rt) items)
      (map (fun g => (fst g, JsArray.sort (feedCompare rt) (snd g)))
         (default groupContents (Cache.groups cache)))
      errs.
Proof. reflexivity. Qed.

Lemma build_run (feeds : list (string * list string)) (cache : Cache.t) :
  exists items errs gs,
    buildRun rt feeds items errs gs
    /\ build rt config feeds cache
       = mkOutput
           (JsArray.sort (itemCompare rt)
              (default [] (Cache.allItems cache) ++ items))
           (map (fun g => (fst g, JsArray.sort (feedCompare rt) (snd g)))
              (default gs (Cache.groups cache)))
           errs.
Proof.
  destruct (collect_run feeds cache) as (items & errs & gs & Hrun & Heq).
  exists items, errs, gs. split; [exact Hrun|].
  now rewrite build_collect, Heq.
Qed.

End RunFacts.

(** ** Sorting again *)

Section SortAgain.
Context {A : Type}.
Variable comparefn : A -> A -> number.

(** Descending order in runs, from the order of neighbours. *)
Lemma Sorted_descendingInRuns (time : A -> option Z) (l : list A) :
  (forall a b ta tb, JsArray.ordered comparefn a b ->
     time a = Some ta -> time b = Some tb -> tb <= ta) ->
  Sorted (JsArray.ordered comparefn) l -> descendingInRuns time l.
Proof.
  intros Hkey Hsorted.
  assert (H : forall i j a b ta tb,
             (i <= j)%nat -> l !! i = Some a -> l !! j = Some b ->
             time a = Some ta -> time b = Some tb ->
             (forall k c, (i <= k <= j)%nat -> l !! k = Some c ->
                time c <> None) ->
             tb <= ta).
  { induction Hsorted as [|x l Hl IH Hhd];
      intros i j a b ta tb Hij Hi Hj Ha Hb Hrun; [discriminate|].
    destruct i as [|i].
    - cbn in Hi. injection Hi as ->. destruct j as [|j].
      + cbn in Hj. injection Hj as ->. rewrite Ha in Hb. injection Hb as ->. lia.
      + cbn in Hj. destruct Hhd as [|y l Hxy]; [discriminate|].
        destruct (time y) as [ty|] eqn:Hty.
        2:{ exfalso. apply (Hrun 1%nat y); [lia|reflexivity|exact Hty]. }
        assert (ty <= ta) by exact (Hkey _ _ _ _ Hxy Ha Hty).
        assert (tb <= ty).
        { apply (IH 0%nat j y b ty tb);
            [lia|reflexivity|exact Hj|exact Hty|exact Hb|].
          intros k c Hk Hc. apply (Hrun (S k)); [lia|exact Hc]. }
        lia.
    - destruct j as [|j]; [lia|]. cbn in Hi, Hj.
      apply (IH i j a b ta tb); [lia|exact Hi|exact Hj|exact Ha|exact Hb|].
      intros k c Hk Hc. apply (Hrun (S k)); [lia|exact Hc]. }
  intros i j a b ta tb Hij. apply H. lia.
Qed.

End SortAgain.

Lemma sorting_again_changes_nothing_aux (rt : Runtime) :
  (forall l : list Item.t,
     JsArray.sort (itemCompare rt) (JsArray.sort (itemCompare rt) l)
     = JsArray.sort (itemCompare rt) l)
  /\ (forall l : list Contents.t,
        JsArray.sort (feedCompare rt) (JsArray.sort (feedCompare rt) l)
        = JsArray.sort (feedCompare rt) l).
Proof.
  split; intros l.
  - apply sort_of_Sorted; [|apply sort_Sorted]; apply itemCompare_flip.
  - apply sort_of_Sorted; [|apply sort_Sorted]; apply feedCompare_flip.
Qed.

(** X1: sorting a sorted sequence again changes nothing, for the sort of
    items and for the sort of the feeds of a group. *)
Theorem sorting_again_changes_nothing (rt : Runtime) :
  (forall l : list Item.t,
     JsArray.sort (itemCompare rt) (JsArray.sort (itemCompare rt) l)
     = JsArray.sort (itemCompare rt) l)
  /\ (forall l : list Contents.t,
        JsArray.sort (feedCompare rt) (JsArray.sort (feedCompare rt) l)
        = JsArray.sort (feedCompare rt) l).
Proof.
  split; intros l.
  - apply sort_of_Sorted; [|apply sort_Sorted]; exact (itemCompare_flip rt).
  - apply sort_of_Sorted; [|apply sort_Sorted]; exact (feedCompare_flip rt).
Qed.

(** ** The cache *)

Lemma sort_items_runtime (rt rt' : Runtime) (l : list Item.t) :
  Date_parse rt' = Date_parse rt ->
  JsArray.sort (itemCompare rt') l = JsArray.sort (itemCompare rt) l.
Proof.
  intros H. unfold itemCompare, byDateSort, parseDate. now rewrite H.
Qed.

Lemma sort_groups_runtime (rt rt' : Runtime)
    (gs : list (string * list Contents.t)) :
  Date_parse rt' = Date_parse rt ->
  map (fun g => (fst g, JsArray.sort (feedCompare rt') (snd g))) gs
  = map (fun g => (fst g, JsArray.sort (feedCompare rt) (snd g))) gs.
Proof.
  intros H. unfold feedCompare, byDateSort, parseDate. now rewrite H.
Qed.

Lemma snapshot_rebuilds
    (rt rt' : Runtime) (config config' : Config.t)
    (feeds : list (string * list string)) :
  Date_parse rt' = Date_parse rt ->
  allItems (build rt' config' []
              (snapshot rt config feeds (Cache.mk None None)))
  = allItems (build rt config feeds (Cache.mk None None))
  /\ groups (build rt' config' []
               (snapshot rt config feeds (Cache.mk None None)))
     = groups (build rt config feeds (Cache.mk None None))
  /\ errors (build rt' config' []
               (snapshot rt config feeds (Cache.mk None None))) = [].
Proof.
  intros Hdate. rewrite (build_collect rt config). unfold snapshot.
  destruct (collect rt config feeds (Cache.mk None None))
    as [[items errs] gs].
  cbn. split; [now apply sort_items_runtime|].
  split; [now apply sort_groups_runtime|reflexivity].
Qed.

(** X2: a build from the snapshot a live build writes, with no source to
    fetch and whatever the network and the configuration then are, gives
    the [allItems] and the [groups] of the live build, and no errors. *)
Theorem cache_round_trip
    (rt rt' : Runtime) (config config' : Config.t)
    (feeds : list (string * list string)) :
  Date_parse rt' = Date_parse rt ->
  allItems (build rt' config' []
              (snapshot rt config feeds (Cache.mk None None)))
  = allItems (build rt config feeds (Cache.mk None None))
  /\ groups (build rt' config' []
               (snapshot rt config feeds (Cache.mk None None)))
     = groups (build rt config feeds (Cache.mk None None))
  /\ errors (build rt' config' []
               (snapshot rt config feeds (Cache.mk None None))) = [].
Proof.
  intros Hdate. rewrite (build_collect rt config). unfold snapshot.
  destruct (collect rt config feeds (Cache.mk None None))
    as [[items errs] gs].
  cbn [Cache.allItems Cache.groups default].
  change (build rt' config' [] (Cache.mk (Some items) (Some gs)))
    with (mkOutput (JsArray.sort (itemCompare rt') items)
            (map (fun g => (fst g, JsArray.sort (feedCompare rt') (snd g))) gs)
            []).
  cbn [allItems groups errors].
  split; [exact (sort_items_runtime rt rt' items Hdate)|].
  split; [exact (sort_groups_runtime rt rt' gs Hdate)|reflexivity].
Qed.

Lemma cache_round_trip_witness :
  allItems (build (Sample.runtime [] []) Scenario.redirectConfig []
              (snapshot Scenario.runRuntime Scenario.noConfig
                 Scenario.mixedFeeds Scenario.noCache))
  = allItems (build Scenario.runRuntime Scenario.noConfig Scenario.mixedFeeds
                Scenario.noCache)
  /\ groups (build (Sample.runtime [] []) Scenario.redirectConfig []
               (snapshot Scenario.runRuntime Scenario.noConfig
                  Scenario.mixedFeeds Scenario.noCache))
     = groups (build Scenario.runRuntime Scenario.noConfig Scenario.mixedFeeds
                 Scenario.noCache)
  /\ errors (build (Sample.runtime [] []) Scenario.redirectConfig []
               (snapshot Scenario.runRuntime Scenario.noConfig
                  Scenario.mixedFeeds Scenario.noCache)) = [].
Proof.
  apply (cache_round_trip Scenario.runRuntime (Sample.runtime [] [])
           Scenario.noConfig Scenario.redirectConfig Scenario.mixedFeeds
           eq_refl).
Defined.

(** X3: a build from a cache that holds the [allItems] and the [groups] of
    a finished build returns them as they are. *)
Theorem rebuild_from_output_is_stable
    (rt rt' : Runtime) (config config' : Config.t)
    (feeds : list (string * list string)) (cache : Cache.t) :
  Date_parse rt' = Date_parse rt ->
  build rt' config' []
    (Cache.mk (Some (allItems (build rt config feeds cache)))
       (Some (groups (build rt config feeds cache))))
  = mkOutput (allItems (build rt config feeds cache))
      (groups (build rt config feeds cache)) [].
Proof.
  intros Hdate. rewrite (build_collect rt config).
  destruct (collect rt config feeds cache) as [[items errs] gs].
  cbn -[JsArray.sort].
  destruct (sorting_again_changes_nothing_aux rt) as [Hitems Hfeeds].
  rewrite (sort_items_runtime rt rt') by exact Hdate.
  rewrite (sort_groups_runtime rt rt') by exact Hdate.
  rewrite Hitems. f_equal.
  rewrite List.map_map. apply map_ext. intros g.
  cbn [fst snd]. now rewrite Hfeeds.
Qed.

Lemma rebuild_from_output_is_stable_witness :
  build (Sample.runtime [] []) Scenario.noConfig []
    (Cache.mk
       (Some (allItems (build Scenario.mixedRuntime Scenario.noConfig
                          Scenario.mixedFeeds Scenario.noCache)))
       (Some (groups (build Scenario.mixedRuntime Scenario.noConfig
                        Scenario.mixedFeeds Scenario.noCache))))
  = mkOutput
      (allItems (build Scenario.mixedRuntime Scenario.noConfig
                   Scenario.mixedFeeds Scenario.noCache))
      (groups (build Scenario.mixedRuntime Scenario.noConfig
                 Scenario.mixedFeeds Scenario.noCache)) [].
Proof.
  apply (rebuild_from_output_is_stable Scenario.mixedRuntime
           (Sample.runtime [] []) Scenario.noConfig Scenario.noConfig
           Scenario.mixedFeeds Scenario.noCache eq_refl).
Defined.

(** ** Invariants of a live build *)

Section RunProperties.
Variable rt : Runtime.

Lemma groupRun_facts (urls : list string) (d : Delta) :
  groupRun rt urls d ->
  Forall timestamped (dItems d)
  /\ dErrors d `sublist_of` urls
  /\ Forall (fun f => exists url, url ∈ urls /\ feedOfSource rt url f) (dFeeds d)
  /\ dItems d ⊆+ dFeeds d ≫= Contents.items
  /\ (dErrors d = [] -> dItems d = dFeeds d ≫= Contents.items)
  /\ (length (dFeeds d) <= length urls)%nat
  /\ Forall (fun url => url ∈ dErrors d
                        \/ exists f, f ∈ dFeeds d /\ Contents.feed f = Some url)
       urls.
Proof.
  induction 1 as [|url urls d ds Hd Hds IH]; cbn [dItems dErrors dFeeds].
  { repeat split; try constructor. }
  destruct IH as (Hts & Hsub & Hfeeds & Hincl & Hall & Hlen & Hacc).
  assert (Hfeeds' : Forall (fun f => exists u, u ∈ url :: urls
                                        /\ feedOfSource rt u f) (dFeeds ds)).
  { eapply Forall_impl; [exact Hfeeds|]. intros f (u & Hu & Hf).
    exists u. split; [now right|exact Hf]. }
  assert (Hacc' : forall pre,
             Forall (fun u => u ∈ pre ++ dErrors ds
                              \/ exists f, f ∈ dFeeds d ++ dFeeds ds
                                           /\ Contents.feed f = Some u) urls).
  { intros pre. eapply Forall_impl; [exact Hacc|]. intros u [Hu|(f & Hf & Hu)].
    - left. apply elem_of_app. now right.
    - right. exists f. split; [apply elem_of_app; now right|exact Hu]. }
  destruct Hd as [|feed Hfeed Hstamped|feed Hfeed];
    cbn [dItems dErrors dFeeds app length] in *.
  - repeat split; try assumption.
    + now apply sublist_skip.
    + discriminate.
    + lia.
    + constructor; [left; now left|apply (Hacc' [url])].
  - rewrite bind_cons. repeat split.
    + apply Forall_app. now split.
    + now apply sublist_cons.
    + constructor; [|exact Hfeeds']. exists url. split; [now left|exact Hfeed].
    + now apply submseteq_app.
    + intros Herrs. now rewrite (Hall Herrs).
    + lia.
    + constructor; [|apply (Hacc' [])].
      right. exists feed. split; [now left|apply Hfeed].
  - rewrite bind_cons. repeat split; try assumption.
    + now apply sublist_skip.
    + constructor; [|exact Hfeeds']. exists url. split; [now left|exact Hfeed].
    + apply (submseteq_app [] _ _ _ (submseteq_nil_l _) Hincl).
    + discriminate.
    + lia.
    + constructor; [left; now left|apply (Hacc' [url])].
Qed.

Lemma buildRun_facts (feeds : list (string * list string))
    (items : list Item.t) (errs : list string)
    (gs : list (string * list Contents.t)) :
  buildRun rt feeds items errs gs ->
  Forall timestamped items
  /\ errs `sublist_of` concat (map snd feeds)
  /\ items ⊆+ allFeedItems gs
  /\ (errs = [] -> items = allFeedItems gs)
  /\ Forall2 (groupFacts rt errs) feeds gs.
Proof.
  induction 1 as [|name urls feeds d items errs gs Hd Hrun IH].
  { repeat split; try constructor. }
  destruct (groupRun_facts urls d Hd)
    as (Hts & Hsub & Hfeeds & Hincl & Hall & Hlen & Hacc).
  destruct IH as (Hts' & Hsub' & Hincl' & Hall' & Hgroups).
  unfold allFeedItems, allFeeds in *. rewrite bind_cons, bind_app.
  cbn [map concat snd]. repeat split.
  - apply Forall_app. now split.
  - now apply sublist_app.
  - now apply submseteq_app.
  - intros Herrs. apply app_eq_nil in Herrs as [H1 H2].
    now rewrite (Hall H1), (Hall' H2).
  - constructor.
    + repeat split; try assumption. cbn [snd].
      eapply Forall_impl; [exact Hacc|]. intros u [Hu|Hu]; [|now right].
      left. apply elem_of_app. now left.
    + eapply Forall2_impl; [exact Hgroups|].
      intros g gf (Hname & Hf & Hl & Ha). repeat split; try assumption.
      eapply Forall_impl; [exact Ha|]. intros u [Hu|Hu]; [|now right].
      left. apply elem_of_app. now right.
Qed.


Lemma groupFacts_sortFeeds (errs : list string)
    (feeds : list (string * list string))
    (gs : list (string * list Contents.t)) :
  Forall2 (groupFacts rt errs) feeds gs ->
  Forall2 (groupFacts rt errs) feeds (map (sortFeeds rt) gs).
Proof.
  induction 1 as [|g gf feeds gs (Hname & Hf & Hl & Ha) Hrest IH];
    [constructor|].
  cbn [map]. constructor; [|exact IH].
  unfold groupFacts. cbn [sortFeeds fst snd]. repeat split.
  - exact Hname.
  - now rewrite sort_Permutation.
  - now rewrite sort_Permutation.
  - eapply Forall_impl; [exact Ha|]. intros u [Hu|(f & Hfin & Hu)]; [now left|].
    right. exists f. split; [|exact Hu]. now rewrite sort_Permutation.
Qed.

(** The output of a build without cache, from its contributions. *)
Lemma live_build_run (config : Config.t) (feeds : list (string * list string)) :
  exists items errs gs,
    buildRun rt feeds items errs gs
    /\ build rt config feeds (Cache.mk None None)
       = mkOutput (JsArray.sort (itemCompare rt) items)
           (map (sortFeeds rt) gs) errs.
Proof.
  destruct (build_run rt config feeds (Cache.mk None None))
    as (items & errs & gs & Hrun & Heq).
  exists items, errs, gs. split; [exact Hrun|exact Heq].
Qed.

End RunProperties.

Lemma Forall2_Forall_right {A B : Type} (P : A -> B -> Prop) (Q : B -> Prop)
    (l : list A) (k : list B) :
  (forall a b, P a b -> Q b) -> Forall2 P l k -> Forall Q k.
Proof. intros HPQ. induction 1; constructor; eauto. Qed.

Lemma feed_ordered_times (rt : Runtime) (a b : Contents.t) (ta tb : Z) :
  JsArray.ordered (feedCompare rt) a b ->
  feedTime rt a = Some ta -> feedTime rt b = Some tb -> tb <= ta.
Proof.
  unfold feedTime. intros Hord Ha Hb.
  destruct (head (Contents.items a)) as [ia|] eqn:Hia; [|discriminate].
  destruct (head (Contents.items b)) as [ib|] eqn:Hib; [|discriminate].
  apply (ordered_times rt ia ib ta tb); [|exact Ha|exact Hb].
  unfold JsArray.ordered, JsArray.mustFollow, JsArray.sortCompare,
    feedCompare, itemCompare in *.
  now rewrite Hia, Hib in Hord.
Qed.


(** X5: every feed of every group after a build without cache has a title,
    of at most 100 characters. *)
Theorem live_feed_titles_bounded
    (rt : Runtime) (config : Config.t) (feeds : list (string * list string)) :
  Forall (fun g =>
            Forall (fun f => exists t, Contents.title f = Some t
                                       /\ (String.length t <= 100)%nat) (snd g))
    (groups (build rt config feeds (Cache.mk None None))).
Proof.
  destruct (live_build_run rt config feeds) as (items & errs & gs & Hrun & ->).
  cbn [groups].
  destruct (buildRun_facts rt feeds items errs gs Hrun) as (_ & _ & _ & _ & H).
  apply groupFacts_sortFeeds in H.
  apply (Forall2_Forall_right (groupFacts rt errs) _ _ _) with (2 := H).
  intros g gf (_ & Hf & _). eapply Forall_impl; [exact Hf|].
  intros f (url & _ & _ & Htitle & _). exact Htitle.
Qed.


(** X7: in every feed of every group after a build without cache, two
    dated items are in descending order of date when every item from the
    first to the second has a date that parses. *)
Theorem live_feed_items_sorted
    (rt : Runtime) (config : Config.t) (feeds : list (string * list string)) :
  Forall (fun g =>
            Forall (fun f => descendingInRuns (itemTime rt) (Contents.items f))
              (snd g))
    (groups (build rt config feeds (Cache.mk None None))).
Proof.
  destruct (live_build_run rt config feeds) as (items & errs & gs & Hrun & ->).
  cbn [groups].
  destruct (buildRun_facts rt feeds items errs gs Hrun) as (_ & _ & _ & _ & H).
  apply groupFacts_sortFeeds in H.
  apply (Forall2_Forall_right (groupFacts rt errs) _ _ _) with (2 := H).
  intros g gf (_ & Hf & _). eapply Forall_impl; [exact Hf|].
  intros f (url & _ & _ & _ & Hsorted).
  apply (Sorted_descendingInRuns (itemCompare rt)); [|exact Hsorted].
  apply ordered_times.
Qed.

(** X8: in every group after a build, with or without cache, two feeds
    whose first items are dated are in descending order of those dates
    when every feed from the first to the second has a dated first item. *)
Theorem group_feeds_sorted
    (rt : Runtime) (config : Config.t) (feeds : list (string * list string))
    (cache : Cache.t) :
  Forall (fun g => descendingInRuns (feedTime rt) (snd g))
    (groups (build rt config feeds cache)).
Proof.
  destruct (build_run rt config feeds cache) as (items & errs & gs & _ & ->).
  cbn [groups]. induction (default gs (Cache.groups cache)) as [|g l IH];
    [constructor|].
  cbn [map]. constructor; [|exact IH]. cbn [snd].
  apply (Sorted_descendingInRuns (feedCompare rt)).
  - apply feed_ordered_times.
  - apply sort_Sorted, feedCompare_flip.
Qed.

(** X9: the errors of a build are urls of the registry, in the order of the
    registry, each at most as often as the registry lists it. *)
Theorem errors_follow_registry
    (rt : Runtime) (config : Config.t) (feeds : list (string * list string))
    (cache : Cache.t) :
  errors (build rt config feeds cache) `sublist_of` concat (map snd feeds).
Proof.
  destruct (build_run rt config feeds cache) as (items & errs & gs & Hrun & ->).
  cbn [errors].
  now destruct (buildRun_facts rt feeds items errs gs Hrun) as (_ & H & _).
Qed.




(** ** Feeds and their items *)

(** X12: the feed pushed for a source holds every item the parser
    returned and no other: its items are the parsed ones in the order of
    the sort, each changed at most in its link, comments and timestamp. *)
Theorem feed_keeps_every_item
    (rt : Runtime) (config : Config.t) (url : string) (contents : Contents.t)
    (acc : Accum) (title : string) :
  fallbackTitle contents = Some title ->
  exists (feed : Contents.t) (l : list Item.t),
    accFeeds (acceptContents rt config url contents acc) = accFeeds acc ++ [feed]
    /\ l ≡ₚ Contents.items contents
    /\ Forall2 sameEntry l (Contents.items feed).
Proof.
  intros Htitle. unfold acceptContents. rewrite emptyItemsTest_false.
  change (fallbackTitle (Contents.set_feed (Some url) contents))
    with (fallbackTitle contents).
  rewrite Htitle. cbv zeta.
  set (titled := Contents.set_title (Some (truncateTitle title))
                   (Contents.set_feed (Some url) contents)).
  change (Contents.items titled) with (Contents.items contents).
  set (sorted := JsArray.sort (itemCompare rt) (Contents.items contents)).
  exists (Contents.set_items
            (stateOf (forEach (normaliseItem rt config titled) sorted)) titled),
    sorted.
  split; [now destruct (forEach _ _)|]. split.
  - apply sort_Permutation.
  - cbn [Contents.items Contents.set_items].
    apply forEach_Forall2; [apply sameEntry_refl|apply normaliseItem_sameEntry].
Qed.

Lemma feed_keeps_every_item_witness :
  exists (feed : Contents.t) (l : list Item.t),
    accFeeds (acceptContents Scenario.redditRuntime Scenario.noConfig
                "https://www.reddit.com/r/rocq/.rss" Scenario.subreddit
                (mkAccum [] [] [])) = [] ++ [feed]
    /\ l ≡ₚ [Scenario.linkPost; Scenario.textPost]
    /\ Forall2 sameEntry l (Contents.items feed).
Proof.
  apply (feed_keeps_every_item Scenario.redditRuntime Scenario.noConfig
           "https://www.reddit.com/r/rocq/.rss" Scenario.subreddit
           (mkAccum [] [] []) "rocq" eq_refl).
Defined.

Lemma forEach_total {A : Type} (f : A -> completion A) (l : list A) :
  (forall x, exists y, f x = Normal y) -> exists r, forEach f l = Normal r.
Proof.
  intros Hf. induction l as [|x l [r IH]]; [now exists []|].
  destruct (Hf x) as [y Hy]. exists (y :: r). cbn [forEach]. now rewrite Hy, IH.
Qed.

Lemma normaliseItem_plain (rt : Runtime) (config : Config.t)
    (contents : Contents.t) (base : string) (item : Item.t) :
  Contents.link contents = Some base ->
  isRedditRSS contents = false ->
  Config.redirects config = None ->
  exists item', normaliseItem rt config contents item = Normal item'.
Proof.
  intros Hlink Hreddit Hredirects.
  unfold normaliseItem, normaliseDate. cbn [andThen].
  assert (Habs : forall i, exists i', absolutiseLink contents i = Normal i').
  { intros i. unfold absolutiseLink. rewrite Hlink.
    destruct (Item.link i) as [l|]; [|now eexists].
    destruct (JsString.truthy (Some l) && lacksScheme l); now eexists. }
  destruct (Habs (Item.set_timestamp
                    (Some (toLocaleDateString rt (newDate rt (dateAttr item))))
                    item)) as [i1 ->].
  cbn [andThen]. unfold extractReddit. rewrite Hreddit. cbn [andb andThen].
  unfold applyRedirect. rewrite Hredirects. now eexists.
Qed.

(** X13: a feed that has a link and is not a subreddit feed, built with no
    redirect table, never fails once parsed with a title: no error is
    recorded for it and all of its items reach [allItems]. *)
Theorem plain_feed_never_fails
    (rt : Runtime) (config : Config.t) (url : string) (contents : Contents.t)
    (acc : Accum) (title base : string) :
  fallbackTitle contents = Some title ->
  Contents.link contents = Some base ->
  isRedditRSS contents = false ->
  Config.redirects config = None ->
  accErrors (acceptContents rt config url contents acc) = accErrors acc
  /\ exists items,
       accAllItems (acceptContents rt config url contents acc)
       = accAllItems acc ++ items
       /\ length items = length (Contents.items contents).
Proof.
  intros Htitle Hlink Hreddit Hredirects.
  unfold acceptContents. rewrite emptyItemsTest_false.
  change (fallbackTitle (Contents.set_feed (Some url) contents))
    with (fallbackTitle contents).
  rewrite Htitle. cbv zeta.
  set (titled := Contents.set_title (Some (truncateTitle title))
                   (Contents.set_feed (Some url) contents)).
  change (Contents.items titled) with (Contents.items contents).
  destruct (forEach_total (normaliseItem rt config titled)
              (JsArray.sort (itemCompare rt) (Contents.items contents)))
    as [items Hloop].
  { intros item. now apply (normaliseItem_plain rt config titled base). }
  rewrite Hloop. cbn [accErrors accAllItems]. split; [reflexivity|].
  exists items. split; [reflexivity|].
  apply forEach_Normal, Forall2_length in Hloop. rewrite <- Hloop.
  apply Permutation_length, sort_Permutation.
Qed.

Lemma plain_feed_never_fails_witness :
  accErrors (acceptContents Scenario.mixedRuntime Scenario.noConfig
               "https://example.com/feed"
               (Scenario.feedOf "Example" "https://example.com"
                  [Scenario.older; Scenario.plain; Scenario.newer])
               (mkAccum [] [] [])) = []
  /\ exists items,
       accAllItems (acceptContents Scenario.mixedRuntime Scenario.noConfig
                      "https://example.com/feed"
                      (Scenario.feedOf "Example" "https://example.com"
                         [Scenario.older; Scenario.plain; Scenario.newer])
                      (mkAccum [] [] [])) = [] ++ items
       /\ length items = 3%nat.
Proof.
  apply (plain_feed_never_fails Scenario.mixedRuntime Scenario.noConfig
           "https://example.com/feed"
           (Scenario.feedOf "Example" "https://example.com"
              [Scenario.older; Scenario.plain; Scenario.newer])
           (mkAccum [] [] []) "Example" "https://example.com");
    reflexivity.
Defined.

(** ** The content type and the quoted values *)

Section SplitFacts.
Variable c : ascii.

Lemma append_nil_r (s : string) : s +:+ EmptyString = s.
Proof.
  induction s as [|d s IH]; [reflexivity|]. now rewrite append_cons, IH.
Qed.

Lemma prefix_single (d : ascii) (s : string) :
  String.prefix (String c EmptyString) (String d s) = Ascii.eqb d c.
Proof.
  destruct (Ascii.eqb_spec d c) as [->|Hne].
  - apply String.prefix_correct. cbn [String.length String.substring].
    now destruct s.
  - destruct (String.prefix (String c EmptyString) (String d s)) eqn:Hpre;
      [|reflexivity].
    apply String.prefix_correct in Hpre.
    cbn [String.length String.substring] in Hpre. congruence.
Qed.

Lemma split_go_single (a b cur : string) :
  freeOf c a = true ->
  JsString.split_go (String c EmptyString) O cur (a +:+ String c b)
  = (cur +:+ a) :: JsString.split_go (String c EmptyString) O EmptyString b.
Proof.
  revert cur. induction a as [|d a IH]; intros cur Hfree.
  - change (EmptyString +:+ String c b) with (String c b).
    cbn [JsString.split_go]. rewrite prefix_single, Ascii.eqb_refl.
    now rewrite append_nil_r.
  - unfold freeOf in Hfree. cbn [String.list_ascii_of_string forallb] in Hfree.
    apply andb_prop in Hfree as [Hd Hfree]. apply negb_true_iff in Hd.
    rewrite append_cons. cbn [JsString.split_go].
    rewrite prefix_single, Hd, (IH _ Hfree), append_assoc.
    reflexivity.
Qed.

Lemma split_go_free (a cur : string) :
  freeOf c a = true ->
  JsString.split_go (String c EmptyString) O cur a = [cur +:+ a].
Proof.
  revert cur. induction a as [|d a IH]; intros cur Hfree.
  - cbn [JsString.split_go]. now rewrite append_nil_r.
  - unfold freeOf in Hfree. cbn [String.list_ascii_of_string forallb] in Hfree.
    apply andb_prop in Hfree as [Hd Hfree]. apply negb_true_iff in Hd.
    cbn [JsString.split_go].
    rewrite prefix_single, Hd, (IH _ Hfree), append_assoc.
    reflexivity.
Qed.

End SplitFacts.

(** X14: what follows the first semicolon of the [content-type] header has
    no effect: a response is processed as the same response with the
    header cut before the semicolon. *)
Theorem content_type_parameters_ignored
    (rt : Runtime) (config : Config.t) (url ct params text : string)
    (acc : Accum) :
  freeOf ";" ct = true ->
  processResponse rt config url
    (Response.mk (Some (ct +:+ ";" +:+ params)) text) acc
  = processResponse rt config url (Response.mk (Some ct) text) acc.
Proof.
  intros Hfree. unfold processResponse, JsString.split.
  cbn [Response.contentType Response.text].
  change (ct +:+ ";" +:+ params) with (ct +:+ String ";" params).
  now rewrite (split_go_single _ _ _ _ Hfree), (split_go_free _ _ _ Hfree).
Qed.

Lemma content_type_parameters_ignored_witness :
  processResponse Scenario.partialRuntime Scenario.noConfig
    "https://c.example/feed"
    (Response.mk (Some "application/xml; charset=utf-8") "single")
    (mkAccum [] [] [])
  = processResponse Scenario.partialRuntime Scenario.noConfig
      "https://c.example/feed"
      (Response.mk (Some "application/xml") "single") (mkAccum [] [] []).
Proof.
  apply (content_type_parameters_ignored Scenario.partialRuntime
           Scenario.noConfig "https://c.example/feed" "application/xml"
           " charset=utf-8" "single" (mkAccum [] [] [])).
  reflexivity.
Defined.

Lemma body_quoteFree (s rest : string) :
  quoteFree s = true ->
  QuotesContent.body (s +:+ String JsString.dquote rest) = Some s.
Proof.
  induction s as [|d s IH]; intros Hfree.
  - reflexivity.
  - unfold quoteFree in Hfree.
    cbn [String.list_ascii_of_string forallb] in Hfree.
    apply andb_prop in Hfree as [Hd Hfree]. apply andb_prop in Hd as [Hq Hb].
    apply negb_true_iff in Hq, Hb.
    rewrite append_cons. cbn [QuotesContent.body].
    now rewrite Hq, Hb, (IH Hfree).
Qed.

Lemma first_before_quote (p t : string) :
  freeOf JsString.dquote p = true ->
  QuotesContent.first false (p +:+ String JsString.dquote t)
  = QuotesContent.first true t.
Proof.
  induction p as [|d p IH]; intros Hfree.
  - reflexivity.
  - unfold freeOf in Hfree.
    cbn [String.list_ascii_of_string forallb] in Hfree.
    apply andb_prop in Hfree as [Hd Hfree]. apply negb_true_iff in Hd.
    rewrite append_cons. cbn [QuotesContent.first]. rewrite Hd.
    now apply IH.
Qed.

(** X15: on a text whose first double quote opens a value without quote
    and without backslash, closed by a double quote, the match of
    [quotesContentMatch] read at index 0 is that value. *)
Theorem quoted_value_is_extracted (p s rest : string) :
  freeOf JsString.dquote p = true ->
  quoteFree s = true ->
  QuotesContent.match0
    (p +:+ String JsString.dquote (s +:+ String JsString.dquote rest))
  = Some s.
Proof.
  intros Hp Hs. unfold QuotesContent.match0.
  rewrite (first_before_quote _ _ Hp).
  pose proof (body_quoteFree s rest Hs) as Hbody.
  destruct s as [|d s].
  - reflexivity.
  - rewrite append_cons in Hbody |- *. cbn [QuotesContent.first].
    now rewrite Hbody.
Qed.

Lemma quoted_value_is_extracted_witness :
  QuotesContent.match0
    (" target=_blank href="
     +:+ String JsString.dquote
           ("https://rocq-prover.org/"
            +:+ String JsString.dquote ">[link]</a>"))
  = Some "https://rocq-prover.org/".
Proof.
  apply (quoted_value_is_extracted " target=_blank href="
           "https://rocq-prover.org/" ">[link]</a>"); reflexivity.
Defined.

(** ** The ages shown by the template *)

Lemma atLeast_spec (d bound : Z) :
  Template.atLeast (Num d) bound = true <-> bound <= d.
Proof. unfold Template.atLeast. apply Z.leb_le. Qed.

(** X16: the class given to an entry and the class given to the tab of a
    group agree on every difference of times, the one of an invalid date
    included. *)
Theorem tab_and_entry_classes_agree (difference : number) :
  snd (Template.entryAge difference) = Template.tabClass difference.
Proof.
  destruct difference as [d|]; [|reflexivity].
  unfold Template.entryAge, Template.tabClass, Template.atLeast.
  cbv [Template.oneYear Template.oneMonth Template.oneDay Template.oneHour
       Template.oneMinute].
  repeat match goal with
         | |- context [(?a <=? ?b)] => destruct (Z.leb_spec a b)
         end; try reflexivity; lia.
Qed.

(** X17: what the template shows as the age of an entry.  For a time that
    is not in the future it is a count of whole units: minutes below 60,
    hours from 1 to 23, days from 1 to 29, months of 30 days from 1 to 12,
    or years of 365 days from 1 on.  For a time in the future it is a
    negative count of minutes, and for an invalid date it is [NaNm]. *)
Theorem entry_age_label (d : Z) :
  (0 <= d ->
   exists (n : Z) (suffix : string),
     fst (Template.entryAge (Num d)) = pretty n +:+ suffix
     /\ (suffix = "m" /\ 0 <= n < 60
         \/ suffix = "h" /\ 1 <= n < 24
         \/ suffix = "d" /\ 1 <= n < 30
         \/ suffix = "M" /\ 1 <= n <= 12
         \/ suffix = "Y" /\ 1 <= n))
  /\ (d < 0 ->
      exists n : Z,
        fst (Template.entryAge (Num d)) = pretty n +:+ "m" /\ n < 0)
  /\ Template.entryAge NaN = ("NaNm", "age-h").
Proof.
  split; [|split; [|reflexivity]].
  - intros Hd. unfold Template.entryAge, Template.atLeast, Template.count.
    cbv [Template.oneYear Template.oneMonth Template.oneDay Template.oneHour
         Template.oneMinute].
    repeat match goal with
           | |- context [(?a <=? ?b)] => destruct (Z.leb_spec a b)
           end; cbn [fst]; eexists _, _; (split; [reflexivity|]).
    + do 4 right. split; [reflexivity|].
      apply Z.div_le_lower_bound; lia.
    + do 3 right. left. split; [reflexivity|]. split.
      * apply Z.div_le_lower_bound; lia.
      * apply Z.lt_succ_r, Z.div_lt_upper_bound; lia.
    + do 2 right. left. split; [reflexivity|]. split.
      * apply Z.div_le_lower_bound; lia.
      * apply Z.div_lt_upper_bound; lia.
    + right. left. split; [reflexivity|]. split.
      * apply Z.div_le_lower_bound; lia.
      * apply Z.div_lt_upper_bound; lia.
    + left. split; [reflexivity|]. split.
      * apply Z.div_le_lower_bound; lia.
      * apply Z.div_lt_upper_bound; lia.
  - intros Hd. unfold Template.entryAge, Template.atLeast, Template.count.
    cbv [Template.oneYear Template.oneMonth Template.oneDay Template.oneHour
         Template.oneMinute].
    repeat match goal with
           | |- context [(?a <=? ?b)] => destruct (Z.leb_spec a b)
           end; try lia.
    cbn [fst]. eexists. split; [reflexivity|].
    apply Z.div_lt_upper_bound; lia.
Qed.

Lemma entry_age_label_witness :
  Template.entryAge (Num (90 * 60 * 1000)) = ("1h", "age-h")
  /\ Template.entryAge (Num (364 * 24 * 60 * 60 * 1000)) = ("12M", "age-m")
  /\ Template.entryAge (Num (- 1)) = ("-1m", "age-h").
Proof.
  destruct (entry_age_label (90 * 60 * 1000)) as (Hpast & _ & _).
  destruct (entry_age_label (- 1)) as (_ & Hfuture & _).
  assert (H1 := Hpast ltac:(lia)). assert (H2 := Hfuture ltac:(lia)).
  repeat split; vm_compute; reflexivity.
Defined.

(** ** The modes of the script *)

(** X18: under [--write] the script fetches and writes a snapshot whatever
    the other arguments are, [--cached] included, and does not read the
    cache file. *)
Theorem write_overrides_cached
    (rt : Runtime) (argv : list string) (files : Files) :
  WRITE argv = true ->
  main rt argv files
  = main rt ["--write"] (mkFiles (configFile files) (feedsFile files) Absent)
  /\ forall out snap,
       main rt argv files = Continue (out, snap) -> snap <> None.
Proof.
  intros Hwrite. unfold main, USE_CACHE. rewrite Hwrite.
  cbn [negb andb WRITE existsb String.eqb configFile feedsFile cacheFile].
  change (("--write" =? "--write")%string || false) with true.
  cbv iota. split; [reflexivity|].
  intros out snap.
  destruct (readCfg _ (configFile files)) as [c|config]; [discriminate|].
  cbn [runBind].
  destruct (readCfg _ (feedsFile files)) as [c|feeds]; [discriminate|].
  cbn [runBind]. intros [= <- <-]. discriminate.
Qed.

Lemma write_overrides_cached_witness :
  main Scenario.mixedRuntime ["node"; "index.js"; "--cached"; "--write"]
    (mkFiles (Holds Scenario.noConfig) (Holds Scenario.mixedFeeds) Malformed)
  = main Scenario.mixedRuntime ["--write"]
      (mkFiles (Holds Scenario.noConfig) (Holds Scenario.mixedFeeds) Absent).
Proof.
  apply (write_overrides_cached Scenario.mixedRuntime
           ["node"; "index.js"; "--cached"; "--write"]
           (mkFiles (Holds Scenario.noConfig) (Holds Scenario.mixedFeeds)
              Malformed)).
  reflexivity.
Defined.

Lemma build_cached_runtime (rt rt' : Runtime) (config config' : Config.t)
    (cache : Cache.t) :
  Date_parse rt' = Date_parse rt ->
  build rt' config' [] cache = build rt config [] cache.
Proof.
  intros Hdate. unfold build. cbn [fold_left].
  now rewrite (sort_items_runtime rt rt'), (sort_groups_runtime rt rt').
Qed.

(** X19: under [--cached] without [--write] the script reads neither the
    registry nor the network: its result is the same whatever the feeds
    file holds and whatever the sources would answer; it has no errors
    and writes no snapshot. *)
Theorem cached_run_needs_no_network
    (rt rt' : Runtime) (argv : list string) (files : Files)
    (feedsFile' : ConfigFile (list (string * list string))) :
  USE_CACHE argv = true ->
  Date_parse rt' = Date_parse rt ->
  main rt' argv (mkFiles (configFile files) feedsFile' (cacheFile files))
  = main rt argv files
  /\ forall out snap,
       main rt argv files = Continue (out, snap) ->
       errors out = [] /\ snap = None.
Proof.
  intros Hcache Hdate. unfold main. rewrite Hcache.
  assert (Hwrite : WRITE argv = false).
  { unfold USE_CACHE in Hcache. now destruct (WRITE argv). }
  rewrite Hwrite. cbn [configFile feedsFile cacheFile].
  destruct (readCfg _ (configFile files)) as [c|config]; cbn [runBind].
  { split; [reflexivity|discriminate]. }
  destruct (readCfg _ (cacheFile files)) as [c|cache]; cbn [runBind].
  { split; [reflexivity|discriminate]. }
  split.
  - now rewrite (build_cached_runtime rt rt' config config cache).
  - intros out snap [= <- <-]. split; reflexivity.
Qed.

Lemma cached_run_needs_no_network_witness :
  main (Sample.runtime [] []) ["node"; "index.js"; "--cached"]
    (mkFiles Absent Malformed
       (Holds (snapshot Scenario.mixedRuntime Scenario.noConfig
                 Scenario.mixedFeeds Scenario.noCache)))
  = main Scenario.mixedRuntime ["node"; "index.js"; "--cached"]
      (mkFiles Absent (Holds Scenario.mixedFeeds)
         (Holds (snapshot Scenario.mixedRuntime Scenario.noConfig
                   Scenario.mixedFeeds Scenario.noCache))).
Proof.
  apply (cached_run_needs_no_network Scenario.mixedRuntime
           (Sample.runtime [] []) ["node"; "index.js"; "--cached"]
           (mkFiles Absent (Holds Scenario.mixedFeeds)
              (Holds (snapshot Scenario.mixedRuntime Scenario.noConfig
                        Scenario.mixedFeeds Scenario.noCache)))
           Malformed); reflexivity.
Defined.

(** X20: a file that the script reads in its mode and that is not JSON
    ends it in [readCfg] with status 1, before anything is fetched, built
    or written: the configuration in every mode, the registry unless the
    cache is used, the cache when it is used. *)
Theorem script_exits_on_malformed_file
    (rt : Runtime) (argv : list string) (files : Files) :
  configFile files = Malformed
  \/ USE_CACHE argv = false /\ feedsFile files = Malformed
  \/ USE_CACHE argv = true /\ cacheFile files = Malformed ->
  main rt argv files = Exit 1.
Proof.
  unfold main.
  intros [H|[[Hmode H]|[Hmode H]]]; rewrite ?Hmode, H;
    destruct (configFile files); try reflexivity;
    cbn [readCfg runBind]; try rewrite Hmode; try rewrite H; reflexivity.
Qed.

Lemma script_exits_on_malformed_file_witness :
  main Scenario.mixedRuntime ["node"; "index.js"; "--cached"]
    (mkFiles (Holds Scenario.noConfig) Malformed Malformed) = Exit 1
  /\ main Scenario.mixedRuntime ["node"; "index.js"]
       (mkFiles (Holds Scenario.noConfig) Malformed Absent) = Exit 1.
Proof.
  split.
  - apply (script_exits_on_malformed_file Scenario.mixedRuntime
             ["node"; "index.js"; "--cached"]
             (mkFiles (Holds Scenario.noConfig) Malformed Malformed)).
    right. right. split; reflexivity.
  - apply (script_exits_on_malformed_file Scenario.mixedRuntime
             ["node"; "index.js"]
             (mkFiles (Holds Scenario.noConfig) Malformed Absent)).
    right. left. split; reflexivity.
Defined.

(** X21: when the file that lists what to show is absent (the cache under
    [--cached], the registry otherwise) and the configuration is not
    malformed, the template is given no items, no groups and no
    errors. *)
Theorem absent_file_gives_empty_output
    (rt : Runtime) (argv : list string) (files : Files) :
  configFile files <> Malformed ->
  (if USE_CACHE argv then cacheFile files = Absent
   else feedsFile files = Absent) ->
  exists snap, main rt argv files = Continue (mkOutput [] [] [], snap).
Proof.
  intros Hconfig Habsent. unfold main.
  destruct (configFile files) as [| |config]; [|congruence|];
    cbn [readCfg runBind]; destruct (USE_CACHE argv); rewrite Habsent;
    cbn [readCfg runBind]; eexists; reflexivity.
Qed.

Lemma absent_file_gives_empty_output_witness :
  exists snap,
    main Scenario.mixedRuntime ["node"; "index.js"; "--cached"]
      (mkFiles (Holds Scenario.redirectConfig) (Holds Scenario.mixedFeeds)
         Absent)
    = Continue (mkOutput [] [] [], snap).
Proof.
  apply (absent_file_gives_empty_output Scenario.mixedRuntime
           ["node"; "index.js"; "--cached"]
           (mkFiles (Holds Scenario.redirectConfig)
              (Holds Scenario.mixedFeeds) Absent));
    [discriminate|reflexivity].
Defined.

(** X22: a run under [--cached] on the snapshot written by a run under
    [--write] hands the template the [allItems] and the [groups] of that
    run, and no errors, whatever the configuration and the network of the
    second run. *)
Theorem snapshot_round_trip_across_runs
    (rt rt' : Runtime) (files files' : Files) (out : Output)
    (snap : option Cache.t) :
  Date_parse rt' = Date_parse rt ->
  configFile files' <> Malformed ->
  main rt ["--write"] files = Continue (out, snap) ->
  exists (s : Cache.t) (out' : Output),
    snap = Some s
    /\ main rt' ["--cached"]
         (mkFiles (configFile files') (feedsFile files') (Holds s))
       = Continue (out', None)
    /\ allItems out' = allItems out
    /\ groups out' = groups out
    /\ errors out' = [].
Proof.
  intros Hdate Hconfig. unfold main.
  change (USE_CACHE ["--write"]) with false.
  change (WRITE ["--write"]) with true.
  change (USE_CACHE ["--cached"]) with true.
  change (WRITE ["--cached"]) with false.
  cbn [configFile feedsFile cacheFile].
  destruct (readCfg _ (configFile files)) as [c|config]; [discriminate|].
  cbn [runBind].
  destruct (readCfg _ (feedsFile files)) as [c|feeds]; [discriminate|].
  cbn [runBind]. intros [= <- <-].
  assert (Hread : exists config',
             readCfg (Config.mk None) (configFile files') = Continue config').
  { destruct (configFile files'); [now eexists|congruence|now eexists]. }
  destruct Hread as [config' ->]. cbn [runBind readCfg].
  eexists _, _. split; [reflexivity|]. split; [reflexivity|].
  exact (snapshot_rebuilds rt rt' config config' feeds Hdate).
Qed.

Lemma snapshot_round_trip_across_runs_witness :
  exists (s : Cache.t) (out' : Output),
    Some (snapshot Scenario.mixedRuntime Scenario.noConfig Scenario.mixedFeeds
            Scenario.noCache) = Some s
    /\ main (Sample.runtime [] []) ["--cached"]
         (mkFiles Absent Absent (Holds s))
       = Continue (out', None)
    /\ allItems out'
       = allItems (build Scenario.mixedRuntime Scenario.noConfig
                     Scenario.mixedFeeds Scenario.noCache)
    /\ groups out'
       = groups (build Scenario.mixedRuntime Scenario.noConfig
                   Scenario.mixedFeeds Scenario.noCache)
    /\ errors out' = [].
Proof.
  apply (snapshot_round_trip_across_runs Scenario.mixedRuntime
           (Sample.runtime [] [])
           (mkFiles (Holds Scenario.noConfig) (Holds Scenario.mixedFeeds) Absent)
           (mkFiles Absent Absent Absent)
           (build Scenario.mixedRuntime Scenario.noConfig Scenario.mixedFeeds
              Scenario.noCache)
           (Some (snapshot Scenario.mixedRuntime Scenario.noConfig
                    Scenario.mixedFeeds Scenario.noCache)));
    [reflexivity|discriminate|reflexivity].
Defined.
